(** * TeNeS driver (src/tenes.cpp): a shallow embedding and its properties

    The driver class [TeNeS<ptensor>] owns the tensor store (site tensors,
    corner and edge tensors, bond spectra) and sequences the calls into the
    tensor-algebra routines.  The routines themselves (mptensor,
    PEPS_Basics.hpp, Square_lattice_CTM.hpp) and the lattice, parameter and
    operator headers are not part of the translated sources: they appear
    here as the fields of the classes [TensorLib] and [Routines] and of the
    records [Lattice], [PEPS_Parameters], [NNOperator] and [Operator].

    Conventions of the embedding:
    - the instantiation is the one of the executable,
      [ptensor = mptensor::Tensor<scalapack::Matrix, double>]: [tensor_type]
      is [double], [std::real] is the identity and [std::imag] is zero;
    - a [double] is an IEEE binary64 value ([SpecFloat]);
    - an [int] that indexes a vector (site, leg, operator group) is a
      natural number, any other [int] is an integer of [Z]; the block
      sizes [std::abs(dx)+1] and [std::abs(dy)+1] of [measure_twosite] are
      computed in 32-bit two's complement arithmetic with its wrap-around
      ([Int32]), the loop counters and lattice coordinates stay far from
      the ends of the range;
    - a vector is a list, read with the total lookup [!!!]; the driver
      reads and writes inside the bounds fixed by the constructor;
    - one process of the run is described, with its rank as a field; all
      processes see the same files, parameters and lattice;
    - every routine is a function of its arguments (the random source of
      the randomized SVD inside the library is not described);
    - the messages on [std::clog] and [std::cout] and the timers are left
      out; the warnings on [std::cerr] and the calls into the routines are
      recorded in the field [trace]. *)

From Stdlib Require Import ZArith Lia SpecFloat.
From stdpp Require Import base list gmap strings sorting pretty.

Local Open Scope Z_scope.

(** ** IEEE binary64 values *)

Module Double.

Definition prec : Z := 53.
Definition emax : Z := 1024.

Definition double : Type := spec_float.

Definition of_Z (z : Z) : double := binary_normalize prec emax z 0 false.
Definition zero : double := S754_zero false.
Definition one : double := of_Z 1.
Definition quiet_NaN : double := S754_nan.

Definition add : double -> double -> double := SFadd prec emax.
Definition mul : double -> double -> double := SFmul prec emax.
Definition div : double -> double -> double := SFdiv prec emax.

Definition isnan (x : double) : bool :=
  match x with S754_nan => true | _ => false end.

(** [x == 0.0]: both signed zeros compare equal to zero. *)
Definition is_zero (x : double) : bool :=
  match x with S754_zero _ => true | _ => false end.

#[global] Instance double_eq_dec : EqDecision double.
Proof. solve_decision. Defined.

#[global] Instance double_inhabited : Inhabited double := populate zero.

End Double.

Export Double.

(** ** Text form of a floating-point value

    [operator<<] on an [std::ofstream] whose flags were never changed
    prints with [precision() = 6] in the general format: the decimal
    numeral with at most six significant digits nearest to the value.
    [operator>>] reads a decimal numeral back as the nearest double.  A
    numeral is kept by its value [(-1)^neg * mant * 10^exp10]; the layout of
    the digits on the line plays no role. *)

Module StreamIO.

Inductive numeral :=
| NumDec (neg : bool) (mant : Z) (exp10 : Z)
| NumInf (neg : bool)
| NumNan.

#[global] Instance numeral_eq_dec : EqDecision numeral.
Proof. solve_decision. Defined.

Fixpoint digits10_aux (fuel : nat) (n : Z) : Z :=
  match fuel with
  | O => 0
  | S fuel' => if n <? 10 then 1 else 1 + digits10_aux fuel' (n / 10)
  end.

(** Number of decimal digits of a positive integer. *)
Definition digits10 (n : Z) : Z := digits10_aux (S (Z.to_nat (Z.log2 n))) n.

(** Nearest integer to [num / den] ([den > 0]), ties to even. *)
Definition div_nearest_even (num den : Z) : Z :=
  let q := num / den in
  let r := num mod den in
  match 2 * r ?= den with
  | Lt => q
  | Gt => q + 1
  | Eq => if Z.even q then q else q + 1
  end.

(** [round_sig p m e]: the decimal [(n, q)] with [p] significant digits
    nearest to [m * 2^e]. *)
Definition round_sig (p : Z) (m : positive) (e : Z) : Z * Z :=
  let num := Z.pos m * 2 ^ Z.max e 0 in
  let den := 2 ^ Z.max (- e) 0 in
  let k := digits10 num - digits10 den in
  let t := if den * 10 ^ Z.max k 0 <=? num * 10 ^ Z.max (- k) 0
           then k else k - 1 in
  let q := t - p + 1 in
  let n := div_nearest_even (num * 10 ^ Z.max (- q) 0)
                            (den * 10 ^ Z.max q 0) in
  if n =? 10 ^ p then (10 ^ (p - 1), q + 1) else (n, q).

(** Default stream precision, [std::ios_base::precision()]. *)
Definition default_precision : Z := 6.

(** [std::numeric_limits<double>::max_digits10]. *)
Definition max_digits10 : Z := 17.

(** [os << x] at precision [p]. *)
Definition put_double (p : Z) (x : double) : numeral :=
  match x with
  | S754_nan => NumNan
  | S754_infinity s => NumInf s
  | S754_zero s => NumDec s 0 0
  | S754_finite s m e => let '(n, q) := round_sig p m e in NumDec s n q
  end.

(** Nearest double to a decimal numeral; [None] where the extraction
    fails (no digit sequence to convert). *)
Definition get_double (t : numeral) : option double :=
  match t with
  | NumDec s m q =>
      match m with
      | Z0 => Some (S754_zero s)
      | Zpos pm =>
          Some (if 0 <=? q
                then binary_normalize prec emax
                       ((if s then -1 else 1) * (Z.pos pm * 10 ^ q)) 0 false
                else SFdiv prec emax (S754_finite s pm 0)
                       (S754_finite false (Z.to_pos (10 ^ (- q))) 0))
      | Zneg _ => None
      end
  | NumInf _ | NumNan => None
  end.

(** An input stream: the numerals still to be read and the fail bit. *)
Record istream := { is_rest : list numeral; is_fail : bool }.

(** [std::ifstream ifs(path)]: the fail bit is set when the file cannot be
    opened. *)
Definition open_in (content : option (list numeral)) : istream :=
  match content with
  | Some toks => {| is_rest := toks; is_fail := false |}
  | None => {| is_rest := []; is_fail := true |}
  end.

(** [double temp = 0.0; ifs >> temp;] returns the final [temp]. *)
Definition read_double (s : istream) : double * istream :=
  if is_fail s then (zero, s)
  else match is_rest s with
       | [] => (zero, {| is_rest := []; is_fail := true |})
       | t :: rest =>
           match get_double t with
           | Some d => (d, {| is_rest := rest; is_fail := false |})
           | None => (zero, {| is_rest := t :: rest; is_fail := true |})
           end
       end.

End StreamIO.

Export StreamIO.

(** ** 32-bit [int]

    The value of an [int] is an integer of [Z] between [INT_MIN] and
    [INT_MAX]; a result outside that range wraps around (two's
    complement), as the executable does. *)

Module Int32.

Definition INT_MAX : Z := 2147483647.
Definition INT_MIN : Z := -2147483648.

Definition in_range (z : Z) : Prop := INT_MIN <= z <= INT_MAX.

(** The representative of [z] modulo [2^32] in the range of [int]. *)
Definition wrap (z : Z) : Z := (z + 2147483648) mod 4294967296 - 2147483648.

(** [x + y] on [int]. *)
Definition add (x y : Z) : Z := wrap (x + y).

(** [std::abs(x)] on [int]: [INT_MIN] has no positive counterpart and
    comes back unchanged. *)
Definition abs (x : Z) : Z := wrap (Z.abs x).

End Int32.

(** ** Exceptions *)

(** What a piece of a method that may throw leaves behind: its result,
    or the [what()] of the exception and the state reached at the throw. *)
Inductive attempt (A : Type) :=
| Passed (a : A)
| Raised (what : string) (a : A).

Arguments Passed {A} a.
Arguments Raised {A} what a.

(** [std::vector<T>(n, value)] for an [int] [n]: the count is converted to
    [size_type], and a negative [n] becomes a count above [max_size()], for
    which the constructor throws [std::length_error] (the message is the
    one of libstdc++). *)
Definition length_error_what : string :=
  "cannot create std::vector larger than max_size()".

Definition vector_fits (n : Z) : bool := 0 <=? n.

(** ** Data model *)

(** [struct Bond { int source_site; int dx; int dy; }], the key of the
    two-site result maps.  [operator<] compares [std::tie] of the three
    fields, that is, lexicographically. *)
Abbreviation Bond := (nat * Z * Z)%type.

Definition Bond_lt (a b : Bond) : bool :=
  let '(sa, dxa, dya) := a in
  let '(sb, dxb, dyb) := b in
  if decide (sa = sb)
  then if decide (dxa = dxb) then dya <? dyb else dxa <? dxb
  else (sa <? sb)%nat.

(** correlation.hpp *)
Record Correlation := {
  left_index : nat; right_index : nat;
  offset_x : Z; offset_y : Z;
  left_op : nat; right_op : nat;
  real : double; imag : double
}.

Record CorrelationParameter := {
  r_max : Z;
  operators : list (nat * nat)
}.

(** The collaborators of the driver.  [ptensor] is the template argument
    of [TeNeS]; a routine that fills reference arguments returns the new
    values of those arguments (and receives their old values where the
    driver keeps them alive between calls). *)
Class TensorLib := {
  ptensor : Type;
  (** [ptensor()] *)
  ptensor_empty : ptensor;
  (** [ptensor(Shape(...))] *)
  ptensor_of_shape : list nat -> ptensor;
  set_value : ptensor -> list nat -> double -> ptensor;
  (** [global_index(n)] for [n = 0 .. local_size()-1] *)
  local_indices : ptensor -> list (list nat);
  shape : ptensor -> list nat;
  transpose : ptensor -> list nat -> ptensor;
  reshape : ptensor -> list nat -> ptensor;
  slice : ptensor -> nat -> nat -> nat -> ptensor;
  svd : ptensor -> list nat -> list nat -> ptensor * list double * ptensor;
  (** the dense dump written by [save] and read by [load]; [load] on a
      tensor [t] receives the dump found under the file name, if any *)
  dump : Type;
  tensor_save : ptensor -> dump;
  tensor_load : ptensor -> option dump -> ptensor;
  (** [std::mt19937] driving [std::uniform_real_distribution<double>(-1,1)] *)
  rng : Type;
  mt19937 : Z -> rng;
  dist : rng -> double * rng;
  (** printlevel.hpp *)
  PrintLevel : Type;
  PrintLevel_none : PrintLevel;
  PrintLevel_info : PrintLevel;
  PrintLevel_ge : PrintLevel -> PrintLevel -> bool
}.

Section Driver.

Context `{TL : TensorLib}.

#[global] Instance ptensor_inhabited : Inhabited ptensor := populate ptensor_empty.

(** Lattice.hpp: the unit cell.  Sites and legs index vectors and are
    natural numbers; coordinates and offsets are signed. *)
Record Lattice := {
  lat_LX : Z; lat_LY : Z; lat_N_UNIT : nat;
  physical_dims : list nat;
  virtual_dims : list (list nat);
  initial_dirs : list (list double);
  noises : list double;
  neighbor : nat -> nat -> nat;
  other : nat -> Z -> Z -> nat;
  lat_x : nat -> Z;
  lat_y : nat -> Z;
  lat_index : Z -> Z -> nat
}.

(** PEPS_Parameters.hpp: the options the driver reads; the routines
    receive the whole record. *)
Record PEPS_Parameters := {
  print_level : PrintLevel;
  par_CHI : nat;
  seed : Z;
  par_outdir : string;
  tensor_load_dir : string;
  tensor_save_dir : string;
  num_simple_step : Z;
  num_full_step : Z;
  Full_Use_FastFullUpdate : bool
}.

(** A nearest-neighbour gate ([NNOperators<ptensor>] is a vector of
    these). *)
Record NNOperator := {
  nn_source_site : nat;
  nn_source_leg : nat;
  nn_op : ptensor;
  is_horizontal : bool
}.

(** An observable ([Operators<ptensor>] is a vector of these).  Only
    the first entries [dx[0]], [dy[0]] of the offset vectors are read. *)
Record Operator := {
  group : nat;
  source_site : nat;
  dx : list Z;
  dy : list Z;
  op : ptensor;
  ops_indices : list nat
}.

(** The eight boundary vectors the CTM routines take by reference. *)
Record Environment := {
  C1 : list ptensor; C2 : list ptensor; C3 : list ptensor; C4 : list ptensor;
  eTt : list ptensor; eTr : list ptensor; eTb : list ptensor; eTl : list ptensor
}.

(** PEPS_Basics.hpp and Square_lattice_CTM.hpp. *)
Class Routines := {
  Calc_CTM_Environment :
    Environment -> list ptensor -> PEPS_Parameters -> Lattice -> Environment;
  Left_move :
    Environment -> list ptensor -> Z -> PEPS_Parameters -> Lattice -> Environment;
  Right_move :
    Environment -> list ptensor -> Z -> PEPS_Parameters -> Lattice -> Environment;
  Top_move :
    Environment -> list ptensor -> Z -> PEPS_Parameters -> Lattice -> Environment;
  Bottom_move :
    Environment -> list ptensor -> Z -> PEPS_Parameters -> Lattice -> Environment;
  (** arguments: Tn1, Tn2, lambda1, lambda2, op, connect, parameters, and
      the old [Tn1_new], [Tn2_new], [lambda_c] *)
  Simple_update_bond :
    ptensor -> ptensor -> list (list double) -> list (list double) ->
    ptensor -> nat -> PEPS_Parameters ->
    ptensor * ptensor * list double -> ptensor * ptensor * list double;
  (** arguments: the four corners, the six edges, Tn1, Tn2, op, connect,
      parameters, and the old [Tn1_new], [Tn2_new] *)
  Full_update_bond :
    list ptensor -> list ptensor -> ptensor -> ptensor ->
    ptensor -> nat -> PEPS_Parameters ->
    ptensor * ptensor -> ptensor * ptensor;
  (** arguments: C1..C4, eTt eTr eTb eTl, Tn, op *)
  Contract_one_site :
    list ptensor -> list ptensor -> ptensor -> ptensor -> double;
  (** arguments: C1..C4, the six edges, Tn1, Tn2, op12 *)
  Contract_two_sites_vertical_op12 :
    list ptensor -> list ptensor -> ptensor -> ptensor -> ptensor -> double;
  Contract_two_sites_horizontal_op12 :
    list ptensor -> list ptensor -> ptensor -> ptensor -> ptensor -> double;
  (** arguments: C_, eTt_, eTr_, eTb_, eTl_, Tn_, op_ *)
  Contract :
    list ptensor -> list ptensor -> list ptensor -> list ptensor ->
    list ptensor -> list (list ptensor) -> list (list ptensor) -> double;
  (** arguments: the old A, two corners, three edges, Tn, op *)
  StartCorrelation :
    ptensor -> ptensor -> ptensor -> ptensor -> ptensor -> ptensor ->
    ptensor -> ptensor -> ptensor;
  (** arguments: A, two edges, Tn *)
  Transfer : ptensor -> ptensor -> ptensor -> ptensor -> ptensor;
  (** arguments: A, two corners, three edges, Tn, op *)
  FinishCorrelation :
    ptensor -> ptensor -> ptensor -> ptensor -> ptensor -> ptensor ->
    ptensor -> ptensor -> double
}.

Context `{RT : Routines}.

(** Files: dense dumps, files of numerals (one per line), and the
    observable tables kept as the values of their lines (written at
    [max_digits10], which determines the double). *)
Inductive text_line :=
| LOnesite (ilops i : nat) (re im : double)
| LTwosite (ilops : nat) (b : Bond) (re im : double)
| LCorrelation (c : Correlation)
| LEnergy (e : double)
| LDensity (ilops : nat) (v : double).

Inductive file :=
| FDump (d : dump)
| FNumbers (toks : list numeral)
| FText (lines : list text_line).

Record filesystem := {
  fs_dirs : gset string;
  fs_files : gmap string file
}.

(** [stat(path, &status) == 0] *)
Definition stat (fs : filesystem) (path : string) : bool :=
  bool_decide (path ∈ fs_dirs fs) || bool_decide (is_Some (fs_files fs !! path)).

Definition mkdir (fs : filesystem) (path : string) : filesystem :=
  {| fs_dirs := {[path]} ∪ fs_dirs fs; fs_files := fs_files fs |}.

Definition write_file (fs : filesystem) (path : string) (f : file) : filesystem :=
  {| fs_dirs := fs_dirs fs; fs_files := <[path := f]> (fs_files fs) |}.

(** Calls into the collaborators and diagnostics, in program order. *)
Inductive event :=
| EvCalcCTM
| EvLeftMove (ix : Z) | EvRightMove (ix : Z)
| EvTopMove (iy : Z) | EvBottomMove (iy : Z)
| EvSimpleBond (source leg : nat)
| EvFullBond (source leg : nat)
| EvLoadTensor (path : string)
| EvSaveTensor (path : string)
| EvReadLambda (path : string)
| EvWriteLambda (path : string)
| EvWarnTooLong (grp : nat) (dx dy : Z).

(** The object state.  [trace] is the record of [event]s. *)
Record TeNeS := {
  mpisize : nat; mpirank : nat;
  peps_parameters : PEPS_Parameters;
  lattice : Lattice;
  simple_updates : list NNOperator;
  full_updates : list NNOperator;
  onesite_operators : list Operator;
  twosite_operators : list Operator;
  site_ops_indices : list (list Z);
  num_onesite_operators : nat;
  num_twosite_operators : nat;
  op_identity : list ptensor;
  corparam : CorrelationParameter;
  Tn : list ptensor;
  env : Environment;
  lambda_tensor : list (list (list double));
  CHI : nat; LX : Z; LY : Z; N_UNIT : nat;
  outdir : string;
  trace : list event
}.

Definition nleg : nat := 4.

Definition set_Tn (st : TeNeS) (v : list ptensor) : TeNeS :=
  {| mpisize := mpisize st; mpirank := mpirank st;
     peps_parameters := peps_parameters st; lattice := lattice st;
     simple_updates := simple_updates st; full_updates := full_updates st;
     onesite_operators := onesite_operators st;
     twosite_operators := twosite_operators st;
     site_ops_indices := site_ops_indices st;
     num_onesite_operators := num_onesite_operators st;
     num_twosite_operators := num_twosite_operators st;
     op_identity := op_identity st; corparam := corparam st;
     Tn := v; env := env st; lambda_tensor := lambda_tensor st;
     CHI := CHI st; LX := LX st; LY := LY st; N_UNIT := N_UNIT st;
     outdir := outdir st; trace := trace st |}.

Definition set_env (st : TeNeS) (v : Environment) : TeNeS :=
  {| mpisize := mpisize st; mpirank := mpirank st;
     peps_parameters := peps_parameters st; lattice := lattice st;
     simple_updates := simple_updates st; full_updates := full_updates st;
     onesite_operators := onesite_operators st;
     twosite_operators := twosite_operators st;
     site_ops_indices := site_ops_indices st;
     num_onesite_operators := num_onesite_operators st;
     num_twosite_operators := num_twosite_operators st;
     op_identity := op_identity st; corparam := corparam st;
     Tn := Tn st; env := v; lambda_tensor := lambda_tensor st;
     CHI := CHI st; LX := LX st; LY := LY st; N_UNIT := N_UNIT st;
     outdir := outdir st; trace := trace st |}.

Definition set_lambda_tensor (st : TeNeS) (v : list (list (list double))) : TeNeS :=
  {| mpisize := mpisize st; mpirank := mpirank st;
     peps_parameters := peps_parameters st; lattice := lattice st;
     simple_updates := simple_updates st; full_updates := full_updates st;
     onesite_operators := onesite_operators st;
     twosite_operators := twosite_operators st;
     site_ops_indices := site_ops_indices st;
     num_onesite_operators := num_onesite_operators st;
     num_twosite_operators := num_twosite_operators st;
     op_identity := op_identity st; corparam := corparam st;
     Tn := Tn st; env := env st; lambda_tensor := v;
     CHI := CHI st; LX := LX st; LY := LY st; N_UNIT := N_UNIT st;
     outdir := outdir st; trace := trace st |}.

Definition set_op_identity (st : TeNeS) (v : list ptensor) : TeNeS :=
  {| mpisize := mpisize st; mpirank := mpirank st;
     peps_parameters := peps_parameters st; lattice := lattice st;
     simple_updates := simple_updates st; full_updates := full_updates st;
     onesite_operators := onesite_operators st;
     twosite_operators := twosite_operators st;
     site_ops_indices := site_ops_indices st;
     num_onesite_operators := num_onesite_operators st;
     num_twosite_operators := num_twosite_operators st;
     op_identity := v; corparam := corparam st;
     Tn := Tn st; env := env st; lambda_tensor := lambda_tensor st;
     CHI := CHI st; LX := LX st; LY := LY st; N_UNIT := N_UNIT st;
     outdir := outdir st; trace := trace st |}.

(** Appends events to the trace. *)
Definition emit (st : TeNeS) (evs : list event) : TeNeS :=
  {| mpisize := mpisize st; mpirank := mpirank st;
     peps_parameters := peps_parameters st; lattice := lattice st;
     simple_updates := simple_updates st; full_updates := full_updates st;
     onesite_operators := onesite_operators st;
     twosite_operators := twosite_operators st;
     site_ops_indices := site_ops_indices st;
     num_onesite_operators := num_onesite_operators st;
     num_twosite_operators := num_twosite_operators st;
     op_identity := op_identity st; corparam := corparam st;
     Tn := Tn st; env := env st; lambda_tensor := lambda_tensor st;
     CHI := CHI st; LX := LX st; LY := LY st; N_UNIT := N_UNIT st;
     outdir := outdir st; trace := trace st ++ evs |}.


Definition set_lattice (st : TeNeS) (v : Lattice) : TeNeS :=
  {| mpisize := mpisize st; mpirank := mpirank st;
     peps_parameters := peps_parameters st; lattice := v;
     simple_updates := simple_updates st; full_updates := full_updates st;
     onesite_operators := onesite_operators st;
     twosite_operators := twosite_operators st;
     site_ops_indices := site_ops_indices st;
     num_onesite_operators := num_onesite_operators st;
     num_twosite_operators := num_twosite_operators st;
     op_identity := op_identity st; corparam := corparam st;
     Tn := Tn st; env := env st; lambda_tensor := lambda_tensor st;
     CHI := CHI st; LX := LX st; LY := LY st; N_UNIT := N_UNIT st;
     outdir := outdir st; trace := trace st |}.

Definition set_initial_dirs (L : Lattice) (v : list (list double)) : Lattice :=
  {| lat_LX := lat_LX L; lat_LY := lat_LY L; lat_N_UNIT := lat_N_UNIT L;
     physical_dims := physical_dims L; virtual_dims := virtual_dims L;
     initial_dirs := v; noises := noises L;
     neighbor := neighbor L; other := other L;
     lat_x := lat_x L; lat_y := lat_y L; lat_index := lat_index L |}.

(** What a method that may throw leaves behind: [Thrown] carries the
    [what()] of the exception. *)
Inductive outcome :=
| Done (st : TeNeS) (fs : filesystem)
| Thrown (msg : string) (st : TeNeS) (fs : filesystem).

(** ** [TeNeS::initialize_tensors] *)

(** [lattice.virtual_dims[i][j]] and [lattice.physical_dims[i]] *)
Definition vdim_at (L : Lattice) (i j : nat) : nat := (virtual_dims L !!! i) !!! j.
Definition pdim_at (L : Lattice) (i : nat) : nat := physical_dims L !!! i.

(** The identity matrix pushed to [op_identity]. *)
Definition identity_op (pdim : nat) : ptensor :=
  foldl (fun id j =>
           foldl (fun id k =>
                    set_value id [j; k] (if decide (j = k) then one else zero))
                 id (seq 0 pdim))
        (ptensor_of_shape [pdim; pdim]) (seq 0 pdim).

(** The first loop: allocation of every per-site tensor, the spectra
    filled with 1.0, the identity operators. *)
Definition allocate (st : TeNeS) : TeNeS :=
  let L := lattice st in
  let chi := CHI st in
  let sites := seq 0 (N_UNIT st) in
  let corners := (fun _ : nat => ptensor_of_shape [chi; chi]) <$> sites in
  let edge (j : nat) :=
    (fun i => ptensor_of_shape [chi; chi; vdim_at L i j; vdim_at L i j]) <$> sites in
  let st := set_Tn st
    ((fun i => ptensor_of_shape [vdim_at L i 0%nat; vdim_at L i 1%nat;
                                 vdim_at L i 2%nat; vdim_at L i 3%nat;
                                 pdim_at L i]) <$> sites) in
  let st := set_env st
    {| C1 := corners; C2 := corners; C3 := corners; C4 := corners;
       eTt := edge 1%nat; eTr := edge 2%nat; eTb := edge 3%nat; eTl := edge 0%nat |} in
  let st := set_lambda_tensor st
    ((fun i => (fun j => replicate (vdim_at L i j) one) <$> seq 0 nleg) <$> sites) in
  set_op_identity st (op_identity st ++ ((fun i => identity_op (pdim_at L i)) <$> sites)).

(** [n] successive draws [dist(gen)]. *)
Fixpoint draw (n : nat) (g : rng) : list double * rng :=
  match n with
  | O => ([], g)
  | S n' => let '(x, g1) := dist g in
            let '(xs, g2) := draw n' g1 in (x :: xs, g2)
  end.

(** One iteration of the loop of the branch [load_dir.empty()]: the
    direction vector (drawn when the configured one is all zero, and then
    stored back into the lattice) fills the entries with zero virtual
    indices, scaled noise fills the others.  Only the real parts reach a
    real tensor. *)
Definition random_site (i : nat) (acc : TeNeS * rng * rng) : TeNeS * rng * rng :=
  let '(st, gen, gen_im) := acc in
  let L := lattice st in
  let pdim := pdim_at L i in
  let vd := vdim_at L i in
  let ndim := (vd 0 * vd 1 * vd 2 * vd 3 * pdim)%nat in
  let '(ran_re, gen) := draw ndim gen in
  let '(ran_im, gen_im) := draw ndim gen_im in
  let dir0 := initial_dirs L !!! i in
  let '(dir, dir_im, gen, gen_im) :=
    if forallb is_zero dir0
    then let '(d, g) := draw pdim gen in
         let '(di, gi) := draw pdim gen_im in (d, di, g, gi)
    else (dir0, replicate pdim zero, gen, gen_im) in
  let t := Tn st !!! i in
  let t' :=
    foldl (fun t index =>
             let ix (a : nat) : nat := index !!! a in
             if decide (ix 0 = 0 ∧ ix 1 = 0 ∧ ix 2 = 0 ∧ ix 3 = 0)%nat
             then set_value t index (dir !!! ix 4%nat)
             else
               let nr := (ix 0 + ix 1 * vd 0 + ix 2 * vd 0 * vd 1 +
                          ix 3 * vd 0 * vd 1 * vd 2 +
                          ix 4 * vd 0 * vd 1 * vd 2 * vd 3)%nat in
               set_value t index (mul (noises L !!! i) (ran_re !!! nr)))
          t (local_indices t) in
  let st := set_lattice st (set_initial_dirs L (<[i := dir]> (initial_dirs L))) in
  (set_Tn st (<[i := t']> (Tn st)), gen, gen_im).

(** [filename + Kind + suffix] with [filename = dir + "/"] and
    [suffix = "_" + std::to_string(i) + ".dat"] *)
Definition site_file (dir kind : string) (i : nat) : string :=
  ((dir +:+ "/") +:+ kind) +:+ ("_" +:+ pretty i +:+ ".dat").

(** [dir + "/lambda_" + std::to_string(i) + ".dat"] *)
Definition lambda_file (dir : string) (i : nat) : string :=
  ((dir +:+ "/lambda_") +:+ pretty i) +:+ ".dat".

Definition find_dump (fs : filesystem) (path : string) : option dump :=
  match fs_files fs !! path with Some (FDump d) => Some d | _ => None end.

(** The numerals of a file; a file that does not start with a numeral
    behaves as one that cannot be read. *)
Definition find_numbers (fs : filesystem) (path : string) : option (list numeral) :=
  match fs_files fs !! path with Some (FNumbers toks) => Some toks | _ => None end.

Definition load_at (fs : filesystem) (dir kind : string) (i : nat)
    (v : list ptensor) : list ptensor :=
  alter (fun t => tensor_load t (find_dump fs (site_file dir kind i))) i v.

(** The nine [load] calls for site [i]. *)
Definition load_site (fs : filesystem) (dir : string) (st : TeNeS) (i : nat) : TeNeS :=
  let e := env st in
  let st := set_Tn st (load_at fs dir "T" i (Tn st)) in
  let st := set_env st
    {| eTt := load_at fs dir "Et" i (eTt e); eTr := load_at fs dir "Er" i (eTr e);
       eTb := load_at fs dir "Eb" i (eTb e); eTl := load_at fs dir "El" i (eTl e);
       C1 := load_at fs dir "C1" i (C1 e); C2 := load_at fs dir "C2" i (C2 e);
       C3 := load_at fs dir "C3" i (C3 e); C4 := load_at fs dir "C4" i (C4 e) |} in
  emit st ((fun kind => EvLoadTensor (site_file dir kind i)) <$>
           ["T"; "Et"; "Er"; "Eb"; "El"; "C1"; "C2"; "C3"; "C4"]).

(** [n] extractions [ifs >> temp], each pushed to the back of [ls]. *)
Fixpoint read_doubles (n : nat) (s : istream) : list double * istream :=
  match n with
  | O => ([], s)
  | S n' => let '(d, s1) := read_double s in
            let '(ds, s2) := read_doubles n' s1 in (d :: ds, s2)
  end.

(** The values read from [lambda_<i>.dat]: [vdim[j]] values for each of
    the four legs in order. *)
Definition read_site_lambda (L : Lattice) (fs : filesystem) (dir : string)
    (i : nat) : list double :=
  fst (foldl (fun '(ls, s) j =>
                let '(ds, s') := read_doubles (vdim_at L i j) s in (ls ++ ds, s'))
             ([], open_in (find_numbers fs (lambda_file dir i)))
             (seq 0 nleg)).

(** The buffer [ls] a process of the given rank holds when it reaches
    [bcast]: filled by the loop guarded by [mpirank == 0], empty
    elsewhere. *)
Definition local_ls (L : Lattice) (n_unit : nat) (fs : filesystem) (dir : string)
    (rank : nat) : list double :=
  if decide (rank = 0%nat)
  then concat ((fun i => read_site_lambda L fs dir i) <$> seq 0 n_unit)
  else [].

(** [bcast(buf, root, comm)]: every process leaves the call with the
    buffer that process [root] entered it with.  All processes run the same
    program on the same lattice and see the same files, so the buffer of
    each rank is a function of the rank. *)
Definition bcast {A : Type} (buf : nat -> A) (root : nat) : A := buf root.

(** [lambda_tensor[i][j][k] = ls[index]; ++index;] over all [i], [j], [k]. *)
Definition assign_lambda (L : Lattice) (n_unit : nat) (ls : list double)
    : list (list (list double)) :=
  fst (foldl (fun '(lam, index) i =>
                let '(row, index') :=
                  foldl (fun '(row, index) j =>
                           (row ++ [(fun k => ls !!! (index + k)%nat) <$> seq 0 (vdim_at L i j)],
                            (index + vdim_at L i j)%nat))
                        ([], index) (seq 0 nleg) in
                (lam ++ [row], index'))
             ([], 0%nat) (seq 0 n_unit)).

Definition initialize_tensors (st : TeNeS) (fs : filesystem) : outcome :=
  let st := allocate st in
  let gen := mt19937 (seed (peps_parameters st)) in
  let gen_im := mt19937 (seed (peps_parameters st) * 11 + 137) in
  let load_dir := tensor_load_dir (peps_parameters st) in
  if decide (load_dir = "")
  then
    let '(st, _, _) :=
      foldl (fun acc i => random_site i acc) (st, gen, gen_im)
            (seq 0 (lat_N_UNIT (lattice st))) in
    Done st fs
  else if negb (stat fs load_dir)
  then Thrown (load_dir +:+ " does not exists.") st fs
  else
    let st := foldl (load_site fs load_dir) st (seq 0 (N_UNIT st)) in
    let st := if decide (mpirank st = 0%nat)
              then emit st ((fun i => EvReadLambda (lambda_file load_dir i)) <$>
                            seq 0 (N_UNIT st))
              else st in
    let ls := bcast (local_ls (lattice st) (N_UNIT st) fs load_dir) 0 in
    Done (set_lambda_tensor st (assign_lambda (lattice st) (N_UNIT st) ls)) fs.

(** ** [update_CTM], [simple_update], [full_update], [optimize] *)

Definition update_CTM (st : TeNeS) : TeNeS :=
  emit (set_env st (Calc_CTM_Environment (env st) (Tn st) (peps_parameters st)
                                         (lattice st)))
       [EvCalcCTM].

(** The body of [for (auto up : simple_updates)]; the second component
    carries the locals [Tn1_new], [Tn2_new], [lambda_c]. *)
Definition simple_update_step (acc : TeNeS * (ptensor * ptensor * list double))
    (up : NNOperator) : TeNeS * (ptensor * ptensor * list double) :=
  let '(st, locals) := acc in
  let source := nn_source_site up in
  let source_leg := nn_source_leg up in
  let target := neighbor (lattice st) source source_leg in
  let target_leg := ((source_leg + 2) mod 4)%nat in
  let locals' :=
    Simple_update_bond (Tn st !!! source) (Tn st !!! target)
                       (lambda_tensor st !!! source) (lambda_tensor st !!! target)
                       (nn_op up) source_leg (peps_parameters st) locals in
  let '(Tn1_new, Tn2_new, lambda_c) := locals' in
  let st := emit st [EvSimpleBond source source_leg] in
  let lam := alter (fun v => <[source_leg := lambda_c]> v) source (lambda_tensor st) in
  let lam := alter (fun v => <[target_leg := lambda_c]> v) target lam in
  let st := set_lambda_tensor st lam in
  let st := set_Tn st (<[source := Tn1_new]> (Tn st)) in
  let st := set_Tn st (<[target := Tn2_new]> (Tn st)) in
  (st, locals').

(** [for (int_tau = 0; int_tau < nsteps; ++int_tau)]: the body runs
    [nsteps] times, not at all when [nsteps <= 0].  The progress lines
    printed on the way do not touch the state and are left out. *)
Definition repeat_steps {A : Type} (nsteps : Z) (body : A -> A) (a : A) : A :=
  Nat.iter (Z.to_nat nsteps) body a.

Definition simple_update (st : TeNeS) : TeNeS :=
  let nsteps := num_simple_step (peps_parameters st) in
  fst (repeat_steps nsteps
         (fun acc => foldl simple_update_step acc (simple_updates (fst acc)))
         (st, (ptensor_empty, ptensor_empty, []))).

(** The environment refresh that follows a full-update bond step. *)
Definition refresh_after_bond (st : TeNeS) (up : NNOperator) (source target : nat)
    : TeNeS :=
  let P := peps_parameters st in
  if Full_Use_FastFullUpdate P then
    if is_horizontal up then
      let source_x := Z.rem (Z.of_nat source) (LX st) in
      let target_x := Z.rem (Z.of_nat target) (LX st) in
      let st := emit (set_env st (Left_move (env st) (Tn st) source_x P (lattice st)))
                     [EvLeftMove source_x] in
      emit (set_env st (Right_move (env st) (Tn st) target_x P (lattice st)))
           [EvRightMove target_x]
    else
      let source_y := Z.quot (Z.of_nat source) (LX st) in
      let target_y := Z.quot (Z.of_nat target) (LX st) in
      let st := emit (set_env st (Top_move (env st) (Tn st) source_y P (lattice st)))
                     [EvTopMove source_y] in
      emit (set_env st (Bottom_move (env st) (Tn st) target_y P (lattice st)))
           [EvBottomMove target_y]
  else update_CTM st.

(** The body of [for (auto up : full_updates)]; the second component
    carries the locals [Tn1_new], [Tn2_new]. *)
Definition full_update_step (acc : TeNeS * (ptensor * ptensor)) (up : NNOperator)
    : TeNeS * (ptensor * ptensor) :=
  let '(st, locals) := acc in
  let source := nn_source_site up in
  let source_leg := nn_source_leg up in
  let target := neighbor (lattice st) source source_leg in
  let e := env st in
  let P := peps_parameters st in
  let s (v : list ptensor) := v !!! source in
  let t (v : list ptensor) := v !!! target in
  let call corners edges :=
    (Full_update_bond corners edges (s (Tn st)) (t (Tn st)) (nn_op up) source_leg P
                      locals,
     [EvFullBond source source_leg]) in
  let '(locals', evs) :=
    match source_leg with
    | 0%nat => call [s (C4 e); t (C2 e); t (C1 e); s (C3 e)]
                    [s (eTb e); t (eTb e); t (eTl e); t (eTt e); s (eTt e); s (eTr e)]
    | 1%nat => call [s (C4 e); t (C1 e); t (C2 e); s (C3 e)]
                    [s (eTl e); t (eTl e); t (eTt e); t (eTr e); s (eTr e); s (eTb e)]
    | 2%nat => call [s (C1 e); t (C2 e); t (C3 e); s (C4 e)]
                    [s (eTt e); t (eTt e); t (eTr e); t (eTb e); s (eTb e); s (eTl e)]
    | 3%nat => call [s (C2 e); t (C3 e); t (C4 e); s (C1 e)]
                    [s (eTr e); t (eTr e); t (eTb e); t (eTl e); s (eTl e); s (eTt e)]
    | _ => (locals, [])
    end in
  let '(Tn1_new, Tn2_new) := locals' in
  let st := emit st evs in
  let st := set_Tn st (<[source := Tn1_new]> (Tn st)) in
  let st := set_Tn st (<[target := Tn2_new]> (Tn st)) in
  (refresh_after_bond st up source target, locals').

Definition full_update (st : TeNeS) : TeNeS :=
  let st := if 0 <? num_full_step (peps_parameters st) then update_CTM st else st in
  let nsteps := num_full_step (peps_parameters st) in
  fst (repeat_steps nsteps
         (fun acc => foldl full_update_step acc (full_updates (fst acc)))
         (st, (ptensor_empty, ptensor_empty))).

Definition optimize (st : TeNeS) : TeNeS :=
  let st := simple_update st in
  if 0 <? num_full_step (peps_parameters st) then full_update st else st.

(** ** One-site observables *)

Definition siteoperator_index (st : TeNeS) (site grp : nat) : Z :=
  (site_ops_indices st !!! site) !!! grp.

(** [onesite_operators[k].op] *)
Definition onesite_op (st : TeNeS) (k : Z) : ptensor :=
  match onesite_operators st !! Z.to_nat k with
  | Some o => op o
  | None => ptensor_empty
  end.

Definition corners_at (e : Environment) (i : nat) : list ptensor :=
  [C1 e !!! i; C2 e !!! i; C3 e !!! i; C4 e !!! i].

Definition edges_at (e : Environment) (i : nat) : list ptensor :=
  [eTt e !!! i; eTr e !!! i; eTb e !!! i; eTl e !!! i].

Definition contract_site (st : TeNeS) (i : nat) (o : ptensor) : double :=
  Contract_one_site (corners_at (env st) i) (edges_at (env st) i) (Tn st !!! i) o.

Definition measure_onesite (st : TeNeS) : list (list double) :=
  let nlops := num_onesite_operators st in
  let local_obs := replicate nlops (replicate (N_UNIT st) quiet_NaN) in
  let norm := (fun i => contract_site st i (op_identity st !!! i)) <$> seq 0 (N_UNIT st) in
  foldl (fun local_obs o =>
           let i := source_site o in
           let val := contract_site st i (op o) in
           alter (fun row => <[i := div val (norm !!! i)]> row) (group o) local_obs)
        local_obs (onesite_operators st).

(** The inner loop of [save_onesite] for one operator group: the counter
    [num], the accumulator [sum] and the lines written. *)
Definition save_onesite_group (n_unit ilops : nat) (row : list double)
    : nat * double * list text_line :=
  foldl (fun '(num, sum, lines) i =>
           let v := row !!! i in
           if isnan v then (num, sum, lines)
           else (S num, add sum v, lines ++ [LOnesite ilops i v zero]))
        (0%nat, zero, []) (seq 0 n_unit).

Definition save_onesite (st : TeNeS) (fs : filesystem)
    (onesite_obs : list (list double)) : filesystem :=
  if decide (mpirank st = 0%nat) then
    write_file fs (outdir st +:+ "/onesite_obs.dat")
      (FText (concat ((fun ilops =>
                         snd (save_onesite_group (N_UNIT st) ilops (onesite_obs !!! ilops)))
                      <$> seq 0 (num_onesite_operators st))))
  else fs.

(** ** Two-site observables *)

Definition nmax : Z := 4.

Definition at2 {A : Type} `{Inhabited A} (m : list (list A)) (r c : nat) : A :=
  (m !!! r) !!! c.

Definition set2 {A : Type} (m : list (list A)) (r c : nat) (v : A) : list (list A) :=
  alter (fun row => <[c := v]> row) r m.

(** [0, 1, .., n-1] as signed integers. *)
Definition upto (n : Z) : list Z := Z.of_nat <$> seq 0 (Z.to_nat n).

(** The tensors handed to [Contract] for one operator: the pointer
    vectors [C_], [eTt_], [eTr_], [eTb_], [eTl_], [Tn_] and the table
    [indices], over an [nrow] by [ncol] block. *)
Record block := {
  indices : list (list nat);
  C_ : list ptensor;
  eTt_ : list ptensor; eTr_ : list ptensor;
  eTb_ : list ptensor; eTl_ : list ptensor;
  Tn_ : list (list ptensor)
}.

Definition make_block (st : TeNeS) (source : nat) (nrow ncol source_row source_col : Z)
    : block :=
  let L := lattice st in
  let e := env st in
  let indices : list (list nat) :=
    (fun row => (fun col => other L source (col - source_col) (source_row - row))
                  <$> upto ncol) <$> upto nrow in
  let last_row := Z.to_nat (nrow - 1) in
  let last_col := Z.to_nat (ncol - 1) in
  {| indices := indices;
     Tn_ := (fun r : list nat => (fun i : nat => Tn st !!! i) <$> r) <$> indices;
     eTl_ := (fun r : list nat => eTl e !!! (r !!! 0%nat)) <$> indices;
     eTr_ := (fun r : list nat => eTr e !!! (r !!! last_col)) <$> indices;
     eTt_ := (fun i : nat => eTt e !!! i) <$> (indices !!! 0%nat);
     eTb_ := (fun i : nat => eTb e !!! i) <$> (indices !!! last_row);
     C_ := [C1 e !!! at2 indices 0 0; C2 e !!! at2 indices 0 last_col;
            C3 e !!! at2 indices last_row last_col;
            C4 e !!! at2 indices last_row 0] |}.

(** [Contract(C_, eTt_, eTr_, eTb_, eTl_, Tn_, op_)] *)
Definition contract_block (b : block) (op_ : list (list ptensor)) : double :=
  Contract (C_ b) (eTt_ b) (eTr_ b) (eTb_ b) (eTl_ b) (Tn_ b) op_.

(** The branch [nrow * ncol == 2]: the bond is contracted directly. *)
Definition twosite_value_nn (st : TeNeS) (b : block) (o : Operator) (nrow : Z)
    : double :=
  let e := env st in
  let source := source_site o in
  if nrow =? 2 then
    let top := at2 (indices b) 0 0 in
    let bottom := at2 (indices b) 1 0 in
    let o12 := if decide (top = source) then op o
               else transpose (op o) [1; 0; 3; 2]%nat in
    Contract_two_sites_vertical_op12
      [C1 e !!! top; C2 e !!! top; C3 e !!! bottom; C4 e !!! bottom]
      [eTt e !!! top; eTr e !!! top; eTr e !!! bottom;
       eTb e !!! bottom; eTl e !!! bottom; eTl e !!! top]
      (Tn st !!! top) (Tn st !!! bottom) o12
  else
    let left := at2 (indices b) 0 0 in
    let right := at2 (indices b) 0 1 in
    let o12 := if decide (left = source) then op o
               else transpose (op o) [1; 0; 3; 2]%nat in
    Contract_two_sites_horizontal_op12
      [C1 e !!! left; C2 e !!! right; C3 e !!! right; C4 e !!! left]
      [eTt e !!! left; eTt e !!! right; eTr e !!! right;
       eTb e !!! right; eTb e !!! left; eTl e !!! left]
      (Tn st !!! left) (Tn st !!! right) o12.

(** The branch of a dense operator on a larger block: one contraction
    per singular value of the operator. *)
Definition twosite_value_svd (b : block) (o : Operator)
    (op_ : list (list ptensor)) (srow scol trow tcol : nat) : double :=
  let '(U, s, VT) := svd (op o) [0; 2]%nat [1; 3]%nat in
  fst (foldl (fun (acc : double * list (list ptensor)) (js : nat) =>
                let source_op :=
                  reshape (slice U 2 js (js + 1))
                          [shape U !!! 0%nat; shape U !!! 0%nat] in
                let op_ := set2 (snd acc) srow scol source_op in
                let target_op :=
                  reshape (slice VT 0 js (js + 1))
                          [shape VT !!! 1%nat; shape VT !!! 1%nat] in
                let op_ := set2 op_ trow tcol target_op in
                let localvalue := contract_block b op_ in
                (add (fst acc) (mul localvalue (s !!! js)), op_))
             (zero, op_) (seq 0 (length s))).

(** The branch of an operator given as a pair of one-site operators. *)
Definition twosite_value_pair (st : TeNeS) (b : block) (o : Operator)
    (op_ : list (list ptensor)) (dx0 dy0 : Z) (srow scol trow tcol : nat) : double :=
  let source := source_site o in
  let op_ := set2 op_ srow scol
               (onesite_op st (siteoperator_index st source
                                 (ops_indices o !!! 0%nat))) in
  let target_site := other (lattice st) source dx0 dy0 in
  let op_ := set2 op_ trow tcol
               (onesite_op st (siteoperator_index st target_site
                                 (ops_indices o !!! 1%nat))) in
  let localvalue := contract_block b op_ in
  add zero localvalue.

(** The state of the loop of [measure_twosite]: [ret], [norms] and the
    warnings written to [std::cerr]. *)
Definition twosite_acc : Type :=
  list (gmap Bond double) * gmap (nat * Z * Z) double * list event.

(** The body of [for (const auto &op : twosite_operators)].  The block
    sizes are [int]s; the pointer vectors [eTt_], [eTr_], ... are
    constructed with them right after the size test. *)
Definition measure_twosite_step (st : TeNeS) (acc : twosite_acc) (o : Operator)
    : attempt twosite_acc :=
  let ret : list (gmap Bond double) := acc.1.1 in
  let norms : gmap (nat * Z * Z) double := acc.1.2 in
  let warns : list event := acc.2 in
  let source := source_site o in
  let dx0 : Z := dx o !!! 0%nat in
  let dy0 : Z := dy o !!! 0%nat in
  let ncol := Int32.add (Int32.abs dx0) 1 in
  let nrow := Int32.add (Int32.abs dy0) 1 in
  if (nmax <? ncol) || (nmax <? nrow)
  then Passed (ret, norms, warns ++ [EvWarnTooLong (group o) dx0 dy0])
  else if negb (vector_fits ncol && vector_fits nrow)
  then Raised length_error_what acc
  else
    let source_col := if 0 <=? dx0 then 0 else ncol - 1 in
    let target_col := if 0 <=? dx0 then ncol - 1 else 0 in
    let source_row := if 0 <=? dy0 then nrow - 1 else 0 in
    let target_row := if 0 <=? dy0 then 0 else nrow - 1 in
    let b := make_block st source nrow ncol source_row source_col in
    let op_ : list (list ptensor) :=
      (fun r : list nat => (fun i : nat => op_identity st !!! i) <$> r) <$> indices b in
    let norm_key : nat * Z * Z := (at2 (indices b) 0 0, nrow, ncol) in
    let norm0 := default quiet_NaN (norms !! norm_key) in
    let norm := if isnan norm0 then contract_block b op_ else norm0 in
    let norms := if isnan norm0 then <[norm_key := norm]> norms else norms in
    let srow := Z.to_nat source_row in
    let scol := Z.to_nat source_col in
    let trow := Z.to_nat target_row in
    let tcol := Z.to_nat target_col in
    let value :=
      match ops_indices o with
      | [] =>
          if nrow * ncol =? 2 then twosite_value_nn st b o nrow
          else twosite_value_svd b o op_ srow scol trow tcol
      | _ => twosite_value_pair st b o op_ dx0 dy0 srow scol trow tcol
      end in
    Passed
      (alter (fun m : gmap Bond double => <[(source, dx0, dy0) := div value norm]> m)
             (group o) ret,
       norms, warns).

(** The loop ends at the first exception. *)
Definition twosite_next (st : TeNeS) (r : attempt twosite_acc) (o : Operator)
    : attempt twosite_acc :=
  match r with
  | Passed acc => measure_twosite_step st acc o
  | Raised _ _ => r
  end.

Definition measure_twosite_loop (st : TeNeS) (ops : list Operator)
    : attempt twosite_acc :=
  foldl (twosite_next st)
        (Passed (replicate (num_twosite_operators st) ∅, ∅, [])) ops.

(** Returns [ret]; the warnings go to the trace.  After an exception the
    second component is the content of [ret] at the throw. *)
Definition measure_twosite (st : TeNeS) : attempt (TeNeS * list (gmap Bond double)) :=
  match measure_twosite_loop st (twosite_operators st) with
  | Passed acc => Passed (emit st acc.2, acc.1.1)
  | Raised what acc => Raised what (emit st acc.2, acc.1.1)
  end.

(** The entries of a [std::map<Bond, tensor_type>] in iteration order. *)
Definition entry_le (a b : Bond * double) : Prop := Bond_lt b.1 a.1 = false.

#[local] Instance entry_le_dec (a b : Bond * double) : Decision (entry_le a b).
Proof. unfold entry_le. apply _. Defined.

Definition entries (m : gmap Bond double) : list (Bond * double) :=
  merge_sort entry_le (map_to_list m).

Definition save_twosite (st : TeNeS) (fs : filesystem)
    (twosite_obs : list (gmap Bond double)) : filesystem :=
  if decide (mpirank st = 0%nat) then
    write_file fs (outdir st +:+ "/twosite_obs.dat")
      (FText (concat ((fun ilops =>
                         (fun '(bond, value) => LTwosite ilops bond value zero)
                           <$> entries (twosite_obs !!! ilops))
                      <$> seq 0 (num_twosite_operators st))))
  else fs.


(** ** Long-range correlations *)

(** [r_ops[left] = ] the right operators requested for [left], in the
    order of [corparam.operators]. *)
Definition r_ops_of (nlops : nat) (ops : list (nat * nat)) : list (list nat) :=
  foldl (fun (acc : list (list nat)) (p : nat * nat) =>
           alter (fun v => v ++ [p.2]) p.1 acc)
        (replicate nlops []) ops.

(** The loop state: [correlation_T], [correlation_norm] and the
    vector [correlations]. *)
Definition corr_acc : Type := ptensor * ptensor * list Correlation.

(** The inner loop [for (auto right_ilop : r_ops[left_ilop])], common to
    both directions: [close o] is [FinishCorrelation] of the current
    [correlation_T] against the operator [o] at the right site. *)
Definition push_correlations (st : TeNeS) (left_index right_index : nat)
    (offset_x offset_y : Z) (left_ilop : nat) (rops : list nat)
    (close : ptensor -> double) (norm : double)
    (correlations : list Correlation) : list Correlation :=
  foldl (fun (cs : list Correlation) (right_ilop : nat) =>
           let right_op_index := siteoperator_index st right_index right_ilop in
           if right_op_index <? 0 then cs
           else
             let val := div (close (onesite_op st right_op_index)) norm in
             cs ++ [{| left_index := left_index; right_index := right_index;
                       offset_x := offset_x; offset_y := offset_y;
                       left_op := left_ilop; right_op := right_ilop;
                       real := val; imag := zero |}])
        correlations rops.

(** The body of the horizontal loop over [r]. *)
Definition horizontal_step (st : TeNeS) (left_index left_ilop : nat)
    (rops : list nat) (acc : corr_acc) (r : Z) : corr_acc :=
  let correlation_T := acc.1.1 in
  let correlation_norm := acc.1.2 in
  let e := env st in
  let left_x := lat_x (lattice st) left_index in
  let left_y := lat_y (lattice st) left_index in
  let right_x := Z.rem (left_x + r + 1) (LX st) in
  let right_y := left_y in
  let offset_x := Z.quot (left_x + r + 1) (LX st) in
  let offset_y := 0 in
  let right_index := lat_index (lattice st) right_x right_y in
  let at_right (v : list ptensor) := v !!! right_index in
  let close (A o : ptensor) :=
    FinishCorrelation A (at_right (C2 e)) (at_right (C3 e)) (at_right (eTt e))
                      (at_right (eTr e)) (at_right (eTb e)) (at_right (Tn st)) o in
  let norm := close correlation_norm (at_right (op_identity st)) in
  let cs := push_correlations st left_index right_index offset_x offset_y left_ilop
                              rops (close correlation_T) norm acc.2 in
  (Transfer correlation_T (at_right (eTt e)) (at_right (eTb e)) (at_right (Tn st)),
   Transfer correlation_norm (at_right (eTt e)) (at_right (eTb e)) (at_right (Tn st)),
   cs).

(** The body of the vertical loop over [r]. *)
Definition vertical_step (st : TeNeS) (left_index left_ilop : nat)
    (rops : list nat) (acc : corr_acc) (r : Z) : corr_acc :=
  let correlation_T := acc.1.1 in
  let correlation_norm := acc.1.2 in
  let e := env st in
  let left_x := lat_x (lattice st) left_index in
  let left_y := lat_y (lattice st) left_index in
  let right_x := left_x in
  let right_y := Z.rem (left_y + r + 1) (LY st) in
  let offset_x := 0 in
  let offset_y := Z.quot (left_y + r + 1) (LY st) in
  let right_index := lat_index (lattice st) right_x right_y in
  let at_right (v : list ptensor) := v !!! right_index in
  let tn := transpose (at_right (Tn st)) [3; 0; 1; 2; 4]%nat in
  let close (A o : ptensor) :=
    FinishCorrelation A (at_right (C1 e)) (at_right (C2 e)) (at_right (eTl e))
                      (at_right (eTt e)) (at_right (eTr e)) tn o in
  let norm := close correlation_norm (at_right (op_identity st)) in
  let cs := push_correlations st left_index right_index offset_x offset_y left_ilop
                              rops (close correlation_T) norm acc.2 in
  (Transfer correlation_T (at_right (eTl e)) (at_right (eTr e)) tn,
   Transfer correlation_norm (at_right (eTl e)) (at_right (eTr e)) tn,
   cs).

(** The body of [for (left_ilop ...)]: nothing is done for a left
    operator without requested partners or without an operator at the left
    site (both [continue]); otherwise the horizontal block, then the
    vertical block. *)
Definition correlation_left_op (st : TeNeS) (left_index : nat)
    (r_ops : list (list nat)) (acc : corr_acc) (left_ilop : nat) : corr_acc :=
  let rops := r_ops !!! left_ilop in
  match rops with
  | [] => acc
  | _ =>
      let left_op_index := siteoperator_index st left_index left_ilop in
      if left_op_index <? 0 then acc
      else
        let e := env st in
        let at_left (v : list ptensor) := v !!! left_index in
        let left_op := onesite_op st left_op_index in
        let radii := upto (r_max (corparam st)) in
        (* horizontal *)
        let start_h (A o : ptensor) :=
          StartCorrelation A (at_left (C1 e)) (at_left (C4 e)) (at_left (eTt e))
                           (at_left (eTb e)) (at_left (eTl e)) (at_left (Tn st)) o in
        let acc : corr_acc :=
          (start_h acc.1.1 left_op, start_h acc.1.2 (at_left (op_identity st)), acc.2) in
        let acc := foldl (horizontal_step st left_index left_ilop rops) acc radii in
        (* vertical *)
        let tn := transpose (at_left (Tn st)) [3; 0; 1; 2; 4]%nat in
        let start_v (A o : ptensor) :=
          StartCorrelation A (at_left (C4 e)) (at_left (C3 e)) (at_left (eTl e))
                           (at_left (eTr e)) (at_left (eTb e)) tn o in
        let acc : corr_acc :=
          (start_v acc.1.1 left_op, start_v acc.1.2 (at_left (op_identity st)), acc.2) in
        foldl (vertical_step st left_index left_ilop rops) acc radii
  end.

(** The body of [for (left_index ...)]. *)
Definition correlation_left_site (st : TeNeS) (r_ops : list (list nat))
    (correlations : list Correlation) (left_index : nat) : list Correlation :=
  let v0 := vdim_at (lattice st) left_index 0 in
  let fresh := ptensor_of_shape [CHI st; CHI st; v0; v0] in
  (foldl (correlation_left_op st left_index r_ops) (fresh, fresh, correlations)
         (seq 0 (num_onesite_operators st))).2.

Definition measure_correlation (st : TeNeS) : list Correlation :=
  let r_ops := r_ops_of (num_onesite_operators st) (operators (corparam st)) in
  foldl (correlation_left_site st r_ops) [] (seq 0 (N_UNIT st)).

Definition save_correlation (st : TeNeS) (fs : filesystem)
    (correlations : list Correlation) : filesystem :=
  if decide (mpirank st = 0%nat) then
    write_file fs (outdir st +:+ "/correlation.dat")
               (FText (LCorrelation <$> correlations))
  else fs.

(** ** [measure] *)

Definition sum_doubles (l : list double) : double := foldl add zero l.

(** [loc_obs[ilops]]: the sum of [onesite_obs[ilops][i]] over all sites. *)
Definition loc_obs (n_unit : nat) (onesite_obs : list (list double)) (ilops : nat)
    : double :=
  foldl (fun acc i => add acc ((onesite_obs !!! ilops) !!! i)) zero (seq 0 n_unit).

(** The lines of [energy.dat]; the file is empty below print level
    [info]. *)
Definition energy_lines (st : TeNeS) (onesite_obs : list (list double))
    (twosite_obs : list (gmap Bond double)) : list text_line :=
  let energy := foldl (fun acc (obs : Bond * double) => add acc obs.2) zero
                      (entries (twosite_obs !!! 0%nat)) in
  let invV := div one (of_Z (Z.of_nat (N_UNIT st))) in
  if PrintLevel_ge (print_level (peps_parameters st)) PrintLevel_info
  then LEnergy (mul energy invV) ::
       ((fun ilops => LDensity ilops (mul (loc_obs (N_UNIT st) onesite_obs ilops) invV))
          <$> seq 0 (num_onesite_operators st))
  else [].

(** The elapsed times of [time.dat] are wall-clock readings and are not
    part of the state. *)
Definition measure (st : TeNeS) (fs : filesystem) : outcome :=
  let st := update_CTM st in
  let onesite_obs := measure_onesite st in
  let fs := save_onesite st fs onesite_obs in
  match measure_twosite st with
  | Raised what r2 => Thrown what r2.1 fs
  | Passed r2 =>
      let st := r2.1 in
      let twosite_obs := r2.2 in
      let fs := save_twosite st fs twosite_obs in
      let fs := if 0 <? r_max (corparam st)
                then save_correlation st fs (measure_correlation st)
                else fs in
      if decide (mpirank st = 0%nat)
      then Done st (write_file fs (outdir st +:+ "/energy.dat")
                               (FText (energy_lines st onesite_obs twosite_obs)))
      else Done st fs
  end.

(** ** [save_tensors] *)

Definition save_site (dir : string) (st : TeNeS) (fs : filesystem) (i : nat)
    : filesystem :=
  let e := env st in
  foldl (fun (fs : filesystem) (kv : string * list ptensor) =>
           write_file fs (site_file dir kv.1 i) (FDump (tensor_save (kv.2 !!! i))))
        fs
        [("T", Tn st); ("Et", eTt e); ("Er", eTr e); ("Eb", eTb e); ("El", eTl e);
         ("C1", C1 e); ("C2", C2 e); ("C3", C3 e); ("C4", C4 e)].

(** The lines of [lambda_<i>.dat]: [ofs << lambda_tensor[i][j][k]] for
    the four legs in order, on a stream left at its default precision. *)
Definition lambda_lines (st : TeNeS) (i : nat) : list numeral :=
  concat ((fun j =>
             (fun k => put_double default_precision
                                  (((lambda_tensor st !!! i) !!! j) !!! k))
               <$> seq 0 (vdim_at (lattice st) i j))
          <$> seq 0 nleg).

Definition save_tensors (st : TeNeS) (fs : filesystem) : TeNeS * filesystem :=
  let save_dir := tensor_save_dir (peps_parameters st) in
  if decide (save_dir = "") then (st, fs)
  else
    let fs := if decide (mpirank st = 0%nat)
              then (if stat fs save_dir then fs else mkdir fs save_dir)
              else fs in
    let sites := seq 0 (N_UNIT st) in
    let fs := foldl (save_site save_dir st) fs sites in
    let st := emit st (concat ((fun i =>
                (fun kind => EvSaveTensor (site_file save_dir kind i)) <$>
                ["T"; "Et"; "Er"; "Eb"; "El"; "C1"; "C2"; "C3"; "C4"]) <$> sites)) in
    if decide (mpirank st = 0%nat)
    then (emit st ((fun i => EvWriteLambda (lambda_file save_dir i)) <$> sites),
          foldl (fun (fs : filesystem) (i : nat) =>
                   write_file fs (lambda_file save_dir i) (FNumbers (lambda_lines st i)))
                fs sites)
    else (st, fs).

(** ** The constructor and [tenes] *)

Definition set_print_level (P : PEPS_Parameters) (v : PrintLevel) : PEPS_Parameters :=
  {| print_level := v; par_CHI := par_CHI P; seed := seed P;
     par_outdir := par_outdir P; tensor_load_dir := tensor_load_dir P;
     tensor_save_dir := tensor_save_dir P; num_simple_step := num_simple_step P;
     num_full_step := num_full_step P;
     Full_Use_FastFullUpdate := Full_Use_FastFullUpdate P |}.

(** [maxops + 1] for [maxops] the largest group, [-1] without operators. *)
Definition count_groups (ops : list Operator) : nat :=
  Z.to_nat (foldl (fun maxops o => Z.max (Z.of_nat (group o)) maxops) (-1) ops + 1).

(** [site_ops_indices]: [-1] everywhere, then the position of each
    operator at its site and group. *)
Definition make_site_ops_indices (n_unit nlops : nat) (ops : list Operator)
    : list (list Z) :=
  foldl (fun (acc : list (list Z)) (io : nat * Operator) =>
           alter (fun row => <[group io.2 := Z.of_nat io.1]> row) (source_site io.2) acc)
        (replicate n_unit (replicate nlops (-1)))
        (imap pair ops).

Definition set_operator_tables (st : TeNeS) : TeNeS :=
  let n1 := count_groups (onesite_operators st) in
  let n2 := count_groups (twosite_operators st) in
  {| mpisize := mpisize st; mpirank := mpirank st;
     peps_parameters := peps_parameters st; lattice := lattice st;
     simple_updates := simple_updates st; full_updates := full_updates st;
     onesite_operators := onesite_operators st;
     twosite_operators := twosite_operators st;
     site_ops_indices := make_site_ops_indices (N_UNIT st) n1 (onesite_operators st);
     num_onesite_operators := n1;
     num_twosite_operators := n2;
     op_identity := op_identity st; corparam := corparam st;
     Tn := Tn st; env := env st; lambda_tensor := lambda_tensor st;
     CHI := CHI st; LX := LX st; LY := LY st; N_UNIT := N_UNIT st;
     outdir := outdir st; trace := trace st |}.

(** [outdir = peps_parameters.outdir; if (outdir.empty()) outdir += "."] *)
Definition outdir_of (P : PEPS_Parameters) : string :=
  if decide (par_outdir P = "") then "" +:+ "." else par_outdir P.

(** The folder check of the constructor: rank 0 creates the output
    directory when [stat] fails and writes [parameters.dat], whose content
    is produced by the parameter and lattice classes and is not kept. *)
Definition prepare_outdir (rank : nat) (P : PEPS_Parameters) (fs : filesystem)
    : filesystem :=
  if decide (rank = 0%nat)
  then write_file (if stat fs (outdir_of P) then fs else mkdir fs (outdir_of P))
                  (outdir_of P +:+ "/parameters.dat") (FText [])
  else fs.

(** [TeNeS::TeNeS].  The parameters and the lattice are taken after their
    broadcast; processes other than rank 0 lower their print level. *)
Definition TeNeS_new (size rank : nat) (P : PEPS_Parameters) (L : Lattice)
    (simple_updates_ full_updates_ : list NNOperator)
    (onesite_operators_ twosite_operators_ : list Operator)
    (corparam_ : CorrelationParameter) (fs : filesystem) : outcome :=
  let P := if decide (rank = 0%nat) then P else set_print_level P PrintLevel_none in
  let fs := prepare_outdir rank P fs in
  let nothing : list ptensor := [] in
  let st :=
    {| mpisize := size; mpirank := rank;
       peps_parameters := P; lattice := L;
       simple_updates := simple_updates_; full_updates := full_updates_;
       onesite_operators := onesite_operators_;
       twosite_operators := twosite_operators_;
       site_ops_indices := []; num_onesite_operators := 0;
       num_twosite_operators := 0;
       op_identity := []; corparam := corparam_;
       Tn := [];
       env := {| C1 := nothing; C2 := nothing; C3 := nothing; C4 := nothing;
                 eTt := nothing; eTr := nothing; eTb := nothing; eTl := nothing |};
       lambda_tensor := [];
       CHI := par_CHI P; LX := lat_LX L; LY := lat_LY L; N_UNIT := lat_N_UNIT L;
       outdir := outdir_of P; trace := [] |} in
  match initialize_tensors st fs with
  | Thrown msg st fs => Thrown msg st fs
  | Done st fs => Done (set_operator_tables st) fs
  end.

(** [tenes]: construct, optimize, save the tensors, measure. *)
Definition tenes (size rank : nat) (P : PEPS_Parameters) (L : Lattice)
    (simple_updates_ full_updates_ : list NNOperator)
    (onesite_operators_ twosite_operators_ : list Operator)
    (corparam_ : CorrelationParameter) (fs : filesystem) : outcome :=
  match TeNeS_new size rank P L simple_updates_ full_updates_
                  onesite_operators_ twosite_operators_ corparam_ fs with
  | Thrown msg st fs => Thrown msg st fs
  | Done st fs =>
      let st := optimize st in
      let r := save_tensors st fs in
      measure r.1 r.2
  end.

(** ** Runs composed of the methods *)

(** The checkpoint round trip of one process: [save_tensors] on the
    object, then the constructor of a second run whose load directory is
    the save directory of the first. *)
Definition restart_parameters (P : PEPS_Parameters) : PEPS_Parameters :=
  {| print_level := print_level P; par_CHI := par_CHI P; seed := seed P;
     par_outdir := par_outdir P; tensor_load_dir := tensor_save_dir P;
     tensor_save_dir := tensor_save_dir P; num_simple_step := num_simple_step P;
     num_full_step := num_full_step P;
     Full_Use_FastFullUpdate := Full_Use_FastFullUpdate P |}.

Definition save_then_load (st : TeNeS) (fs : filesystem) : outcome :=
  let saved := save_tensors st fs in
  TeNeS_new (mpisize st) (mpirank st) (restart_parameters (peps_parameters st))
            (lattice st) (simple_updates st) (full_updates st)
            (onesite_operators st) (twosite_operators st) (corparam st) saved.2.

(** The files a run leaves and its trace, whether or not it ended with
    an exception. *)
Definition files_of (r : outcome) : filesystem :=
  match r with Done _ fs | Thrown _ _ fs => fs end.


(** The lines of [energy.dat] written by [measure]. *)
Definition energy_file (st : TeNeS) (fs : filesystem) : option file :=
  fs_files (files_of (measure st fs)) !! (outdir st +:+ "/energy.dat").

(** Whether a run ended without an exception. *)
Definition completed (r : outcome) : bool :=
  match r with Done _ _ => true | Thrown _ _ _ => false end.

End Driver.

(** ** A small concrete instance

    A tensor is a list of numbers: its shape when allocated, with a
    number put in front by each routine that rewrites it.  Every
    contraction evaluates to one and a simple-update bond step returns the
    spectrum (1/2, 1/3).  The runs below evaluate the driver on explicit
    inputs. *)

Module Sample.

Definition half : double := div one (of_Z 2).
Definition third : double := div one (of_Z 3).

Inductive level := none | warn | info | debug.

Definition level_rank (l : level) : nat :=
  match l with none => 0 | warn => 1 | info => 2 | debug => 3 end.

Definition lib : TensorLib :=
  {| ptensor := list nat;
     ptensor_empty := [];
     ptensor_of_shape := fun dims => dims;
     set_value := fun t _ _ => t;
     local_indices := fun _ => [];
     shape := fun t => t;
     transpose := fun t _ => t;
     reshape := fun _ dims => dims;
     slice := fun t _ _ _ => t;
     svd := fun t _ _ => (t, [one], t);
     dump := list nat;
     tensor_save := fun t => t;
     tensor_load := fun t d => default t d;
     rng := Z;
     mt19937 := fun s => s;
     dist := fun g => (half, g + 1);
     PrintLevel := level;
     PrintLevel_none := none;
     PrintLevel_info := info;
     PrintLevel_ge := fun a b => (level_rank b <=? level_rank a)%nat |}.

(** The environment after a pass of the CTM routine. *)
Definition refreshed (e : @Environment lib) : @Environment lib :=
  let mark (v : list (list nat)) := (fun t => 9%nat :: t) <$> v in
  @Build_Environment lib (mark (C1 e)) (mark (C2 e)) (mark (C3 e)) (mark (C4 e))
                     (mark (eTt e)) (mark (eTr e)) (mark (eTb e)) (mark (eTl e)).

Definition routines : @Routines lib :=
  {| Calc_CTM_Environment := fun e _ _ _ => refreshed e;
     Left_move := fun e _ _ _ _ => e;
     Right_move := fun e _ _ _ _ => e;
     Top_move := fun e _ _ _ _ => e;
     Bottom_move := fun e _ _ _ _ => e;
     Simple_update_bond :=
       fun t1 t2 _ _ _ _ _ _ => (7%nat :: t1, 8%nat :: t2, [half; third]);
     Full_update_bond := fun _ _ t1 t2 _ _ _ _ => (t1, t2);
     Contract_one_site := fun _ _ _ _ => one;
     Contract_two_sites_vertical_op12 := fun _ _ _ _ _ => one;
     Contract_two_sites_horizontal_op12 := fun _ _ _ _ _ => one;
     Contract := fun _ _ _ _ _ _ _ => one;
     StartCorrelation := fun _ _ _ _ _ _ _ o => o;
     Transfer := fun A _ _ _ => A;
     FinishCorrelation := fun _ _ _ _ _ _ _ _ => one |}.

(** A periodic two-by-one unit cell: sites 0 and 1 side by side, every
    bond of dimension two.  Legs are numbered left, top, right, bottom. *)
Definition chain : Lattice :=
  {| lat_LX := 2; lat_LY := 1; lat_N_UNIT := 2;
     physical_dims := [2; 2]%nat;
     virtual_dims := [[2; 2; 2; 2]; [2; 2; 2; 2]]%nat;
     initial_dirs := [[one; zero]; [zero; one]];
     noises := [zero; zero];
     neighbor := fun s leg => if Nat.even leg then (1 - s)%nat else s;
     other := fun s dx dy => Z.to_nat ((Z.of_nat s + dx) mod 2);
     lat_x := fun s => Z.of_nat s;
     lat_y := fun _ => 0;
     lat_index := fun x _ => Z.to_nat x |}.

(** A single site with bonds of dimension one. *)
Definition point : Lattice :=
  {| lat_LX := 1; lat_LY := 1; lat_N_UNIT := 1;
     physical_dims := [2]%nat;
     virtual_dims := [[1; 1; 1; 1]]%nat;
     initial_dirs := [[one; zero]];
     noises := [zero];
     neighbor := fun s _ => s;
     other := fun s _ _ => s;
     lat_x := fun _ => 0;
     lat_y := fun _ => 0;
     lat_index := fun _ _ => 0%nat |}.

Definition params (load_dir save_dir : string) (nsimple nfull : Z) (fast : bool)
    : @PEPS_Parameters lib :=
  @Build_PEPS_Parameters lib info 1 11 "output" load_dir save_dir nsimple nfull fast.

Definition gate (s leg : nat) : @NNOperator lib :=
  @Build_NNOperator lib s leg [4; 4]%nat (Nat.even leg).

Definition onesite (g s : nat) : @Operator lib :=
  @Build_Operator lib g s [0] [0] [2; 2]%nat [].

Definition twosite (g s : nat) (ddx ddy : Z) : @Operator lib :=
  @Build_Operator lib g s [ddx] [ddy] [2; 2; 2; 2]%nat [].

Definition no_files : @filesystem lib := @Build_filesystem lib ∅ ∅.

Definition no_correlation : CorrelationParameter := {| r_max := 0; operators := [] |}.

(** The object and the files left by the constructor on rank 0 of a
    single process. *)
Definition construct (P : @PEPS_Parameters lib) (L : Lattice)
    (su fu : list (@NNOperator lib)) (o1 o2 : list (@Operator lib))
    (cp : CorrelationParameter) (fs : @filesystem lib)
    : @TeNeS lib * @filesystem lib :=
  match @TeNeS_new lib 1 0 P L su fu o1 o2 cp fs with
  | Done st fs' => (st, fs')
  | Thrown _ st fs' => (st, fs')
  end.

(** Two sites, one gate on the bond to the right of site 0. *)
Definition chain_run (P : @PEPS_Parameters lib) : @TeNeS lib * @filesystem lib :=
  construct P chain [gate 0 2] [gate 0 2] [] [] no_correlation no_files.

(** No update step at all. *)
Definition idle : @TeNeS lib := (chain_run (params "" "" 0 0 false)).1.

(** One full-update step, with and without the fast refresh. *)
Definition full_fast : @TeNeS lib := (chain_run (params "" "" 0 1 true)).1.

(** A checkpoint written after one simple-update step and one
    full-update step, and the object of a second run that loads it. *)
Definition first_run : @TeNeS lib * @filesystem lib :=
  chain_run (params "" "ckpt" 1 1 false).

Definition updated : @TeNeS lib := @optimize lib routines first_run.1.

Definition saved : @TeNeS lib * @filesystem lib :=
  @save_tensors lib updated first_run.2.

Definition second_run : @TeNeS lib * @filesystem lib :=
  match @save_then_load lib updated first_run.2 with
  | Done st fs' => (st, fs')
  | Thrown _ st fs' => (st, fs')
  end.

(** The parameters of the second run. *)
Definition reload_params : @PEPS_Parameters lib := params "ckpt" "ckpt" 1 1 false.

(** The value read back from the numeral 0.333333. *)
Definition third_read : double := div (of_Z 333333) (of_Z 1000000).

(** Operator group 0 is assigned at site 0 only; a bond observable on the
    bond to the right of site 0. *)
Definition partial_obs : @TeNeS lib * @filesystem lib :=
  construct (params "" "" 0 0 false) chain [] [] [onesite 0 0] [twosite 0 0 1 0]
            no_correlation no_files.

(** Three two-site requests, the second on a block of five columns. *)
Definition long_request : @TeNeS lib :=
  (construct (params "" "" 0 0 false) chain [] []
             [] [twosite 0 0 1 0; twosite 0 0 4 0; twosite 0 1 1 0]
             no_correlation no_files).1.

(** Group 0 is assigned at both sites, group 1 at site 0 only; the
    correlation of left operator 1 with right operator 0 is requested up to
    radius 1. *)
Definition corr_run : @TeNeS lib :=
  (construct (params "" "" 0 0 false) chain [] []
             [onesite 0 0; onesite 0 1; onesite 1 0] []
             {| r_max := 1; operators := [(1, 0)]%nat |} no_files).1.

(** Three two-site requests, the second with [dx = INT_MAX]: a block of
    [2^31] columns. *)
Definition overflow_request : @TeNeS lib * @filesystem lib :=
  construct (params "" "" 0 0 false) chain [] []
            [] [twosite 0 0 1 0; twosite 0 0 2147483647 0; twosite 0 1 1 0]
            no_correlation no_files.

(** The parameters of a process of rank 1 of the second run (its print
    level is lowered by the constructor), and the object of that process
    constructed on the files of the checkpoint. *)
Definition peer_params : @PEPS_Parameters lib :=
  @Build_PEPS_Parameters lib none 1 11 "output" "ckpt" "ckpt" 1 1 false.

Definition peer : @TeNeS lib * @filesystem lib :=
  match @TeNeS_new lib 2 1 peer_params chain [gate 0 2] [gate 0 2] [] []
                   no_correlation saved.2 with
  | Done st fs' => (st, fs')
  | Thrown _ st fs' => (st, fs')
  end.

(** The numerals of the checkpoint: 0.5 and 0.333333 on the bond between
    leg 2 of site 0 and leg 0 of site 1, 1 twice on every other leg. *)
Definition ckpt_tokens (i j : nat) : list numeral :=
  if decide ((i = 0 /\ j = 2) \/ (i = 1 /\ j = 0))%nat
  then [NumDec false 500000 (-6); NumDec false 333333 (-6)]
  else [NumDec false 100000 (-5); NumDec false 100000 (-5)].

End Sample.
(** * Specification vocabulary *)

Section Vocabulary.

Context {TL : TensorLib} {RT : @Routines TL}.

Implicit Types (st : TeNeS) (up : NNOperator) (o : Operator) (fs : filesystem).

(** The trace of [st'] continues the trace of [st]. *)
Definition extends st st' : Prop := exists evs, trace st' = trace st ++ evs.

(** Events a full-update bond step records for the bond routine: none
    when the leg is outside 0..3 (the [default] of the [switch]). *)
Definition bond_events (source leg : nat) : list event :=
  if (leg <? 4)%nat then [EvFullBond source leg] else [].

(** Events of the refresh that follows the bond step. *)
Definition refresh_events (P : PEPS_Parameters) (lx : Z) up (source target : nat)
    : list event :=
  if Full_Use_FastFullUpdate P then
    if is_horizontal up
    then [EvLeftMove (Z.rem (Z.of_nat source) lx); EvRightMove (Z.rem (Z.of_nat target) lx)]
    else [EvTopMove (Z.quot (Z.of_nat source) lx); EvBottomMove (Z.quot (Z.of_nat target) lx)]
  else [EvCalcCTM].

(** The row or column a partial move works on. *)
Definition move_line (ev : event) : option Z :=
  match ev with
  | EvLeftMove i | EvRightMove i | EvTopMove i | EvBottomMove i => Some i
  | _ => None
  end.

(** All the events are partial moves on one and the same line. *)
Definition single_line (evs : list event) : Prop :=
  exists c, forall ev, ev ∈ evs -> move_line ev = Some c.

(** The leg of the neighbouring site that carries the same bond. *)
Definition opposite (leg : nat) : nat := ((leg + 2) mod 4)%nat.

(** [lambda_tensor[s][l]] *)
Definition lambda_at (lam : list (list (list double))) (s l : nat)
    : option (list double) :=
  lam !! s ≫= (fun v => v !! l).

(** Both stored copies of every bond spectrum exist and agree. *)
Definition lambda_consistent (nb : nat -> nat -> nat) (n : nat)
    (lam : list (list (list double))) : Prop :=
  forall s l, (s < n)%nat -> (l < nleg)%nat ->
    exists v, lambda_at lam s l = Some v /\
              lambda_at lam (nb s l) (opposite l) = Some v.

(** The properties of the periodic neighbour table of the unit cell: a
    neighbour is a site, going back along the opposite leg returns to the
    start, and the two ends of a bond have the same dimension. *)
Definition lattice_ok (L : Lattice) : bool :=
  forallb (fun s =>
     forallb (fun l =>
        (neighbor L s l <? lat_N_UNIT L)%nat &&
        (neighbor L (neighbor L s l) (opposite l) =? s)%nat &&
        (vdim_at L s l =? vdim_at L (neighbor L s l) (opposite l))%nat)
       (seq 0 nleg))
    (seq 0 (lat_N_UNIT L)).

(** Every gate sits on a leg of a site of the unit cell. *)
Definition gates_ok (n : nat) (ups : list NNOperator) : bool :=
  forallb (fun up => (nn_source_site up <? n)%nat && (nn_source_leg up <? nleg)%nat) ups.

(** What the random filling of one site tensor leaves untouched. *)
Definition same_bonds st st' : Prop :=
  lambda_tensor st' = lambda_tensor st /\
  neighbor (lattice st') = neighbor (lattice st) /\
  N_UNIT st' = N_UNIT st /\
  lat_N_UNIT (lattice st') = lat_N_UNIT (lattice st) /\
  trace st' = trace st.

(** The key under which [measure_twosite] files the value of an
    operator. *)
Definition bond_of o : Bond := (source_site o, dx o !!! 0%nat, dy o !!! 0%nat).

(** The bounding block of the bond has more than [nmax] columns or more
    than [nmax] rows. *)
Definition bond_too_long (b : Bond) : Prop :=
  nmax < Z.abs b.1.2 + 1 \/ nmax < Z.abs b.2 + 1.

Definition too_long o : Prop := bond_too_long (bond_of o).

(** The block sizes [|dx| + 1] and [|dy| + 1] of the bond are values of
    [int]: computing them does not wrap around. *)
Definition bond_representable (b : Bond) : Prop :=
  Z.abs b.1.2 < Int32.INT_MAX /\ Z.abs b.2 < Int32.INT_MAX.

Definition representable o : Prop := bond_representable (bond_of o).

(** No result map holds a value for a bond with too large a block whose
    sizes are values of [int]. *)
Definition keys_supported (ret : list (gmap Bond double)) : Prop :=
  forall g (m : gmap Bond double) b,
    ret !! g = Some m -> is_Some (m !! b) -> bond_representable b ->
    ~ bond_too_long b.

(** The state a piece of code leaves, and the exception it ended with. *)
Definition left_by {A : Type} (r : attempt A) : A :=
  match r with Passed a | Raised _ a => a end.

Definition raised {A : Type} (r : attempt A) : option string :=
  match r with Passed _ => None | Raised what _ => Some what end.

(** The warnings [w] written before the piece of code started. *)
Definition after_warnings (w : list event) (r : attempt twosite_acc)
    : attempt twosite_acc :=
  match r with
  | Passed a => Passed (a.1, w ++ a.2)
  | Raised what a => Raised what (a.1, w ++ a.2)
  end.

(** The corners and the edges a full-update bond step on leg [leg] hands
    to [Full_update_bond], taken from the environment [e] at the source
    site [s] and the target site [t] (the four cases of the [switch]). *)
Definition bond_corners (e : Environment) (leg s t : nat) : list ptensor :=
  match leg with
  | 0%nat => [C4 e !!! s; C2 e !!! t; C1 e !!! t; C3 e !!! s]
  | 1%nat => [C4 e !!! s; C1 e !!! t; C2 e !!! t; C3 e !!! s]
  | 2%nat => [C1 e !!! s; C2 e !!! t; C3 e !!! t; C4 e !!! s]
  | _ => [C2 e !!! s; C3 e !!! t; C4 e !!! t; C1 e !!! s]
  end.

Definition bond_edges (e : Environment) (leg s t : nat) : list ptensor :=
  match leg with
  | 0%nat => [eTb e !!! s; eTb e !!! t; eTl e !!! t; eTt e !!! t; eTt e !!! s; eTr e !!! s]
  | 1%nat => [eTl e !!! s; eTl e !!! t; eTt e !!! t; eTr e !!! t; eTr e !!! s; eTb e !!! s]
  | 2%nat => [eTt e !!! s; eTt e !!! t; eTr e !!! t; eTb e !!! t; eTb e !!! s; eTl e !!! s]
  | _ => [eTr e !!! s; eTr e !!! t; eTb e !!! t; eTl e !!! t; eTl e !!! s; eTt e !!! s]
  end.

(** One pass of [full_update] over its gates. *)
Definition full_update_round (acc : TeNeS * (ptensor * ptensor))
    : TeNeS * (ptensor * ptensor) :=
  foldl full_update_step acc (full_updates acc.1).

(** The pieces of the horizontal and of the vertical correlation of
    [measure_correlation], named: the right site at radius [r], the seeded
    boundary, one transfer step, the closing contraction, and the boundary
    after [k] transfer steps. *)
Definition h_site st (li : nat) (r : Z) : nat :=
  lat_index (lattice st) (Z.rem (lat_x (lattice st) li + r + 1) (LX st))
            (lat_y (lattice st) li).

Definition v_site st (li : nat) (r : Z) : nat :=
  lat_index (lattice st) (lat_x (lattice st) li)
            (Z.rem (lat_y (lattice st) li + r + 1) (LY st)).

Definition h_start st (li : nat) (A o : ptensor) : ptensor :=
  let e := env st in
  StartCorrelation A (C1 e !!! li) (C4 e !!! li) (eTt e !!! li) (eTb e !!! li)
                   (eTl e !!! li) (Tn st !!! li) o.

Definition v_start st (li : nat) (A o : ptensor) : ptensor :=
  let e := env st in
  StartCorrelation A (C4 e !!! li) (C3 e !!! li) (eTl e !!! li) (eTr e !!! li)
                   (eTb e !!! li) (transpose (Tn st !!! li) [3; 0; 1; 2; 4]%nat) o.

Definition h_transfer st (ri : nat) (A : ptensor) : ptensor :=
  let e := env st in
  Transfer A (eTt e !!! ri) (eTb e !!! ri) (Tn st !!! ri).

Definition v_transfer st (ri : nat) (A : ptensor) : ptensor :=
  let e := env st in
  Transfer A (eTl e !!! ri) (eTr e !!! ri)
           (transpose (Tn st !!! ri) [3; 0; 1; 2; 4]%nat).

Definition h_close st (ri : nat) (A o : ptensor) : double :=
  let e := env st in
  FinishCorrelation A (C2 e !!! ri) (C3 e !!! ri) (eTt e !!! ri) (eTr e !!! ri)
                    (eTb e !!! ri) (Tn st !!! ri) o.

Definition v_close st (ri : nat) (A o : ptensor) : double :=
  let e := env st in
  FinishCorrelation A (C1 e !!! ri) (C2 e !!! ri) (eTl e !!! ri) (eTt e !!! ri)
                    (eTr e !!! ri) (transpose (Tn st !!! ri) [3; 0; 1; 2; 4]%nat) o.

Fixpoint h_boundary st (li : nat) (A : ptensor) (k : nat) : ptensor :=
  match k with
  | O => A
  | S k' => h_transfer st (h_site st li (Z.of_nat k')) (h_boundary st li A k')
  end.

Fixpoint v_boundary st (li : nat) (A : ptensor) (k : nat) : ptensor :=
  match k with
  | O => A
  | S k' => v_transfer st (v_site st li (Z.of_nat k')) (v_boundary st li A k')
  end.

(** The left operator [lo] is requested with the right operator [ro]. *)
Definition requested st (lo ro : nat) : Prop :=
  (lo, ro) ∈ operators (corparam st) /\ (lo < num_onesite_operators st)%nat.

(** An operator of group [g] is assigned at site [i]. *)
Definition assigned st (i g : nat) : Prop := 0 <= siteoperator_index st i g.

(** The horizontal entry the specification describes for left site [li],
    operators [lo], [ro] and radius [r], for some earlier content [T0],
    [N0] of the two boundary buffers. *)
Definition horizontal_entry st (li lo ro : nat) (r : Z) (c : Correlation) : Prop :=
  let L := lattice st in
  let hx := lat_x L li + r + 1 in
  let ri := lat_index L (hx mod LX st) (lat_y L li) in
  left_index c = li /\ left_op c = lo /\ right_op c = ro /\
  right_index c = ri /\ offset_x c = hx / LX st /\ offset_y c = 0 /\
  imag c = zero /\
  exists T0 N0,
    real c =
    div (h_close st ri
           (h_boundary st li
              (h_start st li T0 (onesite_op st (siteoperator_index st li lo)))
              (Z.to_nat r))
           (onesite_op st (siteoperator_index st ri ro)))
        (h_close st ri
           (h_boundary st li (h_start st li N0 (op_identity st !!! li)) (Z.to_nat r))
           (op_identity st !!! ri)).

Definition vertical_entry st (li lo ro : nat) (r : Z) (c : Correlation) : Prop :=
  let L := lattice st in
  let vy := lat_y L li + r + 1 in
  let ri := lat_index L (lat_x L li) (vy mod LY st) in
  left_index c = li /\ left_op c = lo /\ right_op c = ro /\
  right_index c = ri /\ offset_x c = 0 /\ offset_y c = vy / LY st /\
  imag c = zero /\
  exists T0 N0,
    real c =
    div (v_close st ri
           (v_boundary st li
              (v_start st li T0 (onesite_op st (siteoperator_index st li lo)))
              (Z.to_nat r))
           (onesite_op st (siteoperator_index st ri ro)))
        (v_close st ri
           (v_boundary st li (v_start st li N0 (op_identity st !!! li)) (Z.to_nat r))
           (op_identity st !!! ri)).

(** The records pushed by the horizontal and by the vertical loop at
    radius [r], for boundary buffers seeded with [T] and [N]. *)
Definition h_record st (li lo ro : nat) (r : Z) (T N : ptensor) : Correlation :=
  {| left_index := li; right_index := h_site st li r;
     offset_x := Z.quot (lat_x (lattice st) li + r + 1) (LX st); offset_y := 0;
     left_op := lo; right_op := ro;
     real := div (h_close st (h_site st li r) (h_boundary st li T (Z.to_nat r))
                    (onesite_op st (siteoperator_index st (h_site st li r) ro)))
                 (h_close st (h_site st li r) (h_boundary st li N (Z.to_nat r))
                    (op_identity st !!! h_site st li r));
     imag := zero |}.

Definition v_record st (li lo ro : nat) (r : Z) (T N : ptensor) : Correlation :=
  {| left_index := li; right_index := v_site st li r;
     offset_x := 0; offset_y := Z.quot (lat_y (lattice st) li + r + 1) (LY st);
     left_op := lo; right_op := ro;
     real := div (v_close st (v_site st li r) (v_boundary st li T (Z.to_nat r))
                    (onesite_op st (siteoperator_index st (v_site st li r) ro)))
                 (v_close st (v_site st li r) (v_boundary st li N (Z.to_nat r))
                    (op_identity st !!! v_site st li r));
     imag := zero |}.

(** The [load] calls of the checkpoint branch for the given sites, and
    the reads of the spectrum files by rank 0. *)
Definition load_events (dir : string) (sites : list nat) : list event :=
  concat ((fun i => (fun kind => EvLoadTensor (site_file dir kind i)) <$>
                    ["T"; "Et"; "Er"; "Eb"; "El"; "C1"; "C2"; "C3"; "C4"]) <$> sites).

Definition read_events (dir : string) (n : nat) : list event :=
  (fun i => EvReadLambda (lambda_file dir i)) <$> seq 0 n.

(** Both operators of a record are assigned at their sites. *)
Definition both_assigned st (c : Correlation) : Prop :=
  assigned st (left_index c) (left_op c) /\ assigned st (right_index c) (right_op c).



(** What [operator>>] stores for a numeral it can convert. *)
Definition convertible (t : numeral) : Prop := is_Some (get_double t).

Definition stored_value (t : numeral) : double := default zero (get_double t).

(** The spectrum files of the directory [dir]: for every site [i] the
    file [lambda_<i>.dat] holds, leg after leg, the numerals [toks i j], as
    many as leg [j] of the site has dimensions, all of them convertible
    (anything may follow them). *)
Definition spectra_stored (L : Lattice) (n : nat) fs (dir : string)
    (toks : nat -> nat -> list numeral) : Prop :=
  forall i, (i < n)%nat ->
    (exists more, find_numbers fs (lambda_file dir i)
                  = Some (concat (toks i <$> seq 0 nleg) ++ more)) /\
    forall j, (j < nleg)%nat ->
      length (toks i j) = vdim_at L i j /\ Forall convertible (toks i j).

(** The spectra the numerals [toks] stand for. *)
Definition stored_spectra (n : nat) (toks : nat -> nat -> list numeral)
    : list (list (list double)) :=
  (fun i => (fun j => stored_value <$> toks i j) <$> seq 0 nleg) <$> seq 0 n.

(** Spectra laid out as in the buffer [ls]: site after site, leg after
    leg. *)
Definition in_buffer_order (lam : list (list (list double))) : list double :=
  concat ((fun row => concat row) <$> lam).


End Vocabulary.



(** * Vocabulary of the further properties *)

Section MoreVocabulary.

Context {TL : TensorLib} {RT : @Routines TL}.

Implicit Types (st : TeNeS) (up : NNOperator) (o : Operator) (fs : filesystem).


(** The configuration of the object: all the fields that neither the
    initialization nor the update and measurement methods write. *)
Definition same_setup st st' : Prop :=
  mpisize st' = mpisize st /\ mpirank st' = mpirank st /\
  peps_parameters st' = peps_parameters st /\
  simple_updates st' = simple_updates st /\ full_updates st' = full_updates st /\
  onesite_operators st' = onesite_operators st /\
  twosite_operators st' = twosite_operators st /\
  site_ops_indices st' = site_ops_indices st /\
  num_onesite_operators st' = num_onesite_operators st /\
  num_twosite_operators st' = num_twosite_operators st /\
  corparam st' = corparam st /\
  CHI st' = CHI st /\ LX st' = LX st /\ LY st' = LY st /\ N_UNIT st' = N_UNIT st /\
  outdir st' = outdir st.

(** The operator [o] belongs to group [g] and sits at site [s]. *)
Definition placed_at o (s g : nat) : Prop := source_site o = s /\ group o = g.

(** [tbl[s][g]], when both indices are in range. *)
Definition cell {A : Type} (tbl : list (list A)) (s g : nat) : option A :=
  tbl !! s ≫= (fun row => row !! g).

(** The sites at which a row of one-site results is defined. *)
Definition defined_sites (n_unit : nat) (row : list double) : list nat :=
  filter (fun i => isnan (row !!! i) = false) (seq 0 n_unit).

(** The object as the constructor has it when it calls
    [initialize_tensors]. *)
Definition fresh_object (size rank : nat) (P : PEPS_Parameters) (L : Lattice)
    (su fu : list NNOperator) (ops1 ops2 : list Operator)
    (cp : CorrelationParameter) : TeNeS :=
  let nothing : list ptensor := [] in
  {| mpisize := size; mpirank := rank;
     peps_parameters := P; lattice := L;
     simple_updates := su; full_updates := fu;
     onesite_operators := ops1;
     twosite_operators := ops2;
     site_ops_indices := []; num_onesite_operators := 0;
     num_twosite_operators := 0;
     op_identity := []; corparam := cp;
     Tn := [];
     env := {| C1 := nothing; C2 := nothing; C3 := nothing; C4 := nothing;
               eTt := nothing; eTr := nothing; eTb := nothing; eTl := nothing |};
     lambda_tensor := [];
     CHI := par_CHI P; LX := lat_LX L; LY := lat_LY L; N_UNIT := lat_N_UNIT L;
     outdir := outdir_of P; trace := [] |}.

(** The parameters a process of the given rank works with. *)
Definition rank_parameters (rank : nat) (P : PEPS_Parameters) : PEPS_Parameters :=
  if decide (rank = 0%nat) then P else set_print_level P PrintLevel_none.














(** The record [c] joins the left site [li] and operator [lo] with the
    site reached after [r + 1] steps to the right or upwards, and with
    the operator [ro]. *)
Definition along_an_axis st (c : Correlation) (r : Z) : Prop :=
  let L := lattice st in
  let li := left_index c in
  (right_index c = h_site st li r /\
   offset_x c = Z.quot (lat_x L li + r + 1) (LX st) /\ offset_y c = 0) \/
  (right_index c = v_site st li r /\
   offset_x c = 0 /\ offset_y c = Z.quot (lat_y L li + r + 1) (LY st)).

(** What every record of [measure_correlation] has to satisfy. *)
Definition asked_for st (c : Correlation) : Prop :=
  (left_index c < N_UNIT st)%nat /\
  requested st (left_op c) (right_op c) /\
  imag c = zero /\
  exists r, 0 <= r < r_max (corparam st) /\ along_an_axis st c r.

(** The nine tensors kept per site, the names their files carry and the
    vectors that hold them. *)
Inductive tensor_kind :=
| T_site | E_top | E_right | E_bottom | E_left | C_1 | C_2 | C_3 | C_4.

Definition all_kinds : list tensor_kind :=
  [T_site; E_top; E_right; E_bottom; E_left; C_1; C_2; C_3; C_4].

Definition kind_name (k : tensor_kind) : string :=
  match k with
  | T_site => "T" | E_top => "Et" | E_right => "Er" | E_bottom => "Eb"
  | E_left => "El" | C_1 => "C1" | C_2 => "C2" | C_3 => "C3" | C_4 => "C4"
  end.

Definition tensors_of st (k : tensor_kind) : list ptensor :=
  match k with
  | T_site => Tn st
  | E_top => eTt (env st) | E_right => eTr (env st)
  | E_bottom => eTb (env st) | E_left => eTl (env st)
  | C_1 => C1 (env st) | C_2 => C2 (env st) | C_3 => C3 (env st) | C_4 => C4 (env st)
  end.

(** The tensor files [save_tensors] writes for site [i], in order. *)
Definition site_writes (dir : string) st (i : nat) : list (string * file) :=
  (fun k => (site_file dir (kind_name k) i, FDump (tensor_save (tensors_of st k !!! i))))
    <$> all_kinds.

(** A sequence of writes. *)
Definition write_all fs (ws : list (string * file)) : filesystem :=
  foldl (fun (fs : filesystem) (w : string * file) => write_file fs w.1 w.2) fs ws.

End MoreVocabulary.

(** * Properties *)

Section Properties.

Context {TL : TensorLib} {RT : @Routines TL}.

Implicit Types (st : TeNeS) (up : NNOperator) (o : Operator) (fs : filesystem).

(** ** The trace only grows *)

Lemma extends_refl st : extends st st.
Proof. exists []. by rewrite app_nil_r. Qed.

Lemma extends_trans st1 st2 st3 : extends st1 st2 -> extends st2 st3 -> extends st1 st3.
Proof.
  intros [e1 H1] [e2 H2]. exists (e1 ++ e2). by rewrite H2, H1, app_assoc.
Qed.

Lemma extends_emit st evs : extends st (emit st evs).
Proof. by exists evs. Qed.

Lemma foldl_extends {A B : Type} (f : TeNeS * A -> B -> TeNeS * A) (l : list B) :
  (forall acc b, extends acc.1 (f acc b).1) ->
  forall acc, extends acc.1 (foldl f acc l).1.
Proof.
  intros Hf. induction l as [|b l IH]; intros acc; simpl.
  - apply extends_refl.
  - eapply extends_trans; [apply Hf | apply IH].
Qed.

Lemma repeat_steps_extends {A : Type} (n : Z) (body : TeNeS * A -> TeNeS * A) :
  (forall acc, extends acc.1 (body acc).1) ->
  forall acc, extends acc.1 (repeat_steps n body acc).1.
Proof.
  intros Hb acc. unfold repeat_steps.
  induction (Z.to_nat n) as [|k IH]; simpl.
  - apply extends_refl.
  - eapply extends_trans; [apply IH | apply Hb].
Qed.

(** ** Zero simple-update steps *)

(** C6: with [num_simple_step = 0] the loop body of [simple_update] never
    runs: the object is returned as it was, so every site tensor and every
    spectrum is the one on entry and no bond routine was called. *)
Theorem simple_update_zero_steps st :
  num_simple_step (peps_parameters st) = 0 ->
  simple_update st = st /\
  (forall i, Tn (simple_update st) !! i = Tn st !! i) /\
  (forall i j, (lambda_tensor (simple_update st) !! i) ≫= (fun v => v !! j)
               = (lambda_tensor st !! i) ≫= (fun v => v !! j)) /\
  trace (simple_update st) = trace st.
Proof.
  intros Hn.
  assert (Hid : simple_update st = st).
  { unfold simple_update, repeat_steps. rewrite Hn. reflexivity. }
  rewrite Hid. auto.
Qed.

(** ** The environment is computed before the first full-update step *)

Lemma refresh_after_bond_trace st up source target :
  trace (refresh_after_bond st up source target)
  = trace st ++ refresh_events (peps_parameters st) (LX st) up source target.
Proof.
  unfold refresh_after_bond, refresh_events, update_CTM.
  destruct (Full_Use_FastFullUpdate _); [destruct (is_horizontal up)|]; simpl;
    rewrite <- ?app_assoc; reflexivity.
Qed.

Lemma refresh_after_bond_frame st up source target :
  let st' := refresh_after_bond st up source target in
  peps_parameters st' = peps_parameters st /\ lattice st' = lattice st /\
  LX st' = LX st /\ Tn st' = Tn st /\ full_updates st' = full_updates st /\
  lambda_tensor st' = lambda_tensor st.
Proof.
  unfold refresh_after_bond, update_CTM.
  destruct (Full_Use_FastFullUpdate _); [destruct (is_horizontal up)|]; simpl;
    repeat split; reflexivity.
Qed.

Lemma full_update_step_trace st locals up :
  trace (full_update_step (st, locals) up).1
  = trace st ++ bond_events (nn_source_site up) (nn_source_leg up)
             ++ refresh_events (peps_parameters st) (LX st) up (nn_source_site up)
                  (neighbor (lattice st) (nn_source_site up) (nn_source_leg up)).
Proof.
  unfold full_update_step, bond_events.
  destruct (nn_source_leg up) as [|[|[|[|k]]]]; simpl;
    match goal with
    | |- context [Full_update_bond ?a ?b ?c ?d ?e ?f ?g ?h] =>
        destruct (Full_update_bond a b c d e f g h) as [t1 t2]
    | _ => destruct locals as [t1 t2]
    end; simpl; rewrite refresh_after_bond_trace; simpl;
    rewrite <- ?app_assoc, ?app_nil_r; reflexivity.
Qed.


Lemma full_update_step_extends (acc : TeNeS * (ptensor * ptensor)) up :
  extends acc.1 (full_update_step acc up).1.
Proof.
  destruct acc as [st locals]. eexists. apply full_update_step_trace.
Qed.

(** C7: when [num_full_step > 0], [full_update] first runs [update_CTM]
    on the object it received: one call of [Calc_CTM_Environment] on the
    environment and the site tensors on entry, which leaves the site
    tensors alone.  All the rounds of bond steps run on the result of that
    pass.  In particular the first bond step starts from it: its
    [Full_update_bond] receives the corners and edges of the computed
    environment, and the rest of the run continues from the state that
    step leaves.  In the record of calls the pass comes first, before every
    [Full_update_bond]. *)
Theorem full_update_environment_first st :
  0 < num_full_step (peps_parameters st) ->
  let P := peps_parameters st in
  let L := lattice st in
  let E := Calc_CTM_Environment (env st) (Tn st) P L in
  let computed := update_CTM st in
  let none := (ptensor_empty, ptensor_empty) in
  env computed = E /\ Tn computed = Tn st /\
  trace computed = trace st ++ [EvCalcCTM] /\
  full_update st
  = (repeat_steps (num_full_step P) full_update_round (computed, none)).1 /\
  (forall up ups,
     full_updates st = up :: ups ->
     let source := nn_source_site up in
     let leg := nn_source_leg up in
     let target := neighbor L source leg in
     let first := full_update_step (computed, none) up in
     ((leg < 4)%nat ->
      first.2 = Full_update_bond (bond_corners E leg source target)
                                 (bond_edges E leg source target)
                                 (Tn st !!! source) (Tn st !!! target)
                                 (nn_op up) leg P none) /\
     full_update st
     = (Nat.iter (Z.to_nat (num_full_step P) - 1) full_update_round
                 (foldl full_update_step first ups)).1) /\
  exists rest,
    trace (full_update st) = trace st ++ EvCalcCTM :: rest /\
    forall pre source leg post,
      trace (full_update st) = trace st ++ pre ++ EvFullBond source leg :: post ->
      EvCalcCTM ∈ pre.
Proof.
  intros Hpos P L E computed none.
  assert (Hrun : full_update st
                 = (repeat_steps (num_full_step P) full_update_round (computed, none)).1).
  { unfold full_update. replace (0 <? _) with true by (symmetry; lia). reflexivity. }
  split; [reflexivity|]. split; [reflexivity|]. split; [reflexivity|].
  split; [exact Hrun|]. split.
  - intros up ups Hgates source leg target first. split.
    + intros Hleg. subst first. unfold full_update_step. fold source leg target.
      destruct leg as [|[|[|[|k]]]] eqn:Eleg; [| | | |lia]; simpl;
        match goal with
        | |- context [Full_update_bond ?a ?b ?c ?d ?e ?f ?g ?h] =>
            destruct (Full_update_bond a b c d e f g h) as [t1 t2] eqn:Ecall
        end; simpl; rewrite <- Ecall; reflexivity.
    + rewrite Hrun. unfold repeat_steps.
      assert (HposP : 0 < num_full_step P) by exact Hpos.
      destruct (Z.to_nat (num_full_step P)) as [|k] eqn:Ek; [lia|].
      replace (S k - 1)%nat with k by lia.
      rewrite Nat.iter_succ_r. do 2 f_equal.
      unfold full_update_round at 1. cbn [fst].
      change (full_updates computed) with (full_updates st). by rewrite Hgates.
  - assert (Hext : extends computed (full_update st)).
    { rewrite Hrun.
      apply (repeat_steps_extends _ _
               (fun acc => foldl_extends _ _ full_update_step_extends acc)
               (computed, none)). }
    destruct Hext as [rest Hrest]. exists rest.
    assert (Htrace : trace (full_update st) = trace st ++ EvCalcCTM :: rest).
    { rewrite Hrest. simpl. by rewrite <- app_assoc. }
    split; [exact Htrace|].
    intros pre source leg post Heq. rewrite Htrace in Heq.
    apply app_inv_head in Heq.
    destruct pre as [|ev pre]; simpl in Heq; [discriminate|].
    injection Heq as <- _. apply elem_of_cons. by left.
Qed.

(** ** The refresh after a full-update bond step *)

(** C9 (as the code has it): a full-update bond step writes the two new
    site tensors and then refreshes the environment.  With the
    fast-update flag this is a left move on the column of the source site
    followed by a right move on the column of the target site
    (horizontal bond), or a top move on the row of the source site
    followed by a bottom move on the row of the target site (vertical
    bond), and no full pass; without the flag it is one full pass of
    [Calc_CTM_Environment]. *)
Theorem full_update_step_refresh st locals up :
  let source := nn_source_site up in
  let target := neighbor (lattice st) source (nn_source_leg up) in
  let P := peps_parameters st in
  let L := lattice st in
  let r := full_update_step (st, locals) up in
  let Tn' := <[target := r.2.2]> (<[source := r.2.1]> (Tn st)) in
  Tn r.1 = Tn' /\
  env r.1 =
    (if Full_Use_FastFullUpdate P then
       if is_horizontal up
       then Right_move (Left_move (env st) Tn' (Z.rem (Z.of_nat source) (LX st)) P L)
                       Tn' (Z.rem (Z.of_nat target) (LX st)) P L
       else Bottom_move (Top_move (env st) Tn' (Z.quot (Z.of_nat source) (LX st)) P L)
                        Tn' (Z.quot (Z.of_nat target) (LX st)) P L
     else Calc_CTM_Environment (env st) Tn' P L) /\
  trace r.1 =
    trace st ++ bond_events source (nn_source_leg up) ++
    (if Full_Use_FastFullUpdate P then
       if is_horizontal up
       then [EvLeftMove (Z.rem (Z.of_nat source) (LX st));
             EvRightMove (Z.rem (Z.of_nat target) (LX st))]
       else [EvTopMove (Z.quot (Z.of_nat source) (LX st));
             EvBottomMove (Z.quot (Z.of_nat target) (LX st))]
     else [EvCalcCTM]).
Proof.
  intros source target P L r Tn'.
  split; [|split].
  - subst r Tn' source target. unfold full_update_step.
    destruct (nn_source_leg up) as [|[|[|[|k]]]]; simpl;
      match goal with
      | |- context [Full_update_bond ?a ?b ?c ?d ?e ?f ?g ?h] =>
          destruct (Full_update_bond a b c d e f g h) as [t1 t2]
      | _ => destruct locals as [t1 t2]
      end; simpl;
      match goal with
      | |- context [refresh_after_bond ?s ?u ?a ?b] =>
          destruct (refresh_after_bond_frame s u a b) as (_ & _ & _ & -> & _)
      end; reflexivity.
  - subst r Tn' source target P L. unfold full_update_step.
    destruct (nn_source_leg up) as [|[|[|[|k]]]]; simpl;
      match goal with
      | |- context [Full_update_bond ?a ?b ?c ?d ?e ?f ?g ?h] =>
          destruct (Full_update_bond a b c d e f g h) as [t1 t2]
      | _ => destruct locals as [t1 t2]
      end; simpl; unfold refresh_after_bond, update_CTM; simpl;
      destruct (Full_Use_FastFullUpdate _); destruct (is_horizontal up);
      reflexivity.
  - subst r. rewrite full_update_step_trace. reflexivity.
Qed.

(** ** The two copies of a bond spectrum *)

Lemma lattice_ok_spec (L : Lattice) s l :
  lattice_ok L = true -> (s < lat_N_UNIT L)%nat -> (l < nleg)%nat ->
  (neighbor L s l < lat_N_UNIT L)%nat /\
  neighbor L (neighbor L s l) (opposite l) = s /\
  vdim_at L s l = vdim_at L (neighbor L s l) (opposite l).
Proof.
  unfold lattice_ok. intros Hok Hs Hl.
  rewrite forallb_forall in Hok.
  specialize (Hok s). rewrite forallb_forall in Hok.
  assert (Hin : forall a k, (a < k)%nat -> In a (seq 0 k)).
  { intros a k Hak. apply in_seq. lia. }
  specialize (Hok (Hin _ _ Hs) l (Hin _ _ Hl)).
  apply andb_prop in Hok as [Hok H3]. apply andb_prop in Hok as [H1 H2].
  apply Nat.ltb_lt in H1. apply Nat.eqb_eq in H2. apply Nat.eqb_eq in H3. auto.
Qed.

Lemma opposite_lt l : (opposite l < nleg)%nat.
Proof. unfold opposite, nleg. apply Nat.mod_upper_bound. lia. Qed.

Lemma opposite_opposite l : (l < nleg)%nat -> opposite (opposite l) = l.
Proof.
  unfold nleg. intros Hl.
  destruct l as [|[|[|[|k]]]]; try reflexivity. lia.
Qed.

Lemma opposite_ne l : (l < nleg)%nat -> opposite l <> l.
Proof.
  unfold nleg. intros Hl.
  destruct l as [|[|[|[|k]]]]; try discriminate. lia.
Qed.

(** Writing one spectrum: [lambda_tensor[i][k] = c]. *)
Lemma lambda_at_write lam i k c s l :
  is_Some (lambda_at lam i k) ->
  lambda_at (alter (fun v => <[k := c]> v) i lam) s l
  = if decide (s = i /\ l = k) then Some c else lambda_at lam s l.
Proof.
  unfold lambda_at. intros [v Hv].
  rewrite list_lookup_alter.
  destruct (lam !! i) as [row|] eqn:Hrow; [|discriminate].
  simpl in Hv.
  destruct (decide (i = s)) as [->|Hne].
  - rewrite Hrow. simpl. rewrite list_lookup_insert.
    assert (k < length row)%nat by (apply lookup_lt_is_Some; eauto).
    destruct (decide (l = k)) as [->|Hlk].
    + rewrite decide_True by auto. rewrite decide_True by auto. reflexivity.
    + rewrite decide_False by (intros [? _]; congruence).
      rewrite decide_False by (intros [_ ?]; congruence). reflexivity.
  - rewrite decide_False by (intros [? _]; congruence). reflexivity.
Qed.

Lemma simple_update_step_lambda st locals up :
  let r := simple_update_step (st, locals) up in
  let source := nn_source_site up in
  let leg := nn_source_leg up in
  let target := neighbor (lattice st) source leg in
  lambda_tensor r.1
  = alter (fun v => <[opposite leg := r.2.2]> v) target
          (alter (fun v => <[leg := r.2.2]> v) source (lambda_tensor st)) /\
  lattice r.1 = lattice st /\ N_UNIT r.1 = N_UNIT st /\
  simple_updates r.1 = simple_updates st /\
  peps_parameters r.1 = peps_parameters st.
Proof.
  unfold simple_update_step. simpl.
  destruct (Simple_update_bond _ _ _ _ _ _ _ _) as [[t1 t2] c]. simpl.
  repeat split; reflexivity.
Qed.

Lemma simple_update_step_consistent (L : Lattice) st locals up :
  lattice_ok L = true ->
  neighbor (lattice st) = neighbor L ->
  (nn_source_site up < lat_N_UNIT L)%nat ->
  (nn_source_leg up < nleg)%nat ->
  lambda_consistent (neighbor L) (lat_N_UNIT L) (lambda_tensor st) ->
  let r := simple_update_step (st, locals) up in
  let source := nn_source_site up in
  let leg := nn_source_leg up in
  let target := neighbor L source leg in
  lambda_at (lambda_tensor r.1) source leg = Some r.2.2 /\
  lambda_at (lambda_tensor r.1) target (opposite leg) = Some r.2.2 /\
  lambda_consistent (neighbor L) (lat_N_UNIT L) (lambda_tensor r.1).
Proof.
  intros Hok Hnb Hs Hl Hinv r source leg target.
  destruct (simple_update_step_lambda st locals up) as (Hlam & _).
  fold r in Hlam. cbv zeta in Hlam. rewrite Hnb in Hlam.
  fold source leg target in Hlam.
  set (c := r.2.2) in *.
  destruct (lattice_ok_spec L source leg Hok Hs Hl) as (Ht & Hback & _).
  fold target in Ht, Hback.
  assert (Hread : forall s l,
            lambda_at (lambda_tensor r.1) s l
            = if decide ((s = source /\ l = leg) \/ (s = target /\ l = opposite leg))
              then Some c else lambda_at (lambda_tensor st) s l).
  { intros s l. rewrite Hlam.
    destruct (Hinv source leg Hs Hl) as (v & Hv1 & Hv2). fold target in Hv2.
    rewrite lambda_at_write.
    2:{ rewrite lambda_at_write by (rewrite Hv1; eauto).
        destruct (decide _); eauto. }
    rewrite lambda_at_write by (rewrite Hv1; eauto).
    repeat destruct (decide _); try reflexivity; exfalso; tauto. }
  split; [|split].
  - rewrite Hread. rewrite decide_True by auto. reflexivity.
  - rewrite Hread. rewrite decide_True by auto. reflexivity.
  - intros s l Hs' Hl'.
    destruct (lattice_ok_spec L s l Hok Hs' Hl') as (Hn & Hb & _).
    destruct (Hinv s l Hs' Hl') as (v & Hv1 & Hv2).
    rewrite !Hread.
    destruct (decide ((s = source /\ l = leg) \/ (s = target /\ l = opposite leg)))
      as [[[-> ->]|[-> ->]]|Hno].
    + exists c. split; [reflexivity|].
      rewrite decide_True; [reflexivity|]. right. auto.
    + exists c. split; [reflexivity|].
      rewrite decide_True; [reflexivity|]. left.
      rewrite opposite_opposite by assumption. auto.
    + exists v. split; [assumption|].
      rewrite decide_False; [assumption|].
      intros [[E1 E2]|[E1 E2]]; apply Hno.
      * right.
        assert (El : l = opposite leg).
        { rewrite <- E2. symmetry. by apply opposite_opposite. }
        split; [|exact El].
        rewrite <- Hb, E1, E2. reflexivity.
      * left.
        assert (El : l = leg).
        { rewrite <- (opposite_opposite l), E2 by assumption.
          by apply opposite_opposite. }
        split; [|exact El].
        rewrite <- Hb, E1, El. exact Hback.
Qed.

Lemma allocate_lambda st s l :
  (s < N_UNIT st)%nat -> (l < nleg)%nat ->
  lambda_at (lambda_tensor (allocate st)) s l
  = Some (replicate (vdim_at (lattice st) s l) one).
Proof.
  intros Hs Hl.
  assert (Hlam : lambda_tensor (allocate st)
                 = (fun i => (fun j => replicate (vdim_at (lattice st) i j) one)
                               <$> seq 0 nleg) <$> seq 0 (N_UNIT st))
    by reflexivity.
  unfold lambda_at. rewrite Hlam.
  rewrite list_lookup_fmap, lookup_seq_lt by assumption. simpl.
  unfold nleg in Hl. destruct l as [|[|[|[|k]]]]; try reflexivity. lia.
Qed.

Lemma same_bonds_refl st : same_bonds st st.
Proof. repeat split. Qed.

Lemma same_bonds_trans st1 st2 st3 :
  same_bonds st1 st2 -> same_bonds st2 st3 -> same_bonds st1 st3.
Proof.
  intros (A1 & A2 & A3 & A4 & A5) (B1 & B2 & B3 & B4 & B5).
  repeat split; congruence.
Qed.

Lemma random_site_same_bonds i (acc : TeNeS * rng * rng) :
  same_bonds acc.1.1 (random_site i acc).1.1.
Proof.
  destruct acc as [[st g] gi]. unfold random_site.
  repeat case_match; simpl; repeat split.
Qed.

Lemma random_sites_same_bonds (l : list nat) (acc : TeNeS * rng * rng) :
  same_bonds acc.1.1 (foldl (fun acc i => random_site i acc) acc l).1.1.
Proof.
  revert acc. induction l as [|i l IH]; intros acc; simpl.
  - apply same_bonds_refl.
  - eapply same_bonds_trans; [apply random_site_same_bonds | apply IH].
Qed.

Lemma initialize_tensors_fresh st fs :
  tensor_load_dir (peps_parameters st) = "" ->
  exists st', initialize_tensors st fs = Done st' fs /\
              same_bonds (allocate st) st'.
Proof.
  intros Hdir. unfold initialize_tensors.
  assert (Hdir' : tensor_load_dir (peps_parameters (allocate st)) = "") by exact Hdir.
  rewrite Hdir'. rewrite decide_True by reflexivity.
  match goal with
  | |- context [foldl ?f ?a ?l] =>
      pose proof (random_sites_same_bonds l a) as Hsame;
      destruct (foldl f a l) as [[st' g'] gi']
  end.
  exists st'. split; [reflexivity | exact Hsame].
Qed.

Lemma simple_update_steps_consistent (L : Lattice) (ups : list NNOperator) :
  lattice_ok L = true ->
  gates_ok (lat_N_UNIT L) ups = true ->
  forall acc : TeNeS * (ptensor * ptensor * list double),
    neighbor (lattice acc.1) = neighbor L ->
    lambda_consistent (neighbor L) (lat_N_UNIT L) (lambda_tensor acc.1) ->
    let r := foldl simple_update_step acc ups in
    neighbor (lattice r.1) = neighbor L /\
    simple_updates r.1 = simple_updates acc.1 /\
    lambda_consistent (neighbor L) (lat_N_UNIT L) (lambda_tensor r.1).
Proof.
  intros Hok. induction ups as [|up ups IH]; intros Hg acc Hnb Hinv; simpl.
  - auto.
  - simpl in Hg. apply andb_prop in Hg as [Hup Hg].
    apply andb_prop in Hup as [Hs Hl].
    apply Nat.ltb_lt in Hs. apply Nat.ltb_lt in Hl.
    destruct acc as [st locals]. simpl in Hnb, Hinv.
    destruct (simple_update_step_lambda st locals up) as (_ & Hlat & _ & Hsu & _).
    destruct (simple_update_step_consistent L st locals up Hok Hnb Hs Hl Hinv)
      as (_ & _ & Hstep).
    cbv zeta in Hlat, Hsu, Hstep.
    specialize (IH Hg (simple_update_step (st, locals) up)).
    rewrite Hlat in IH. specialize (IH Hnb Hstep).
    cbv zeta in IH. destruct IH as (I1 & I2 & I3).
    split; [exact I1|]. split; [|exact I3].
    rewrite I2. exact Hsu.
Qed.

(** C10: on a unit cell whose neighbour table is symmetric and whose
    bonds have one dimension at both ends, the two stored copies of every
    bond spectrum agree.  This holds after [initialize_tensors] without
    checkpoint, where every spectrum is the constant 1.0 of the length of
    its leg; every simple-update bond step writes the one spectrum it
    obtained to the source leg and to the opposite leg of the target, and
    keeps the agreement; hence so does [simple_update]. *)
Theorem lambda_copies_agree (L : Lattice) :
  lattice_ok L = true ->
  (forall st fs,
     lattice st = L -> N_UNIT st = lat_N_UNIT L ->
     tensor_load_dir (peps_parameters st) = "" ->
     exists st',
       initialize_tensors st fs = Done st' fs /\
       neighbor (lattice st') = neighbor L /\
       (forall s l, (s < lat_N_UNIT L)%nat -> (l < nleg)%nat ->
          lambda_at (lambda_tensor st') s l = Some (replicate (vdim_at L s l) one)) /\
       lambda_consistent (neighbor L) (lat_N_UNIT L) (lambda_tensor st')) /\
  (forall st locals up,
     neighbor (lattice st) = neighbor L ->
     (nn_source_site up < lat_N_UNIT L)%nat ->
     (nn_source_leg up < nleg)%nat ->
     lambda_consistent (neighbor L) (lat_N_UNIT L) (lambda_tensor st) ->
     let r := simple_update_step (st, locals) up in
     lambda_at (lambda_tensor r.1) (nn_source_site up) (nn_source_leg up)
       = Some r.2.2 /\
     lambda_at (lambda_tensor r.1)
               (neighbor L (nn_source_site up) (nn_source_leg up))
               (opposite (nn_source_leg up))
       = Some r.2.2 /\
     lambda_consistent (neighbor L) (lat_N_UNIT L) (lambda_tensor r.1)) /\
  (forall st,
     neighbor (lattice st) = neighbor L ->
     gates_ok (lat_N_UNIT L) (simple_updates st) = true ->
     lambda_consistent (neighbor L) (lat_N_UNIT L) (lambda_tensor st) ->
     lambda_consistent (neighbor L) (lat_N_UNIT L) (lambda_tensor (simple_update st))).
Proof.
  intros Hok. split; [|split].
  - intros st fs HL HN Hdir.
    destruct (initialize_tensors_fresh st fs Hdir) as (st' & Hinit & Hsame).
    destruct Hsame as (Hlam & Hnb & _).
    assert (Hone : forall s l, (s < lat_N_UNIT L)%nat -> (l < nleg)%nat ->
              lambda_at (lambda_tensor st') s l = Some (replicate (vdim_at L s l) one)).
    { intros s l Hs Hl. rewrite Hlam, allocate_lambda by (rewrite ?HN; assumption).
      by rewrite HL. }
    exists st'. split; [exact Hinit|]. split; [|split].
    + rewrite Hnb. simpl. by rewrite HL.
    + exact Hone.
    + intros s l Hs Hl.
      destruct (lattice_ok_spec L s l Hok Hs Hl) as (Hn & _ & Hdim).
      exists (replicate (vdim_at L s l) one). split; [by apply Hone|].
      rewrite Hone by (assumption || apply opposite_lt). by rewrite Hdim.
  - intros st locals up Hnb Hs Hl Hinv.
    exact (simple_update_step_consistent L st locals up Hok Hnb Hs Hl Hinv).
  - intros st Hnb Hg Hinv. unfold simple_update, repeat_steps.
    set (n := Z.to_nat _). clearbody n.
    set (body := fun acc : TeNeS * (ptensor * ptensor * list double) =>
                   foldl simple_update_step acc (simple_updates acc.1)).
    assert (Hiter : forall k,
              let r := Nat.iter k body (st, (ptensor_empty, ptensor_empty, [])) in
              neighbor (lattice r.1) = neighbor L /\
              simple_updates r.1 = simple_updates st /\
              lambda_consistent (neighbor L) (lat_N_UNIT L) (lambda_tensor r.1)).
    { induction k as [|k IH]; simpl.
      - auto.
      - destruct IH as (I1 & I2 & I3). unfold body at 1.
        destruct (simple_update_steps_consistent L
                    (simple_updates (Nat.iter k body (st, (ptensor_empty, ptensor_empty, []))).1)
                    Hok ltac:(by rewrite I2) _ I1 I3) as (J1 & J2 & J3).
        split; [exact J1|]. split; [exact (eq_trans J2 I2) | exact J3]. }
    apply (Hiter n).
Qed.

(** ** Two-site requests on too large a block *)

Lemma wrap_exact (z : Z) : Int32.in_range z -> Int32.wrap z = z.
Proof.
  unfold Int32.in_range, Int32.INT_MIN, Int32.INT_MAX, Int32.wrap. intros Hz.
  rewrite Z.mod_small by lia. lia.
Qed.

(** Below [INT_MAX] the block size is the exact [|d| + 1]. *)
Lemma block_size_exact (d : Z) :
  Z.abs d < Int32.INT_MAX -> Int32.add (Int32.abs d) 1 = Z.abs d + 1.
Proof.
  intros Hd. unfold Int32.add, Int32.abs.
  unfold Int32.INT_MAX in Hd.
  rewrite (wrap_exact (Z.abs d))
    by (unfold Int32.in_range, Int32.INT_MIN, Int32.INT_MAX; lia).
  apply wrap_exact. unfold Int32.in_range, Int32.INT_MIN, Int32.INT_MAX. lia.
Qed.

Lemma too_long_guard o :
  representable o ->
  too_long o <->
  (nmax <? Int32.add (Int32.abs (dx o !!! 0%nat)) 1)
  || (nmax <? Int32.add (Int32.abs (dy o !!! 0%nat)) 1) = true.
Proof.
  intros [Hx Hy]. unfold bond_of in Hx, Hy. simpl in Hx, Hy.
  rewrite !block_size_exact by assumption.
  unfold too_long, bond_too_long, bond_of. simpl.
  rewrite orb_true_iff, !Z.ltb_lt. reflexivity.
Qed.

(** The three ways the loop body ends: a warning, an exception of the
    vector constructor, or one value stored under the bond of the
    request. *)
Lemma measure_twosite_step_cases st ret norms warns o :
  let ncol := Int32.add (Int32.abs (dx o !!! 0%nat)) 1 in
  let nrow := Int32.add (Int32.abs (dy o !!! 0%nat)) 1 in
  let guard := (nmax <? ncol) || (nmax <? nrow) in
  let fits := vector_fits ncol && vector_fits nrow in
  (guard = true /\
   measure_twosite_step st (ret, norms, warns) o
   = Passed (ret, norms,
             warns ++ [EvWarnTooLong (group o) (dx o !!! 0%nat) (dy o !!! 0%nat)])) \/
  (guard = false /\ fits = false /\
   measure_twosite_step st (ret, norms, warns) o
   = Raised length_error_what (ret, norms, warns)) \/
  (guard = false /\ fits = true /\
   exists v norms',
     forall warns',
       measure_twosite_step st (ret, norms, warns') o
       = Passed (alter (fun m : gmap Bond double => <[bond_of o := v]> m) (group o) ret,
                 norms', warns')).
Proof.
  intros ncol nrow guard fits.
  unfold measure_twosite_step. cbn [fst snd]. fold ncol nrow. fold guard. fold fits.
  destruct guard; [left; auto|]. right.
  destruct fits; [right|left; auto].
  split; [reflexivity|]. split; [reflexivity|].
  eexists _, _. intros warns'. reflexivity.
Qed.

Lemma measure_twosite_step_skip st ret norms warns o :
  too_long o -> representable o ->
  measure_twosite_step st (ret, norms, warns) o
  = Passed (ret, norms,
            warns ++ [EvWarnTooLong (group o) (dx o !!! 0%nat) (dy o !!! 0%nat)]).
Proof.
  intros Hlong Hrep. apply (too_long_guard o Hrep) in Hlong.
  destruct (measure_twosite_step_cases st ret norms warns o)
    as [[_ H]|[[Hg _]|[Hg _]]]; [exact H| |]; cbv zeta in Hg; congruence.
Qed.

(** The warnings written so far do not influence what the body does. *)
Lemma measure_twosite_step_warnings st ret norms (w w0 : list event) o :
  measure_twosite_step st (ret, norms, w ++ w0) o
  = after_warnings w (measure_twosite_step st (ret, norms, w0) o).
Proof.
  destruct (measure_twosite_step_cases st ret norms w0 o)
    as [[Hg H]|[(Hg & Hf & H)|(Hg & Hf & v & n' & H)]]; cbv zeta in *.
  - rewrite H.
    destruct (measure_twosite_step_cases st ret norms (w ++ w0) o)
      as [[_ H']|[(Hg' & _)|(Hg' & _)]]; cbv zeta in *; try congruence.
    rewrite H'. simpl. by rewrite <- app_assoc.
  - rewrite H.
    destruct (measure_twosite_step_cases st ret norms (w ++ w0) o)
      as [[Hg' _]|[(_ & _ & H')|(_ & Hf' & _)]]; cbv zeta in *; try congruence.
    rewrite H'. reflexivity.
  - rewrite !H. reflexivity.
Qed.

Lemma twosite_next_warnings st (w : list event) (r : attempt twosite_acc) o :
  twosite_next st (after_warnings w r) o = after_warnings w (twosite_next st r o).
Proof.
  destruct r as [[[ret norms] w0]|what [[ret norms] w0]]; simpl; [|reflexivity].
  apply measure_twosite_step_warnings.
Qed.

Lemma twosite_fold_warnings st ops (w : list event) :
  forall r : attempt twosite_acc,
    foldl (twosite_next st) (after_warnings w r) ops
    = after_warnings w (foldl (twosite_next st) r ops).
Proof.
  induction ops as [|o ops IH]; intros r; simpl; [reflexivity|].
  by rewrite twosite_next_warnings, IH.
Qed.

Lemma twosite_next_supported st (r : attempt twosite_acc) o :
  keys_supported (left_by r).1.1 -> keys_supported (left_by (twosite_next st r o)).1.1.
Proof.
  destruct r as [[[ret norms] w]|what acc]; simpl; [|done]. intros Hinv.
  destruct (measure_twosite_step_cases st ret norms w o)
    as [[Hg H]|[(Hg & Hf & H)|(Hg & Hf & v & n' & H)]]; cbv zeta in *;
    rewrite H; simpl; try exact Hinv.
  intros g m b Hm Hb Hrep.
  rewrite list_lookup_alter in Hm.
  destruct (decide (group o = g)) as [<-|Hne]; [|by eapply Hinv].
  destruct (ret !! group o) as [m0|] eqn:Hm0; [|discriminate].
  simpl in Hm. injection Hm as <-.
  apply lookup_insert_is_Some in Hb as [<-|[_ Hb]]; [|by eapply Hinv].
  intros Hlong. apply (too_long_guard o Hrep) in Hlong. congruence.
Qed.

Lemma twosite_fold_supported st ops (r : attempt twosite_acc) :
  keys_supported (left_by r).1.1 ->
  keys_supported (left_by (foldl (twosite_next st) r ops)).1.1.
Proof.
  revert r. induction ops as [|o ops IH]; intros r Hinv; simpl; [done|].
  apply IH. by apply twosite_next_supported.
Qed.

Lemma keys_supported_init (n : nat) : keys_supported (replicate n ∅).
Proof.
  intros g m b Hg Hb. apply lookup_replicate in Hg as [-> _].
  rewrite lookup_empty in Hb. by destruct Hb.
Qed.

(** A request whose block has more than [nmax = 4] columns or rows, with
    sizes that are values of [int], when the loop reaches it: the body
    writes one warning and nothing else, and the loop goes on as on the
    list without the request.  The result holds no value under the bond of
    the request, and the values, the cached norms, the other warnings and
    the exception that may end the loop later are those of the run on the
    remaining requests. *)
Lemma measure_twosite_skips_too_long st (pre post : list Operator) o
    (acc1 : twosite_acc) :
  too_long o -> representable o ->
  measure_twosite_loop st pre = Passed acc1 ->
  let warning := EvWarnTooLong (group o) (dx o !!! 0%nat) (dy o !!! 0%nat) in
  let run := measure_twosite_loop st (pre ++ o :: post) in
  let without := measure_twosite_loop st (pre ++ post) in
  measure_twosite_step st acc1 o = Passed (acc1.1, acc1.2 ++ [warning]) /\
  exists w2,
    (left_by without).2 = acc1.2 ++ w2 /\
    (left_by run).2 = acc1.2 ++ warning :: w2 /\
    (left_by run).1 = (left_by without).1 /\
    raised run = raised without /\
    forall m : gmap Bond double,
      (left_by run).1.1 !! group o = Some m -> m !! bond_of o = None.
Proof.
  intros Hlong Hrep Hpre warning run without.
  destruct acc1 as [[ret1 norms1] w1].
  assert (Hstep : measure_twosite_step st (ret1, norms1, w1) o
                  = @Passed twosite_acc (ret1, norms1, w1 ++ [warning]))
    by (by apply measure_twosite_step_skip).
  split; [exact Hstep|].
  assert (Hsup : keys_supported ret1).
  { pose proof (twosite_fold_supported st pre
                  (Passed (replicate (num_twosite_operators st) ∅, ∅, []))
                  (keys_supported_init _)) as H.
    unfold measure_twosite_loop in Hpre. rewrite Hpre in H. exact H. }
  subst run without. unfold measure_twosite_loop in *.
  rewrite !foldl_app, Hpre. simpl. rewrite Hstep.
  assert (E1 : forall w : list event,
             @Passed twosite_acc (ret1, norms1, w)
             = after_warnings w (@Passed twosite_acc (ret1, norms1, [])))
    by (intros w; simpl; by rewrite app_nil_r).
  rewrite (E1 w1), (E1 (w1 ++ [warning])), !twosite_fold_warnings.
  pose proof (twosite_fold_supported st post
                (@Passed twosite_acc (ret1, norms1, [])) Hsup) as Hpost.
  destruct (foldl (twosite_next st) (@Passed twosite_acc (ret1, norms1, [])) post)
    as [[[ret2 norms2] w2]|what [[ret2 norms2] w2]]; simpl in *;
    exists w2; (split; [reflexivity|]); (split; [by rewrite <- app_assoc|]);
    (split; [reflexivity|]); (split; [reflexivity|]);
    intros m Hm; (destruct (m !! bond_of o) eqn:Hb; [|reflexivity]);
    exfalso; eapply Hpost; eauto.
Qed.

(** ** Long-range correlations *)

(** A fold whose step establishes [Q] at one element of the list and
    keeps it afterwards ends in [Q]. *)
Lemma foldl_reaches {A B : Type} (f : A -> B -> A) (Q : A -> Prop) (x : B)
    (l : list B) :
  x ∈ l ->
  (forall a, Q (f a x)) ->
  (forall a b, Q a -> Q (f a b)) ->
  forall a, Q (foldl f a l).
Proof.
  intros Hin Hx Hkeep.
  assert (Hfold : forall k a, Q a -> Q (foldl f a k)).
  { induction k as [|b k IH]; intros a Ha; simpl; auto. }
  apply list_elem_of_split in Hin as (l1 & l2 & ->).
  intros a. rewrite foldl_app. simpl. apply Hfold, Hx.
Qed.

Lemma foldl_keeps {A B : Type} (f : A -> B -> A) (Q : A -> Prop) (l : list B) :
  (forall a b, Q a -> Q (f a b)) -> forall a, Q a -> Q (foldl f a l).
Proof. intros Hkeep. induction l as [|b l IH]; intros a Ha; simpl; auto. Qed.

Lemma push_correlations_keeps st li ri ox oy lo rops close norm cs c :
  c ∈ cs -> c ∈ push_correlations st li ri ox oy lo rops close norm cs.
Proof.
  unfold push_correlations. revert cs.
  induction rops as [|ro rops IH]; intros cs Hc; simpl; [done|].
  apply IH. destruct (_ <? 0); [done|]. apply elem_of_app. by left.
Qed.

Lemma push_correlations_adds st li ri ox oy lo rops close norm cs ro :
  ro ∈ rops -> assigned st ri ro ->
  {| left_index := li; right_index := ri; offset_x := ox; offset_y := oy;
     left_op := lo; right_op := ro;
     real := div (close (onesite_op st (siteoperator_index st ri ro))) norm;
     imag := zero |}
  ∈ push_correlations st li ri ox oy lo rops close norm cs.
Proof.
  unfold assigned. intros Hin Hro. revert cs.
  induction rops as [|ro' rops IH]; intros cs; [by apply elem_of_nil in Hin|].
  apply elem_of_cons in Hin as [<-|Hin].
  - change (push_correlations st li ri ox oy lo (ro :: rops) close norm cs)
      with (push_correlations st li ri ox oy lo rops close norm
              (if siteoperator_index st ri ro <? 0 then cs
               else cs ++ [{| left_index := li; right_index := ri;
                              offset_x := ox; offset_y := oy;
                              left_op := lo; right_op := ro;
                              real := div (close (onesite_op st (siteoperator_index st ri ro))) norm;
                              imag := zero |}])).
    apply push_correlations_keeps.
    replace (_ <? 0) with false by (symmetry; lia).
    apply elem_of_app. right. apply list_elem_of_singleton. reflexivity.
  - apply (IH Hin).
Qed.

Lemma horizontal_step_eq st li lo rops (acc : corr_acc) r :
  horizontal_step st li lo rops acc r
  = (h_transfer st (h_site st li r) acc.1.1,
     h_transfer st (h_site st li r) acc.1.2,
     push_correlations st li (h_site st li r)
       (Z.quot (lat_x (lattice st) li + r + 1) (LX st)) 0 lo rops
       (h_close st (h_site st li r) acc.1.1)
       (h_close st (h_site st li r) acc.1.2 (op_identity st !!! h_site st li r))
       acc.2).
Proof. reflexivity. Qed.

Lemma vertical_step_eq st li lo rops (acc : corr_acc) r :
  vertical_step st li lo rops acc r
  = (v_transfer st (v_site st li r) acc.1.1,
     v_transfer st (v_site st li r) acc.1.2,
     push_correlations st li (v_site st li r)
       0 (Z.quot (lat_y (lattice st) li + r + 1) (LY st)) lo rops
       (v_close st (v_site st li r) acc.1.1)
       (v_close st (v_site st li r) acc.1.2 (op_identity st !!! v_site st li r))
       acc.2).
Proof. reflexivity. Qed.

Lemma upto_succ (k : nat) : upto (Z.of_nat (S k)) = upto (Z.of_nat k) ++ [Z.of_nat k].
Proof.
  unfold upto. rewrite !Nat2Z.id, seq_S, fmap_app. reflexivity.
Qed.

Lemma upto_split (n r : Z) :
  0 <= r < n -> exists rest, upto n = upto r ++ r :: rest.
Proof.
  intros Hr. unfold upto.
  replace (Z.to_nat n) with (Z.to_nat r + S (Z.to_nat n - Z.to_nat r - 1))%nat by lia.
  rewrite seq_app, fmap_app. simpl. rewrite Z2Nat.id by lia. eauto.
Qed.

Lemma horizontal_fold_buffers st li lo rops (k : nat) (acc : corr_acc) :
  let a := foldl (horizontal_step st li lo rops) acc (upto (Z.of_nat k)) in
  a.1.1 = h_boundary st li acc.1.1 k /\ a.1.2 = h_boundary st li acc.1.2 k.
Proof.
  induction k as [|k IH].
  - simpl. auto.
  - rewrite upto_succ, foldl_app. cbv zeta in *. simpl foldl.
    rewrite horizontal_step_eq. simpl. destruct IH as [-> ->]. auto.
Qed.

Lemma vertical_fold_buffers st li lo rops (k : nat) (acc : corr_acc) :
  let a := foldl (vertical_step st li lo rops) acc (upto (Z.of_nat k)) in
  a.1.1 = v_boundary st li acc.1.1 k /\ a.1.2 = v_boundary st li acc.1.2 k.
Proof.
  induction k as [|k IH].
  - simpl. auto.
  - rewrite upto_succ, foldl_app. cbv zeta in *. simpl foldl.
    rewrite vertical_step_eq. simpl. destruct IH as [-> ->]. auto.
Qed.

Lemma horizontal_step_keeps st li lo rops (acc : corr_acc) r c :
  c ∈ acc.2 -> c ∈ (horizontal_step st li lo rops acc r).2.
Proof. rewrite horizontal_step_eq. simpl. apply push_correlations_keeps. Qed.

Lemma vertical_step_keeps st li lo rops (acc : corr_acc) r c :
  c ∈ acc.2 -> c ∈ (vertical_step st li lo rops acc r).2.
Proof. rewrite vertical_step_eq. simpl. apply push_correlations_keeps. Qed.

(** The horizontal loop from buffers [T], [N] records, at radius [r] and
    for each requested and assigned right operator, the value closed on the
    boundaries after [r] transfer steps. *)
Lemma horizontal_fold_adds st li lo rops (T N : ptensor) cs n r ro :
  0 <= r < n -> ro ∈ rops -> assigned st (h_site st li r) ro ->
  h_record st li lo ro r T N
  ∈ (foldl (horizontal_step st li lo rops) (T, N, cs) (upto n)).2.
Proof.
  intros Hr Hin Hro.
  destruct (upto_split n r Hr) as [rest ->].
  rewrite foldl_app. simpl foldl.
  apply (foldl_keeps _ (fun a : corr_acc => _ ∈ a.2)).
  { intros a b. apply horizontal_step_keeps. }
  destruct (horizontal_fold_buffers st li lo rops (Z.to_nat r) (T, N, cs)) as [HT HN].
  rewrite Z2Nat.id in HT, HN by lia. simpl in HT, HN.
  rewrite horizontal_step_eq. simpl. rewrite HT, HN.
  by apply push_correlations_adds.
Qed.

Lemma vertical_fold_adds st li lo rops (T N : ptensor) cs n r ro :
  0 <= r < n -> ro ∈ rops -> assigned st (v_site st li r) ro ->
  v_record st li lo ro r T N
  ∈ (foldl (vertical_step st li lo rops) (T, N, cs) (upto n)).2.
Proof.
  intros Hr Hin Hro.
  destruct (upto_split n r Hr) as [rest ->].
  rewrite foldl_app. simpl foldl.
  apply (foldl_keeps _ (fun a : corr_acc => _ ∈ a.2)).
  { intros a b. apply vertical_step_keeps. }
  destruct (vertical_fold_buffers st li lo rops (Z.to_nat r) (T, N, cs)) as [HT HN].
  rewrite Z2Nat.id in HT, HN by lia. simpl in HT, HN.
  rewrite vertical_step_eq. simpl. rewrite HT, HN.
  by apply push_correlations_adds.
Qed.

Lemma horizontal_fold_keeps st li lo rops (acc : corr_acc) radii c :
  c ∈ acc.2 -> c ∈ (foldl (horizontal_step st li lo rops) acc radii).2.
Proof.
  apply (foldl_keeps _ (fun a : corr_acc => c ∈ a.2)).
  intros a b. apply horizontal_step_keeps.
Qed.

Lemma vertical_fold_keeps st li lo rops (acc : corr_acc) radii c :
  c ∈ acc.2 -> c ∈ (foldl (vertical_step st li lo rops) acc radii).2.
Proof.
  apply (foldl_keeps _ (fun a : corr_acc => c ∈ a.2)).
  intros a b. apply vertical_step_keeps.
Qed.

Lemma correlation_left_op_keeps st li r_ops (acc : corr_acc) lo c :
  c ∈ acc.2 -> c ∈ (correlation_left_op st li r_ops acc lo).2.
Proof.
  intros Hc. unfold correlation_left_op.
  destruct (r_ops !!! lo) as [|ro rops]; [done|].
  destruct (_ <? 0); [done|].
  apply vertical_fold_keeps. simpl. by apply horizontal_fold_keeps.
Qed.

(** With partners requested and an operator at the left site, the body
    of the loop over left operators records both directions. *)
Lemma correlation_left_op_adds st li r_ops (acc : corr_acc) lo ro r :
  ro ∈ r_ops !!! lo -> assigned st li lo -> 0 <= r < r_max (corparam st) ->
  let left_op := onesite_op st (siteoperator_index st li lo) in
  let id := op_identity st !!! li in
  let res := (correlation_left_op st li r_ops acc lo).2 in
  (assigned st (h_site st li r) ro ->
   exists T0 N0,
     h_record st li lo ro r (h_start st li T0 left_op) (h_start st li N0 id) ∈ res) /\
  (assigned st (v_site st li r) ro ->
   exists T0 N0,
     v_record st li lo ro r (v_start st li T0 left_op) (v_start st li N0 id) ∈ res).
Proof.
  intros Hin Hlo Hr left_op id res. subst res.
  unfold correlation_left_op. unfold assigned in Hlo.
  destruct (r_ops !!! lo) as [|ro0 rops] eqn:Erops; [by apply elem_of_nil in Hin|].
  replace (_ <? 0) with false by (symmetry; lia).
  split; intros Hro.
  - exists acc.1.1, acc.1.2.
    apply vertical_fold_keeps. simpl.
    by apply horizontal_fold_adds.
  - eexists _, _. by apply vertical_fold_adds.
Qed.

Lemma correlation_left_site_keeps st r_ops cs li c :
  c ∈ cs -> c ∈ correlation_left_site st r_ops cs li.
Proof.
  intros Hc. unfold correlation_left_site.
  apply (foldl_keeps _ (fun a : corr_acc => c ∈ a.2)); [|exact Hc].
  intros a b. apply correlation_left_op_keeps.
Qed.

Lemma r_ops_of_elem (nlops : nat) (ops : list (nat * nat)) lo ro :
  (lo, ro) ∈ ops -> (lo < nlops)%nat -> ro ∈ r_ops_of nlops ops !!! lo.
Proof.
  intros Hin Hlo. unfold r_ops_of.
  assert (Hgen : forall acc : list (list nat),
            (lo < length acc)%nat ->
            ro ∈ acc !!! lo \/ (lo, ro) ∈ ops ->
            ro ∈ foldl (fun (acc : list (list nat)) (p : nat * nat) =>
                          alter (fun v => v ++ [p.2]) p.1 acc) acc ops !!! lo).
  { clear Hin. induction ops as [|p ops IH]; intros acc Hlen Hcase; simpl.
    - destruct Hcase as [H|H]; [done | by apply elem_of_nil in H].
    - destruct p as [a b]. simpl.
      apply IH; [by rewrite length_alter|].
      rewrite list_lookup_total_alter.
      destruct Hcase as [H|H].
      + left. destruct (decide _) as [[-> _]|]; [|done]. apply elem_of_app. by left.
      + apply elem_of_cons in H as [H|H]; [|by right].
        injection H as <- <-.
        left. rewrite decide_True by auto.
        apply elem_of_app. right. by apply list_elem_of_singleton. }
  apply Hgen; [by rewrite length_replicate | by right].
Qed.

Lemma h_site_mod st li r :
  0 < LX st -> 0 <= lat_x (lattice st) li -> 0 <= r ->
  h_site st li r
  = lat_index (lattice st) ((lat_x (lattice st) li + r + 1) mod LX st)
              (lat_y (lattice st) li) /\
  Z.quot (lat_x (lattice st) li + r + 1) (LX st)
  = (lat_x (lattice st) li + r + 1) / LX st.
Proof.
  intros HLX Hx Hr. unfold h_site.
  rewrite Z.rem_mod_nonneg, Z.quot_div_nonneg by lia. auto.
Qed.

Lemma v_site_mod st li r :
  0 < LY st -> 0 <= lat_y (lattice st) li -> 0 <= r ->
  v_site st li r
  = lat_index (lattice st) (lat_x (lattice st) li)
              ((lat_y (lattice st) li + r + 1) mod LY st) /\
  Z.quot (lat_y (lattice st) li + r + 1) (LY st)
  = (lat_y (lattice st) li + r + 1) / LY st.
Proof.
  intros HLY Hy Hr. unfold v_site.
  rewrite Z.rem_mod_nonneg, Z.quot_div_nonneg by lia. auto.
Qed.

Lemma push_correlations_assigned st li ri ox oy lo rops close norm cs :
  assigned st li lo ->
  (forall c, c ∈ cs -> both_assigned st c) ->
  forall c, c ∈ push_correlations st li ri ox oy lo rops close norm cs ->
            both_assigned st c.
Proof.
  intros Hlo. unfold push_correlations. revert cs.
  induction rops as [|ro rops IH]; intros cs Hcs; simpl; [exact Hcs|].
  apply IH. destruct (_ <? 0) eqn:E; [exact Hcs|].
  intros c Hc. apply elem_of_app in Hc as [Hc|Hc]; [by apply Hcs|].
  apply list_elem_of_singleton in Hc as ->.
  split; [exact Hlo|]. unfold assigned. simpl. lia.
Qed.

Lemma correlation_left_op_assigned st li r_ops (acc : corr_acc) lo :
  (forall c, c ∈ acc.2 -> both_assigned st c) ->
  forall c, c ∈ (correlation_left_op st li r_ops acc lo).2 -> both_assigned st c.
Proof.
  intros Hacc. unfold correlation_left_op.
  destruct (r_ops !!! lo) as [|ro rops]; [exact Hacc|].
  destruct (_ <? 0) eqn:E; [exact Hacc|].
  assert (Hlo : assigned st li lo) by (unfold assigned; lia).
  apply (foldl_keeps _ (fun a : corr_acc => forall c, c ∈ a.2 -> both_assigned st c)).
  { intros a r Ha. rewrite vertical_step_eq. cbn [fst snd].
    by apply push_correlations_assigned. }
  cbn [fst snd].
  apply (foldl_keeps _ (fun a : corr_acc => forall c, c ∈ a.2 -> both_assigned st c)).
  { intros a r Ha. rewrite horizontal_step_eq. cbn [fst snd].
    by apply push_correlations_assigned. }
  exact Hacc.
Qed.

(** Every record of [measure_correlation] joins operators assigned at
    their sites. *)
Lemma measure_correlation_assigned st c :
  c ∈ measure_correlation st -> both_assigned st c.
Proof.
  revert c. unfold measure_correlation.
  apply (foldl_keeps _ (fun cs : list Correlation =>
                          forall c, c ∈ cs -> both_assigned st c)).
  - intros cs li Hcs. unfold correlation_left_site.
    apply (foldl_keeps _ (fun a : corr_acc => forall c, c ∈ a.2 -> both_assigned st c)).
    + intros a lo. apply correlation_left_op_assigned.
    + exact Hcs.
  - intros c Hc. by apply elem_of_nil in Hc.
Qed.

(** C8 (as the code has it): for a left site [li], a left operator [lo]
    requested with a right operator [ro] and assigned at [li], and a
    radius [0 <= r < r_max]: when [ro] is assigned at the right site
    [((x + r + 1) mod LX, y)], [measure_correlation] returns a horizontal
    record for that site with offset [((x + r + 1) / LX, 0)], and when [ro]
    is assigned at [(x, (y + r + 1) mod LY)], a vertical record with offset
    [(0, (y + r + 1) / LY)]; the value of either is the boundary seeded
    with the left operator, transferred [r] times and closed against the
    right operator, divided by the boundary seeded with the identity,
    transferred [r] times and closed against the identity.  No record is
    returned for an operator that is not assigned at its site. *)
Theorem measure_correlation_entries st (li lo ro : nat) (r : Z) :
  0 < LX st -> 0 < LY st ->
  0 <= lat_x (lattice st) li -> 0 <= lat_y (lattice st) li ->
  (li < N_UNIT st)%nat ->
  requested st lo ro ->
  assigned st li lo ->
  0 <= r < r_max (corparam st) ->
  let L := lattice st in
  let h_right := lat_index L ((lat_x L li + r + 1) mod LX st) (lat_y L li) in
  let v_right := lat_index L (lat_x L li) ((lat_y L li + r + 1) mod LY st) in
  (assigned st h_right ro ->
   exists c, c ∈ measure_correlation st /\ horizontal_entry st li lo ro r c) /\
  (assigned st v_right ro ->
   exists c, c ∈ measure_correlation st /\ vertical_entry st li lo ro r c) /\
  (forall c, c ∈ measure_correlation st -> both_assigned st c).
Proof.
  intros HLX HLY Hx Hy Hli [Hreq Hlo] Hleft Hr L h_right v_right.
  destruct (h_site_mod st li r HLX Hx ltac:(lia)) as [Hhs Hhq].
  destruct (v_site_mod st li r HLY Hy ltac:(lia)) as [Hvs Hvq].
  fold L h_right in Hhs. fold L v_right in Hvs. fold L in Hhq, Hvq.
  pose proof (r_ops_of_elem _ _ _ _ Hreq Hlo) as Hrops.
  set (r_ops := r_ops_of _ _) in Hrops.
  assert (Hsite : li ∈ seq 0 (N_UNIT st)) by (apply elem_of_seq; lia).
  assert (Hop : lo ∈ seq 0 (num_onesite_operators st)) by (apply elem_of_seq; lia).
  (* an entry recorded in the body for [lo] at site [li] reaches the result *)
  assert (Hreach : forall P : Correlation -> Prop,
            (forall acc : corr_acc,
               exists c, c ∈ (correlation_left_op st li r_ops acc lo).2 /\ P c) ->
            exists c, c ∈ measure_correlation st /\ P c).
  { intros P HP. unfold measure_correlation. fold r_ops.
    apply (foldl_reaches _ (fun cs : list Correlation => exists c, c ∈ cs /\ P c)
                         li _ Hsite).
    - intros cs. unfold correlation_left_site.
      apply (foldl_reaches _ (fun a : corr_acc => exists c, c ∈ a.2 /\ P c)
                           lo _ Hop).
      + exact HP.
      + intros a b (c & Hc & HPc). exists c. split; [|exact HPc].
        by apply correlation_left_op_keeps.
    - intros cs b (c & Hc & HPc). exists c. split; [|exact HPc].
      by apply correlation_left_site_keeps. }
  split; [|split]; [intros Hright | intros Hright | apply measure_correlation_assigned].
  - apply Hreach. intros acc.
    destruct (correlation_left_op_adds st li r_ops acc lo ro r Hrops Hleft Hr)
      as [Hh _].
    rewrite Hhs in Hh. destruct (Hh Hright) as (T0 & N0 & Hin).
    eexists. split; [exact Hin|].
    unfold horizontal_entry, h_record. fold L h_right. simpl.
    rewrite Hhs, Hhq. repeat split. by exists T0, N0.
  - apply Hreach. intros acc.
    destruct (correlation_left_op_adds st li r_ops acc lo ro r Hrops Hleft Hr)
      as [_ Hv].
    rewrite Hvs in Hv. destruct (Hv Hright) as (T0 & N0 & Hin).
    eexists. split; [exact Hin|].
    unfold vertical_entry, v_record. fold L v_right. simpl.
    rewrite Hvs, Hvq. repeat split. by exists T0, N0.
Qed.

(** ** Loading a checkpoint *)

Lemma load_sites_spec fs dir (l : list nat) :
  forall st,
    let st' := foldl (load_site fs dir) st l in
    trace st' = trace st ++ load_events dir l /\
    lattice st' = lattice st /\ N_UNIT st' = N_UNIT st /\
    mpirank st' = mpirank st.
Proof.
  induction l as [|i l IH]; intros st; simpl.
  - rewrite app_nil_r. auto.
  - destruct (IH (load_site fs dir st i)) as (Ht & HL & HN & Hr).
    cbv zeta. rewrite Ht, HL, HN, Hr.
    unfold load_events. simpl. rewrite <- !app_assoc. auto.
Qed.

Lemma allocate_frame st :
  peps_parameters (allocate st) = peps_parameters st /\
  lattice (allocate st) = lattice st /\
  N_UNIT (allocate st) = N_UNIT st /\
  mpirank (allocate st) = mpirank st /\
  trace (allocate st) = trace st.
Proof. repeat split; reflexivity. Qed.

Lemma initialize_tensors_missing_dir st fs :
  tensor_load_dir (peps_parameters st) <> "" ->
  stat fs (tensor_load_dir (peps_parameters st)) = false ->
  initialize_tensors st fs
  = Thrown (tensor_load_dir (peps_parameters st) +:+ " does not exists.")
           (allocate st) fs.
Proof.
  intros Hdir Hstat. unfold initialize_tensors.
  destruct (allocate_frame st) as (HP & _).
  generalize dependent (allocate st). intros a HP. cbv zeta. rewrite HP.
  rewrite decide_False by assumption. rewrite Hstat. reflexivity.
Qed.

Lemma initialize_tensors_existing_dir st fs :
  let dir := tensor_load_dir (peps_parameters st) in
  dir <> "" -> stat fs dir = true ->
  exists st',
    initialize_tensors st fs = Done st' fs /\
    lambda_tensor st'
    = assign_lambda (lattice st) (N_UNIT st)
                    (local_ls (lattice st) (N_UNIT st) fs dir 0) /\
    trace st'
    = trace st ++ load_events dir (seq 0 (N_UNIT st)) ++
      (if decide (mpirank st = 0%nat) then read_events dir (N_UNIT st) else []).
Proof.
  intros dir Hdir Hstat. unfold initialize_tensors.
  destruct (allocate_frame st) as (HP & HL & HN & Hr & Ht).
  generalize dependent (allocate st). intros a HP HL HN Hr Ht. cbv zeta.
  rewrite HP. fold dir.
  rewrite decide_False by assumption. rewrite Hstat. cbn [negb].
  destruct (load_sites_spec fs dir (seq 0 (N_UNIT a)) a) as (Ht' & HL' & HN' & Hr').
  set (loaded := foldl (load_site fs dir) a (seq 0 (N_UNIT a))) in *.
  destruct (decide (mpirank loaded = 0%nat)) as [Hz|Hnz].
  - eexists. split; [reflexivity|]. cbn [lambda_tensor set_lambda_tensor trace emit lattice N_UNIT].
    rewrite HL', HN', HL, Ht', Ht, !HN.
    rewrite decide_True by congruence.
    split; [reflexivity|]. unfold bcast, read_events.
    by rewrite <- app_assoc.
  - eexists. split; [reflexivity|]. cbn [lambda_tensor set_lambda_tensor trace emit lattice N_UNIT].
    rewrite HL', HN', HL, Ht', Ht, !HN.
    rewrite decide_False by congruence.
    split; [reflexivity|]. by rewrite app_nil_r.
Qed.

(** ** Saving and loading the spectra *)

Lemma string_app_cons a (s t : string) : String a s +:+ t = String a (s +:+ t).
Proof. reflexivity. Qed.

Lemma string_app_nil (t : string) : "" +:+ t = t.
Proof. reflexivity. Qed.

Lemma string_length_app (s t : string) :
  String.length (s +:+ t) = (String.length s + String.length t)%nat.
Proof.
  induction s as [|a s IH]; [reflexivity|].
  rewrite string_app_cons. simpl. by rewrite IH.
Qed.

Lemma string_app_inj_r (t s1 s2 : string) : s1 +:+ t = s2 +:+ t -> s1 = s2.
Proof.
  revert s2. induction s1 as [|a s1 IH]; intros [|b s2] H.
  - reflexivity.
  - apply (f_equal String.length) in H.
    rewrite string_app_nil, string_length_app in H. simpl in H. lia.
  - apply (f_equal String.length) in H.
    rewrite string_app_nil, string_length_app in H. simpl in H. lia.
  - rewrite !string_app_cons in H. injection H as -> H. f_equal. by apply IH.
Qed.



Lemma foldl_write_dirs {A} (f : filesystem -> A -> string * file) (l : list A) fs :
  fs_dirs (foldl (fun fs a => write_file fs (f fs a).1 (f fs a).2) fs l) = fs_dirs fs.
Proof.
  revert fs. induction l as [|a l IH]; intros fs; simpl; [done|]. by rewrite IH.
Qed.


Lemma read_double_numeral (t : numeral) (rest : list numeral) (d : double) :
  get_double t = Some d ->
  read_double {| is_rest := t :: rest; is_fail := false |}
  = (d, {| is_rest := rest; is_fail := false |}).
Proof. intros Hd. unfold read_double. simpl. by rewrite Hd. Qed.

Lemma read_doubles_succ (n : nat) (s : istream) :
  read_doubles (S n) s
  = let '(d, s1) := read_double s in
    let '(ds, s2) := read_doubles n s1 in (d :: ds, s2).
Proof. reflexivity. Qed.



Lemma lookup_total_chunk (pre c post : list double) (k : nat) :
  (k < length c)%nat -> (pre ++ c ++ post) !!! (length pre + k)%nat = c !!! k.
Proof.
  intros Hk. rewrite lookup_total_app_r by lia.
  replace (length pre + k - length pre)%nat with k by lia.
  by rewrite lookup_total_app_l.
Qed.

Lemma extract_chunk (pre c post : list double) :
  (fun k => (pre ++ c ++ post) !!! (length pre + k)%nat) <$> seq 0 (length c) = c.
Proof.
  apply list_eq. intros k. rewrite list_lookup_fmap.
  destruct (decide (k < length c)%nat) as [Hk|Hk].
  - rewrite lookup_seq_lt by assumption. simpl.
    rewrite lookup_total_chunk by assumption.
    symmetry. apply list_lookup_lookup_total_lt. exact Hk.
  - rewrite lookup_seq_ge by lia. simpl. symmetry. apply lookup_ge_None. lia.
Qed.


Lemma assign_legs (ls : list double) (chunk : nat -> list double) (dim : nat -> nat)
    (js : list nat) :
  forall (pre post : list double) (row : list (list double)),
    ls = pre ++ concat (chunk <$> js) ++ post ->
    (forall j, j ∈ js -> length (chunk j) = dim j) ->
    foldl (fun '(row, index) j =>
             (row ++ [(fun k => ls !!! (index + k)%nat) <$> seq 0 (dim j)],
              (index + dim j)%nat))
          (row, length pre) js
    = (row ++ (chunk <$> js), (length pre + length (concat (chunk <$> js)))%nat).
Proof.
  induction js as [|j js IH]; intros pre post row Hls Hdim.
  - simpl. rewrite app_nil_r. f_equal. lia.
  - rewrite fmap_cons in Hls. simpl in Hls.
    assert (Hj : length (chunk j) = dim j) by (apply Hdim, elem_of_cons; by left).
    cbn [foldl]. rewrite <- Hj.
    assert (Hextract : (fun k => ls !!! (length pre + k)%nat) <$> seq 0 (length (chunk j))
                       = chunk j).
    { rewrite Hls, <- app_assoc. apply extract_chunk. }
    rewrite Hextract.
    replace (length pre + length (chunk j))%nat with (length (pre ++ chunk j))
      by (rewrite length_app; lia).
    rewrite (IH (pre ++ chunk j) post).
    + f_equal.
      * rewrite fmap_cons, <- app_assoc. reflexivity.
      * rewrite fmap_cons. cbn [concat]. rewrite !length_app. lia.
    + rewrite Hls, <- !app_assoc. reflexivity.
    + intros j' Hj'. apply Hdim, elem_of_cons. by right.
Qed.

Lemma assign_sites (L : Lattice) (ls : list double) (chunk : nat -> nat -> list double)
    (sites : list nat) :
  forall (pre post : list double) (lam : list (list (list double))),
    ls = pre ++ concat ((fun i => concat (chunk i <$> seq 0 nleg)) <$> sites) ++ post ->
    (forall i j, i ∈ sites -> length (chunk i j) = vdim_at L i j) ->
    foldl (fun '(lam, index) i =>
             let '(row, index') :=
               foldl (fun '(row, index) j =>
                        (row ++ [(fun k => ls !!! (index + k)%nat) <$> seq 0 (vdim_at L i j)],
                         (index + vdim_at L i j)%nat))
                     ([], index) (seq 0 nleg) in
             (lam ++ [row], index'))
          (lam, length pre) sites
    = (lam ++ ((fun i => chunk i <$> seq 0 nleg) <$> sites),
       (length pre
        + length (concat ((fun i => concat (chunk i <$> seq 0 nleg)) <$> sites)))%nat).
Proof.
  induction sites as [|i sites IH]; intros pre post lam Hls Hdim.
  - simpl. rewrite app_nil_r. f_equal. lia.
  - rewrite fmap_cons in Hls. cbn [concat] in Hls.
    cbn [foldl].
    rewrite (assign_legs ls (chunk i) (vdim_at L i) (seq 0 nleg) pre
               (concat ((fun i => concat (chunk i <$> seq 0 nleg)) <$> sites) ++ post) []).
    + replace (length pre + length (concat (chunk i <$> seq 0 nleg)))%nat
        with (length (pre ++ concat (chunk i <$> seq 0 nleg)))
        by (rewrite length_app; lia).
      rewrite (IH (pre ++ concat (chunk i <$> seq 0 nleg)) post).
      * f_equal.
        -- rewrite app_nil_l, <- app_assoc. reflexivity.
        -- rewrite fmap_cons. cbn [concat]. rewrite !length_app. lia.
      * rewrite Hls, <- !app_assoc. reflexivity.
      * intros i' j Hi'. apply Hdim, elem_of_cons. by right.
    + rewrite Hls, <- !app_assoc. reflexivity.
    + intros j _. apply Hdim, elem_of_cons. by left.
Qed.

Lemma assign_lambda_chunks (L : Lattice) (n : nat) (chunk : nat -> nat -> list double) :
  (forall i j, (i < n)%nat -> length (chunk i j) = vdim_at L i j) ->
  assign_lambda L n (concat ((fun i => concat (chunk i <$> seq 0 nleg)) <$> seq 0 n))
  = (fun i => chunk i <$> seq 0 nleg) <$> seq 0 n.
Proof.
  intros Hdim. unfold assign_lambda.
  rewrite (assign_sites L _ chunk (seq 0 n) [] [] []).
  - reflexivity.
  - by rewrite app_nil_r.
  - intros i j Hi. apply Hdim. apply elem_of_seq in Hi. lia.
Qed.















(** ** The spectra a process holds after loading *)

Lemma read_doubles_tokens (toks more : list numeral) :
  Forall convertible toks ->
  read_doubles (length toks) {| is_rest := toks ++ more; is_fail := false |}
  = (stored_value <$> toks, {| is_rest := more; is_fail := false |}).
Proof.
  induction 1 as [|t toks [d Hd] _ IH]; [reflexivity|].
  cbn [length app]. rewrite read_doubles_succ.
  rewrite (read_double_numeral _ _ d Hd), IH.
  rewrite fmap_cons. do 2 f_equal. unfold stored_value. by rewrite Hd.
Qed.

Lemma read_legs_tokens (toks : nat -> list numeral) (dim : nat -> nat)
    (js : list nat) (more : list numeral) (acc : list double) :
  (forall j, j ∈ js -> length (toks j) = dim j /\ Forall convertible (toks j)) ->
  foldl (fun '(ls, s) j =>
           let '(ds, s') := read_doubles (dim j) s in (ls ++ ds, s'))
        (acc, {| is_rest := concat (toks <$> js) ++ more; is_fail := false |})
        js
  = (acc ++ concat ((fun j => stored_value <$> toks j) <$> js),
     {| is_rest := more; is_fail := false |}).
Proof.
  revert acc. induction js as [|j js IH]; intros acc Hjs; simpl.
  - by rewrite app_nil_r.
  - destruct (Hjs j ltac:(apply elem_of_cons; by left)) as [Hlen Hconv].
    rewrite <- Hlen, <- app_assoc, read_doubles_tokens by assumption.
    rewrite IH.
    + by rewrite <- app_assoc.
    + intros j' Hj'. apply Hjs. apply elem_of_cons. by right.
Qed.

(** What rank 0 reads from the file of site [i]. *)
Lemma read_site_lambda_tokens (L : Lattice) fs (dir : string) (i : nat)
    (toks : nat -> list numeral) (more : list numeral) :
  find_numbers fs (lambda_file dir i) = Some (concat (toks <$> seq 0 nleg) ++ more) ->
  (forall j, (j < nleg)%nat ->
     length (toks j) = vdim_at L i j /\ Forall convertible (toks j)) ->
  read_site_lambda L fs dir i
  = concat ((fun j => stored_value <$> toks j) <$> seq 0 nleg).
Proof.
  intros Hfile Htoks. unfold read_site_lambda. rewrite Hfile. unfold open_in.
  rewrite (read_legs_tokens toks (vdim_at L i) (seq 0 nleg) more []).
  - reflexivity.
  - intros j Hj. apply elem_of_seq in Hj. apply Htoks. lia.
Qed.

(** The buffer of rank 0 before the broadcast holds the values of the
    files, site after site and leg after leg. *)
Lemma local_ls_stored (L : Lattice) (n : nat) fs (dir : string)
    (toks : nat -> nat -> list numeral) :
  spectra_stored L n fs dir toks ->
  local_ls L n fs dir 0 = in_buffer_order (stored_spectra n toks).
Proof.
  intros Hst. unfold local_ls, in_buffer_order, stored_spectra.
  rewrite decide_True by reflexivity. f_equal.
  rewrite <- list_fmap_compose.
  apply list_fmap_ext. intros k i Hk. apply lookup_seq in Hk as [-> Hk]. simpl.
  destruct (Hst k Hk) as [[more Hfile] Htoks].
  by apply (read_site_lambda_tokens L fs dir k (toks k) more).
Qed.

Lemma assign_lambda_stored (L : Lattice) (n : nat) (toks : nat -> nat -> list numeral) :
  (forall i j, (i < n)%nat -> (j < nleg)%nat -> length (toks i j) = vdim_at L i j) ->
  assign_lambda L n (in_buffer_order (stored_spectra n toks)) = stored_spectra n toks.
Proof.
  intros Hlen.
  set (chunk := fun i j => if decide (j < nleg)%nat then stored_value <$> toks i j
                           else replicate (vdim_at L i j) zero).
  assert (Hsame : stored_spectra n toks = (fun i => chunk i <$> seq 0 nleg) <$> seq 0 n).
  { unfold stored_spectra. apply list_fmap_ext. intros k i Hk.
    apply lookup_seq in Hk as [-> Hk].
    apply list_fmap_ext. intros k' j Hk'. apply lookup_seq in Hk' as [-> Hk'].
    unfold chunk. by rewrite decide_True by exact Hk'. }
  rewrite Hsame. rewrite <- (assign_lambda_chunks L n chunk) at 2.
  - unfold in_buffer_order. by rewrite <- list_fmap_compose.
  - intros i j Hi. unfold chunk. destruct (decide (j < nleg)%nat).
    + rewrite length_fmap. by apply Hlen.
    + apply length_replicate.
Qed.

(** C5: with a load directory configured.  When [stat] fails on it,
    [initialize_tensors] throws the error naming the directory right after
    the allocation, with no tensor loaded, and [tenes] ends with that error
    and an empty trace: no load and no update routine was called.  When the
    directory exists and its spectrum files hold the numerals [toks],
    initialization succeeds and the process, whatever its rank, ends with
    the values of those numerals as its spectra.  The files are read on
    rank 0 only: the buffer a process of another rank brings to the
    broadcast is empty, the buffer the broadcast hands out is the one of
    rank 0 with the values of the files, and the reads are recorded after
    the [load] calls on rank 0 and nowhere else.  So two processes of one
    run, of any ranks, hold the same spectra, those of the files; and
    whatever the files hold, two processes of one run end with the same
    spectra. *)
Theorem checkpoint_loading (P : PEPS_Parameters) :
  let dir := tensor_load_dir P in
  dir <> "" ->
  (forall st fs,
     peps_parameters st = P -> stat fs dir = false ->
     initialize_tensors st fs = Thrown (dir +:+ " does not exists.") (allocate st) fs /\
     trace (allocate st) = trace st) /\
  (forall size rank L su fu ops1 ops2 cp fs,
     stat (prepare_outdir rank P fs) dir = false ->
     exists st' fs',
       tenes size rank P L su fu ops1 ops2 cp fs
       = Thrown (dir +:+ " does not exists.") st' fs' /\
       trace st' = []) /\
  (forall st fs toks,
     peps_parameters st = P -> stat fs dir = true ->
     spectra_stored (lattice st) (N_UNIT st) fs dir toks ->
     let values := stored_spectra (N_UNIT st) toks in
     let buffer := local_ls (lattice st) (N_UNIT st) fs dir in
     exists st',
       initialize_tensors st fs = Done st' fs /\
       lambda_tensor st' = values /\
       buffer (mpirank st)
       = (if decide (mpirank st = 0%nat) then in_buffer_order values else []) /\
       bcast buffer 0 = in_buffer_order values /\
       trace st'
       = trace st ++ load_events dir (seq 0 (N_UNIT st)) ++
         (if decide (mpirank st = 0%nat) then read_events dir (N_UNIT st) else [])) /\
  (forall st1 st2 fs toks,
     peps_parameters st1 = P -> peps_parameters st2 = P ->
     lattice st1 = lattice st2 -> N_UNIT st1 = N_UNIT st2 ->
     stat fs dir = true ->
     spectra_stored (lattice st1) (N_UNIT st1) fs dir toks ->
     exists a b,
       initialize_tensors st1 fs = Done a fs /\
       initialize_tensors st2 fs = Done b fs /\
       lambda_tensor a = stored_spectra (N_UNIT st1) toks /\
       lambda_tensor b = lambda_tensor a) /\
  (forall st1 st2 fs,
     peps_parameters st1 = P -> peps_parameters st2 = P ->
     lattice st1 = lattice st2 -> N_UNIT st1 = N_UNIT st2 ->
     stat fs dir = true ->
     exists a b,
       initialize_tensors st1 fs = Done a fs /\
       initialize_tensors st2 fs = Done b fs /\
       lambda_tensor a = lambda_tensor b).
Proof.
  intros dir Hdir.
  assert (Hload : forall st fs toks,
    peps_parameters st = P -> stat fs dir = true ->
    spectra_stored (lattice st) (N_UNIT st) fs dir toks ->
    exists st',
      initialize_tensors st fs = Done st' fs /\
      lambda_tensor st' = stored_spectra (N_UNIT st) toks /\
      trace st'
      = trace st ++ load_events dir (seq 0 (N_UNIT st)) ++
        (if decide (mpirank st = 0%nat) then read_events dir (N_UNIT st) else [])).
  { intros st fs toks <- Hstat Hst.
    destruct (initialize_tensors_existing_dir st fs Hdir Hstat)
      as (st' & Hinit & Hlam & Htrace).
    exists st'. split; [exact Hinit|]. split; [|exact Htrace].
    rewrite Hlam. fold dir. rewrite (local_ls_stored _ _ _ _ _ Hst).
    apply assign_lambda_stored. intros i j Hi Hj.
    destruct (Hst i Hi) as [_ Htoks]. by destruct (Htoks j Hj). }
  split; [|split; [|split; [|split]]].
  - intros st fs <- Hstat. split; [|reflexivity].
    by apply initialize_tensors_missing_dir.
  - intros size rank L su fu ops1 ops2 cp fs Hstat.
    unfold tenes, TeNeS_new.
    set (P' := if decide (rank = 0%nat) then P else set_print_level P PrintLevel_none).
    assert (HP' : tensor_load_dir P' = dir /\ prepare_outdir rank P' fs = prepare_outdir rank P fs).
    { subst P'. destruct (decide (rank = 0%nat)); auto. }
    destruct HP' as [Hd Hfs]. rewrite Hfs.
    rewrite initialize_tensors_missing_dir; simpl; rewrite ?Hd; try assumption.
    eexists _, _. split; reflexivity.
  - intros st fs toks HP Hstat Hst values buffer.
    destruct (Hload st fs toks HP Hstat Hst) as (st' & Hinit & Hlam & Htrace).
    exists st'. split; [exact Hinit|]. split; [exact Hlam|].
    assert (Hroot : buffer 0%nat = in_buffer_order values)
      by (by apply local_ls_stored).
    split; [|split; [exact Hroot | exact Htrace]].
    destruct (decide (mpirank st = 0%nat)) as [->|Hne]; [exact Hroot|].
    subst buffer. unfold local_ls. by rewrite decide_False.
  - intros st1 st2 fs toks H1 H2 HL HN Hstat Hst.
    destruct (Hload st1 fs toks H1 Hstat Hst) as (a & Ha & Hla & _).
    destruct (Hload st2 fs toks H2 Hstat) as (b & Hb & Hlb & _).
    { by rewrite <- HL, <- HN. }
    exists a, b. split; [exact Ha|]. split; [exact Hb|]. split; [exact Hla|].
    by rewrite Hla, Hlb, HN.
  - intros st1 st2 fs H1 H2 HL HN Hstat. subst dir.
    destruct (initialize_tensors_existing_dir st1 fs) as (a & Ha & Hla & _);
      rewrite ?H1; try assumption.
    destruct (initialize_tensors_existing_dir st2 fs) as (b & Hb & Hlb & _);
      rewrite ?H2; try assumption.
    exists a, b. split; [exact Ha|]. split; [exact Hb|].
    rewrite Hla, Hlb, H1, H2, HL, HN. reflexivity.
Qed.

(** ** Undefined one-site entries *)






Lemma save_onesite_fold_sum (ilops : nat) (row : list double) (l : list nat)
    (num : nat) (sum : double) (lines : list text_line) :
  (foldl (fun '(num, sum, lines) i =>
            let v := row !!! i in
            if isnan v then (num, sum, lines)
            else (S num, add sum v, lines ++ [LOnesite ilops i v zero]))
         (num, sum, lines) l).1.2
  = foldl add sum (filter (fun v => isnan v = false) ((fun i => row !!! i) <$> l)).
Proof.
  revert num sum lines.
  induction l as [|i l IH]; intros num sum lines; simpl; [done|].
  rewrite filter_cons. destruct (isnan (row !!! i)) eqn:E.
  - rewrite decide_False by discriminate. apply IH.
  - rewrite decide_True by reflexivity. simpl. apply IH.
Qed.

(** The sum formed by [save_onesite] is the sum of the defined entries
    only. *)
Lemma save_onesite_group_sum (n_unit ilops : nat) (row : list double) :
  (save_onesite_group n_unit ilops row).1.2
  = sum_doubles (filter (fun v => isnan v = false)
                        ((fun i => row !!! i) <$> seq 0 n_unit)).
Proof. apply save_onesite_fold_sum. Qed.

End Properties.


(** * Further properties of the driver *)

Section Coverage.

Context {TL : TensorLib} {RT : @Routines TL}.

Implicit Types (st : TeNeS) (up : NNOperator) (o : Operator) (fs : filesystem).

(** ** The order of bonds and the iteration of a result map *)

Lemma Bond_lt_irrefl (a : Bond) : Bond_lt a a = false.
Proof.
  destruct a as [[s x] y]. unfold Bond_lt.
  rewrite !decide_True by reflexivity. apply Z.ltb_irrefl.
Qed.

Lemma Bond_lt_trans (a b c : Bond) :
  Bond_lt a b = true -> Bond_lt b c = true -> Bond_lt a c = true.
Proof.
  destruct a as [[s1 x1] y1], b as [[s2 x2] y2], c as [[s3 x3] y3].
  unfold Bond_lt.
  repeat (destruct (decide _)); subst;
    rewrite ?Z.ltb_lt, ?Nat.ltb_lt; try lia.
Qed.

Lemma Bond_lt_connex (a b : Bond) :
  Bond_lt a b = false -> Bond_lt b a = false -> a = b.
Proof.
  destruct a as [[s1 x1] y1], b as [[s2 x2] y2].
  unfold Bond_lt.
  repeat (destruct (decide _)); subst;
    rewrite ?Z.ltb_ge, ?Nat.ltb_ge; intros; try congruence;
    try (f_equal; lia); try lia.
Qed.

(** X1: [operator<] on bonds is a strict total order on the triples
    (source site, dx, dy): irreflexive, transitive, and two bonds neither
    of which is below the other are equal.  So a result map keeps one
    entry for each triple. *)
Theorem Bond_lt_strict_total_order :
  (forall a : Bond, Bond_lt a a = false) /\
  (forall a b c : Bond, Bond_lt a b = true -> Bond_lt b c = true -> Bond_lt a c = true) /\
  (forall a b : Bond, Bond_lt a b = false -> Bond_lt b a = false -> a = b).
Proof.
  split; [exact Bond_lt_irrefl|]. split; [exact Bond_lt_trans | exact Bond_lt_connex].
Qed.

#[local] Instance entry_le_total : Total entry_le.
Proof.
  intros a b. unfold entry_le.
  destruct (Bond_lt b.1 a.1) eqn:Hba; [|by left].
  right. destruct (Bond_lt a.1 b.1) eqn:Hab; [|reflexivity].
  pose proof (Bond_lt_trans _ _ _ Hab Hba) as H.
  by rewrite Bond_lt_irrefl in H.
Qed.

#[local] Instance entry_le_trans : Transitive entry_le.
Proof.
  intros a b c. unfold entry_le. intros Hba Hcb.
  destruct (Bond_lt c.1 a.1) eqn:Hca; [|reflexivity].
  destruct (Bond_lt a.1 b.1) eqn:Hab.
  - pose proof (Bond_lt_trans _ _ _ Hca Hab) as H. congruence.
  - pose proof (Bond_lt_connex _ _ Hab Hba) as E. rewrite E in Hca. congruence.
Qed.



(** ** The constructor: operator counts and the site table *)

Lemma same_setup_refl st : same_setup st st.
Proof. repeat split. Qed.

Lemma same_setup_trans st1 st2 st3 :
  same_setup st1 st2 -> same_setup st2 st3 -> same_setup st1 st3.
Proof.
  unfold same_setup. intros H1 H2.
  repeat match goal with H : _ /\ _ |- _ => destruct H end.
  repeat split; congruence.
Qed.

Lemma same_setup_foldl {A : Type} (f : TeNeS -> A -> TeNeS) (l : list A) :
  (forall st a, same_setup st (f st a)) ->
  forall st, same_setup st (foldl f st l).
Proof.
  intros Hf. induction l as [|a l IH]; intros st; simpl.
  - apply same_setup_refl.
  - eapply same_setup_trans; [apply Hf | apply IH].
Qed.

Lemma random_site_setup i (acc : TeNeS * rng * rng) :
  same_setup acc.1.1 (random_site i acc).1.1.
Proof.
  destruct acc as [[st g] gi]. unfold random_site.
  repeat case_match; simpl; repeat split.
Qed.

Lemma random_sites_setup (l : list nat) (acc : TeNeS * rng * rng) :
  same_setup acc.1.1 (foldl (fun acc i => random_site i acc) acc l).1.1.
Proof.
  revert acc. induction l as [|i l IH]; intros acc; simpl.
  - apply same_setup_refl.
  - eapply same_setup_trans; [apply random_site_setup | apply IH].
Qed.

Lemma load_site_setup fs dir st i : same_setup st (load_site fs dir st i).
Proof. repeat split. Qed.

(** Whatever its outcome, [initialize_tensors] keeps the configuration. *)
Lemma initialize_tensors_setup st fs :
  match initialize_tensors st fs with
  | Done st' _ | Thrown _ st' _ => same_setup st st'
  end.
Proof.
  unfold initialize_tensors.
  assert (Ha : same_setup st (allocate st)) by (repeat split).
  generalize dependent (allocate st). intros a Ha. cbv zeta.
  destruct (decide (tensor_load_dir (peps_parameters a) = "")).
  - match goal with
    | |- context [foldl ?f ?x ?l] =>
        pose proof (random_sites_setup l x) as Hs;
        destruct (foldl f x l) as [[st' g'] gi']
    end.
    eapply same_setup_trans; [exact Ha | exact Hs].
  - destruct (negb (stat fs (tensor_load_dir (peps_parameters a)))); [exact Ha|].
    eapply same_setup_trans; [exact Ha|].
    pose proof (same_setup_foldl (load_site fs (tensor_load_dir (peps_parameters a)))
                  (seq 0 (N_UNIT a)) (load_site_setup fs _) a) as Hl.
    set (loaded := foldl _ a _) in *.
    eapply same_setup_trans; [exact Hl|].
    destruct (decide (mpirank loaded = 0%nat)); repeat split.
Qed.

Lemma fold_max_groups (ops : list Operator) (m : Z) :
  let r := foldl (fun maxops o => Z.max (Z.of_nat (group o)) maxops) m ops in
  m <= r /\
  (forall o, o ∈ ops -> Z.of_nat (group o) <= r) /\
  (r = m \/ exists o, o ∈ ops /\ r = Z.of_nat (group o)).
Proof.
  revert m. induction ops as [|o ops IH]; intros m; simpl.
  - split; [lia|]. split; [|by left].
    intros o Ho. by apply elem_of_nil in Ho.
  - destruct (IH (Z.max (Z.of_nat (group o)) m)) as (Hle & Hall & Hex).
    split; [lia|]. split.
    + intros o' Ho'. apply elem_of_cons in Ho' as [->|Ho']; [lia | by apply Hall].
    + destruct Hex as [Hr|(o' & Ho' & Hr)].
      * destruct (Z.max_spec (Z.of_nat (group o)) m) as [[_ E]|[_ E]].
        -- left. by rewrite Hr.
        -- right. exists o. split; [apply elem_of_cons; by left | by rewrite Hr].
      * right. exists o'. split; [apply elem_of_cons; by right | exact Hr].
Qed.

Lemma count_groups_above (ops : list Operator) o :
  o ∈ ops -> (group o < count_groups ops)%nat.
Proof.
  intros Ho. unfold count_groups.
  destruct (fold_max_groups ops (-1)) as (_ & Hall & _).
  specialize (Hall o Ho). cbv zeta in Hall. lia.
Qed.


(** *** Tables written cell by cell *)

Lemma cell_total {A : Type} `{Inhabited A} (tbl : list (list A)) (s g : nat) (v : A) :
  cell tbl s g = Some v -> (tbl !!! s) !!! g = v.
Proof.
  unfold cell. intros Hc.
  destruct (tbl !! s) as [row|] eqn:Hrow; [|discriminate]. simpl in Hc.
  rewrite (list_lookup_total_correct _ _ _ Hrow).
  by apply list_lookup_total_correct.
Qed.

Lemma cell_replicate {A : Type} (n m : nat) (x : A) (s g : nat) :
  (s < n)%nat -> (g < m)%nat -> cell (replicate n (replicate m x)) s g = Some x.
Proof.
  intros Hs Hg. unfold cell.
  rewrite lookup_replicate_2 by assumption. simpl.
  by rewrite lookup_replicate_2.
Qed.

(** [tbl[i][k] = c]: the cell written holds [c] when it exists, every
    other cell is unchanged. *)
Lemma cell_write {A : Type} (tbl : list (list A)) (i k : nat) (c : A) (s l : nat) :
  cell (alter (fun v => <[k := c]> v) i tbl) s l
  = if decide (s = i /\ l = k)
    then match cell tbl i k with Some _ => Some c | None => None end
    else cell tbl s l.
Proof.
  unfold cell. rewrite list_lookup_alter.
  destruct (decide (i = s)) as [->|Hne].
  - destruct (tbl !! s) as [row|] eqn:Hrow; simpl.
    + rewrite list_lookup_insert.
      destruct (decide (l = k)) as [->|Hlk].
      * rewrite (decide_True (P := s = s /\ k = k)) by auto.
        destruct (row !! k) eqn:Hk.
        -- rewrite decide_True; [done|]. split; [done|].
           apply lookup_lt_is_Some; eauto.
        -- rewrite decide_False; [done|]. intros [_ Hlt].
           apply lookup_lt_is_Some in Hlt as [? ?]. congruence.
      * rewrite decide_False by (intros [? ?]; congruence).
        rewrite decide_False by (intros [_ ?]; congruence). reflexivity.
    + destruct (decide _); reflexivity.
  - rewrite decide_False by (intros [? _]; congruence). reflexivity.
Qed.

Lemma cell_write_is_Some {A : Type} (tbl : list (list A)) (i k : nat) (c : A) (s l : nat) :
  is_Some (cell tbl s l) -> is_Some (cell (alter (fun v => <[k := c]> v) i tbl) s l).
Proof.
  intros Hs. rewrite cell_write.
  destruct (decide _) as [[-> ->]|_]; [|exact Hs].
  destruct Hs as [v ->]. eauto.
Qed.

Section TableFold.

Context {A B : Type} (row col : B -> nat) (val : B -> A).

Let write (acc : list (list A)) (b : B) : list (list A) :=
  alter (fun rw => <[col b := val b]> rw) (row b) acc.

Lemma table_fold_is_Some (l : list B) (tbl : list (list A)) (r c : nat) :
  is_Some (cell tbl r c) -> is_Some (cell (foldl write tbl l) r c).
Proof.
  revert tbl. induction l as [|b l IH]; intros tbl Hs; simpl; [exact Hs|].
  apply IH. by apply cell_write_is_Some.
Qed.

Lemma table_fold_untouched (l : list B) (tbl : list (list A)) (r c : nat) :
  (forall b, b ∈ l -> ~ (row b = r /\ col b = c)) ->
  cell (foldl write tbl l) r c = cell tbl r c.
Proof.
  revert tbl. induction l as [|b l IH]; intros tbl Hnone; simpl; [done|].
  rewrite IH by (intros b' Hb'; apply Hnone, elem_of_cons; by right).
  unfold write. rewrite cell_write.
  rewrite decide_False; [done|].
  intros [-> ->]. by apply (Hnone b); [apply elem_of_cons; left|].
Qed.

Lemma table_fold_last (pre post : list B) (b : B) (tbl : list (list A)) :
  is_Some (cell tbl (row b) (col b)) ->
  (forall b', b' ∈ post -> ~ (row b' = row b /\ col b' = col b)) ->
  cell (foldl write tbl (pre ++ b :: post)) (row b) (col b) = Some (val b).
Proof.
  intros Hs Hnone. rewrite foldl_app. simpl.
  rewrite table_fold_untouched by exact Hnone.
  unfold write at 1. rewrite cell_write.
  rewrite decide_True by auto.
  apply (table_fold_is_Some pre) in Hs. fold write in Hs.
  by destruct Hs as [v ->].
Qed.

End TableFold.

Lemma make_site_ops_indices_unassigned (n nlops : nat) (ops : list Operator) (s g : nat) :
  (s < n)%nat -> (g < nlops)%nat ->
  (forall o, o ∈ ops -> ~ placed_at o s g) ->
  cell (make_site_ops_indices n nlops ops) s g = Some (-1).
Proof.
  intros Hs Hg Hnone. unfold make_site_ops_indices.
  rewrite (table_fold_untouched (fun io : nat * Operator => source_site io.2)
             (fun io => group io.2) (fun io => Z.of_nat io.1)).
  - by apply cell_replicate.
  - intros [k o] Hin. simpl.
    apply elem_of_lookup_imap in Hin as (k' & o' & Heq & Hlook).
    injection Heq as -> ->. apply Hnone. by eapply list_elem_of_lookup_2.
Qed.

Lemma make_site_ops_indices_last (n nlops : nat) (pre post : list Operator) o :
  (source_site o < n)%nat -> (group o < nlops)%nat ->
  (forall o', o' ∈ post -> ~ placed_at o' (source_site o) (group o)) ->
  cell (make_site_ops_indices n nlops (pre ++ o :: post)) (source_site o) (group o)
  = Some (Z.of_nat (length pre)).
Proof.
  intros Hs Hg Hnone. unfold make_site_ops_indices.
  rewrite imap_app, imap_cons.
  rewrite (table_fold_last (fun io : nat * Operator => source_site io.2)
             (fun io => group io.2) (fun io => Z.of_nat io.1)
             (imap pair pre) _ (length pre + 0, o)%nat).
  - simpl. do 2 f_equal. lia.
  - simpl. eexists. by apply cell_replicate.
  - intros [k o'] Hin. simpl.
    apply elem_of_lookup_imap in Hin as (k' & o'' & Heq & Hlook).
    injection Heq as -> ->. apply Hnone. by eapply list_elem_of_lookup_2.
Qed.

Lemma TeNeS_new_eq size rank (P : PEPS_Parameters) (L : Lattice)
    (su fu : list NNOperator) (ops1 ops2 : list Operator) cp fs :
  TeNeS_new size rank P L su fu ops1 ops2 cp fs
  = match initialize_tensors
            (fresh_object size rank (rank_parameters rank P) L su fu ops1 ops2 cp)
            (prepare_outdir rank (rank_parameters rank P) fs) with
    | Thrown msg st fs' => Thrown msg st fs'
    | Done st fs' => Done (set_operator_tables st) fs'
    end.
Proof. reflexivity. Qed.

(** The object a successful construction returns. *)
Lemma TeNeS_new_Done size rank (P : PEPS_Parameters) (L : Lattice)
    (su fu : list NNOperator) (ops1 ops2 : list Operator) cp fs st fs' :
  TeNeS_new size rank P L su fu ops1 ops2 cp fs = Done st fs' ->
  mpirank st = rank /\ peps_parameters st = rank_parameters rank P /\
  simple_updates st = su /\ full_updates st = fu /\
  onesite_operators st = ops1 /\ twosite_operators st = ops2 /\
  corparam st = cp /\ N_UNIT st = lat_N_UNIT L /\
  LX st = lat_LX L /\ LY st = lat_LY L /\
  outdir st = outdir_of (rank_parameters rank P) /\
  num_onesite_operators st = count_groups ops1 /\
  num_twosite_operators st = count_groups ops2 /\
  site_ops_indices st
  = make_site_ops_indices (lat_N_UNIT L) (count_groups ops1) ops1.
Proof.
  rewrite TeNeS_new_eq. intros Hnew.
  pose proof (initialize_tensors_setup
                (fresh_object size rank (rank_parameters rank P) L su fu ops1 ops2 cp)
                (prepare_outdir rank (rank_parameters rank P) fs)) as Hset.
  destruct (initialize_tensors _ _) as [st1 fs1|msg st1 fs1]; [|discriminate].
  injection Hnew as <- <-.
  destruct Hset as (H1 & H2 & H3 & H4 & H5 & H6 & H7 & H8 & H9 & H10 & H11 & H12
                    & H13 & H14 & H15 & H16).
  split; [exact H2|]. split; [exact H3|]. split; [exact H4|]. split; [exact H5|].
  split; [exact H6|]. split; [exact H7|]. split; [exact H11|]. split; [exact H15|].
  split; [exact H13|]. split; [exact H14|]. split; [exact H16|].
  change (count_groups (onesite_operators st1) = count_groups ops1 /\
          count_groups (twosite_operators st1) = count_groups ops2 /\
          make_site_ops_indices (N_UNIT st1) (count_groups (onesite_operators st1))
                                (onesite_operators st1)
          = make_site_ops_indices (lat_N_UNIT L) (count_groups ops1) ops1).
  rewrite H6, H7, H15. auto.
Qed.

(** X4: the table [site_ops_indices] of a constructed object.  A cell
    in range that no one-site operator is placed at holds [-1]; for an
    operator placed at a site of the lattice and not followed in the list
    by another operator of its site and group, the cell holds the position
    of that operator (the last one wins), and the operator found through
    the table is that one. *)
Theorem constructor_site_table size rank (P : PEPS_Parameters) (L : Lattice)
    (su fu : list NNOperator) (ops1 ops2 : list Operator) cp fs st fs' :
  TeNeS_new size rank P L su fu ops1 ops2 cp fs = Done st fs' ->
  (forall s g, (s < lat_N_UNIT L)%nat -> (g < num_onesite_operators st)%nat ->
     (forall o, o ∈ ops1 -> ~ placed_at o s g) ->
     siteoperator_index st s g = -1) /\
  (forall pre o post, ops1 = pre ++ o :: post ->
     (source_site o < lat_N_UNIT L)%nat ->
     (forall o', o' ∈ post -> ~ placed_at o' (source_site o) (group o)) ->
     siteoperator_index st (source_site o) (group o) = Z.of_nat (length pre) /\
     onesite_op st (siteoperator_index st (source_site o) (group o)) = op o).
Proof.
  intros Hnew.
  destruct (TeNeS_new_Done _ _ _ _ _ _ _ _ _ _ _ _ Hnew)
    as (_ & _ & _ & _ & Hops & _ & _ & _ & _ & _ & _ & Hn1 & _ & Htab).
  unfold siteoperator_index. rewrite Htab, Hn1. split.
  - intros s g Hs Hg Hnone. apply cell_total.
    by apply make_site_ops_indices_unassigned.
  - intros pre o post -> Hs Hnone.
    assert (Hg : (group o < count_groups (pre ++ o :: post))%nat).
    { apply count_groups_above. apply elem_of_app. right. apply elem_of_cons. by left. }
    rewrite (cell_total _ _ _ _ (make_site_ops_indices_last _ _ pre post o Hs Hg Hnone)).
    split; [reflexivity|].
    unfold onesite_op. rewrite Hops, Nat2Z.id.
    by rewrite list_lookup_middle.
Qed.

(** ** One-site observables *)

Lemma onesite_norm st (i : nat) :
  (i < N_UNIT st)%nat ->
  ((fun i => contract_site st i (op_identity st !!! i)) <$> seq 0 (N_UNIT st)) !!! i
  = contract_site st i (op_identity st !!! i).
Proof.
  intros Hi. apply list_lookup_total_correct.
  by rewrite list_lookup_fmap, lookup_seq_lt.
Qed.

(** X5: the entries of [measure_onesite].  Where no operator of the
    group is placed at the site the entry is not-a-number; otherwise it is
    the contraction of the last operator of the list placed there, divided
    by the contraction of the identity at that site. *)
Theorem measure_onesite_entries st (g i : nat) :
  (g < num_onesite_operators st)%nat -> (i < N_UNIT st)%nat ->
  let entry := (measure_onesite st !!! g) !!! i in
  ((forall o, o ∈ onesite_operators st -> ~ placed_at o i g) ->
   entry = quiet_NaN) /\
  (forall pre o post,
     onesite_operators st = pre ++ o :: post ->
     placed_at o i g ->
     (forall o', o' ∈ post -> ~ placed_at o' i g) ->
     entry = div (contract_site st i (op o))
                 (contract_site st i (op_identity st !!! i))).
Proof.
  intros Hg Hi entry. subst entry. unfold measure_onesite.
  set (norm := _ <$> seq 0 (N_UNIT st)).
  set (val := fun o : Operator =>
                div (contract_site st (source_site o) (op o)) (norm !!! source_site o)).
  assert (Hinit : cell (replicate (num_onesite_operators st)
                                  (replicate (N_UNIT st) quiet_NaN)) g i
                  = Some quiet_NaN) by (by apply cell_replicate).
  split.
  - intros Hnone. apply cell_total.
    rewrite (table_fold_untouched group source_site val); [exact Hinit|].
    intros o Ho [Hgo Hio]. by apply (Hnone o Ho).
  - intros pre o post Hops [Hio Hgo] Hnone. apply cell_total.
    rewrite Hops. subst g i.
    rewrite (table_fold_last group source_site val pre post o).
    + unfold val. subst norm. by rewrite onesite_norm.
    + by rewrite Hinit.
    + intros o' Ho' [Hg' Hi']. by apply (Hnone o' Ho').
Qed.

(** ** The table of one-site observables *)

Lemma save_onesite_fold (ilops : nat) (row : list double) (l : list nat)
    (num : nat) (sum : double) (lines : list text_line) :
  let kept := filter (fun i => isnan (row !!! i) = false) l in
  foldl (fun '(num, sum, lines) i =>
           let v := row !!! i in
           if isnan v then (num, sum, lines)
           else (S num, add sum v, lines ++ [LOnesite ilops i v zero]))
        (num, sum, lines) l
  = ((num + length kept)%nat,
     foldl add sum ((fun i => row !!! i) <$> kept),
     lines ++ ((fun i => LOnesite ilops i (row !!! i) zero) <$> kept)).
Proof.
  revert num sum lines.
  induction l as [|i l IH]; intros num sum lines; simpl.
  - by rewrite Nat.add_0_r, app_nil_r.
  - rewrite filter_cons. destruct (isnan (row !!! i)) eqn:E.
    + rewrite decide_False by discriminate. apply IH.
    + rewrite decide_True by reflexivity. rewrite IH. simpl.
      rewrite <- app_assoc. simpl. do 2 f_equal. lia.
Qed.

(** X6: for one operator group, [save_onesite] counts, sums and writes
    exactly the sites below [N_UNIT] whose entry is not not-a-number, in
    ascending order, the sum being accumulated from 0.0 in that order. *)
Theorem save_onesite_skips_undefined (n_unit ilops : nat) (row : list double) :
  let kept := defined_sites n_unit row in
  save_onesite_group n_unit ilops row
  = (length kept,
     sum_doubles ((fun i => row !!! i) <$> kept),
     (fun i => LOnesite ilops i (row !!! i) zero) <$> kept) /\
  (forall i, i ∈ kept <-> (i < n_unit)%nat /\ isnan (row !!! i) = false).
Proof.
  intros kept. split.
  - unfold save_onesite_group. by rewrite save_onesite_fold.
  - intros i. subst kept. unfold defined_sites.
    rewrite list_elem_of_filter, elem_of_seq. simpl. split.
    + intros [Hn [_ Hi]]. auto.
    + intros [Hi Hn]. split; [exact Hn | lia].
Qed.

(** ** What [measure] writes *)


Lemma string_app_inj_l (s t1 t2 : string) : s +:+ t1 = s +:+ t2 -> t1 = t2.
Proof.
  induction s as [|a s IH]; simpl; [done|].
  intros H. injection H as H. by apply IH.
Qed.







(** ** The calls of the update methods *)












(** ** The three outcomes of a two-site request *)



(** ** The constructor on the processes of a run *)



(** ** Spectra read back from a checkpoint *)








(** ** The records of [measure_correlation] *)

Lemma foldl_keeps_in {A B : Type} (f : A -> B -> A) (Q : A -> Prop) (l : list B) :
  (forall a b, b ∈ l -> Q a -> Q (f a b)) -> forall a, Q a -> Q (foldl f a l).
Proof.
  induction l as [|b l IH]; intros Hkeep a Ha; simpl; [exact Ha|].
  apply IH.
  - intros a' b' Hb'. apply Hkeep. apply elem_of_cons. by right.
  - apply Hkeep; [apply elem_of_cons; by left | exact Ha].
Qed.

Lemma upto_elem (n r : Z) : r ∈ upto n <-> 0 <= r < n.
Proof.
  unfold upto. rewrite list_elem_of_fmap. split.
  - intros (k & -> & Hk). apply elem_of_seq in Hk. lia.
  - intros Hr. exists (Z.to_nat r). split; [lia|]. apply elem_of_seq. lia.
Qed.

(** [r_ops[lo]] lists the partners requested for [lo], in the order and
    with the repetitions of the request list. *)
Lemma r_ops_of_fold (ops : list (nat * nat)) (lo : nat) :
  forall acc : list (list nat),
    foldl (fun (acc : list (list nat)) (p : nat * nat) =>
             alter (fun v => v ++ [p.2]) p.1 acc) acc ops !!! lo
    = acc !!! lo ++ (if decide (lo < length acc)%nat
                     then snd <$> filter (fun p => p.1 = lo) ops else []).
Proof.
  induction ops as [|[a b] ops IH]; intros acc.
  - simpl. destruct (decide _); by rewrite app_nil_r.
  - cbn [foldl fst snd]. rewrite IH, length_alter.
    rewrite list_lookup_total_alter.
    destruct (decide (lo < length acc)%nat) as [Hlt|Hge].
    + rewrite filter_cons. cbn [fst].
      destruct (decide (a = lo)) as [->|Hne].
      * rewrite decide_True by auto. by rewrite <- app_assoc.
      * rewrite decide_False by (intros [? _]; congruence). reflexivity.
    + destruct (decide (a = lo ∧ (a < length acc)%nat)) as [[-> ?]|_]; [lia|].
      reflexivity.
Qed.

Lemma r_ops_of_requests (nlops : nat) (ops : list (nat * nat)) (lo : nat) :
  r_ops_of nlops ops !!! lo
  = if decide (lo < nlops)%nat then snd <$> filter (fun p => p.1 = lo) ops else [].
Proof.
  unfold r_ops_of. rewrite r_ops_of_fold, length_replicate.
  destruct (decide (lo < nlops)%nat) as [Hlt|Hge].
  - by rewrite lookup_total_replicate_2.
  - rewrite list_lookup_total_alt.
    by rewrite lookup_ge_None_2 by (rewrite length_replicate; lia).
Qed.

Lemma push_correlations_all (Q : Correlation -> Prop) st li ri ox oy lo rops close norm :
  (forall ro v, ro ∈ rops ->
     Q {| left_index := li; right_index := ri; offset_x := ox; offset_y := oy;
          left_op := lo; right_op := ro; real := v; imag := zero |}) ->
  forall cs, (forall c, c ∈ cs -> Q c) ->
  forall c, c ∈ push_correlations st li ri ox oy lo rops close norm cs -> Q c.
Proof.
  unfold push_correlations.
  induction rops as [|ro rops IH]; intros Hnew cs Hcs; simpl; [exact Hcs|].
  apply IH.
  - intros ro' v Hro'. apply Hnew. apply elem_of_cons. by right.
  - destruct (_ <? 0); [exact Hcs|].
    intros c Hc. apply elem_of_app in Hc as [Hc|Hc]; [by apply Hcs|].
    apply list_elem_of_singleton in Hc as ->.
    apply Hnew. apply elem_of_cons. by left.
Qed.

Lemma correlation_left_op_asked st li (acc : corr_acc) lo :
  (li < N_UNIT st)%nat ->
  (forall c, c ∈ acc.2 -> asked_for st c) ->
  forall c,
    c ∈ (correlation_left_op st li
           (r_ops_of (num_onesite_operators st) (operators (corparam st))) acc lo).2 ->
    asked_for st c.
Proof.
  intros Hli Hacc. unfold correlation_left_op.
  pose proof (r_ops_of_requests (num_onesite_operators st)
                                (operators (corparam st)) lo) as Hrops.
  destruct (r_ops_of _ _ !!! lo) as [|ro0 rops0] eqn:E; [exact Hacc|].
  set (rops := ro0 :: rops0) in *.
  assert (Hreq : forall ro, ro ∈ rops -> requested st lo ro).
  { intros ro Hro. rewrite Hrops in Hro.
    destruct (decide (lo < num_onesite_operators st)%nat) as [Hlo|];
      [|by apply elem_of_nil in Hro].
    apply list_elem_of_fmap in Hro as ([a b] & -> & Hin).
    apply list_elem_of_filter in Hin as [Ha Hin]. cbn [fst snd] in *. subst a.
    split; assumption. }
  destruct (_ <? 0); [exact Hacc|].
  apply (foldl_keeps_in _ (fun a : corr_acc => forall c, c ∈ a.2 -> asked_for st c)).
  { intros a r Hr Ha. apply upto_elem in Hr. rewrite vertical_step_eq. cbn [fst snd].
    apply push_correlations_all; [|exact Ha].
    intros ro v Hro. split; [exact Hli|]. split; [by apply Hreq|].
    split; [reflexivity|]. exists r. split; [exact Hr|]. right. by repeat split. }
  cbn [fst snd].
  apply (foldl_keeps_in _ (fun a : corr_acc => forall c, c ∈ a.2 -> asked_for st c)).
  { intros a r Hr Ha. apply upto_elem in Hr. rewrite horizontal_step_eq. cbn [fst snd].
    apply push_correlations_all; [|exact Ha].
    intros ro v Hro. split; [exact Hli|]. split; [by apply Hreq|].
    split; [reflexivity|]. exists r. split; [exact Hr|]. left. by repeat split. }
  exact Hacc.
Qed.

(** X14: every record of [measure_correlation] was asked for: its
    left site is a site of the unit cell, its pair of operators is in the
    request list with the left operator a one-site group, its imaginary
    part is 0.0, and its right site and offset are those reached after
    [r + 1] steps along one of the two axes for some radius
    [0 <= r < r_max].  Nothing is returned when [r_max <= 0] or when the
    request list is empty, and the partners tried for a left operator are
    those of the request list, in its order and with its repetitions. *)
Theorem measure_correlation_only_requested st :
  (forall c, c ∈ measure_correlation st -> asked_for st c) /\
  (r_max (corparam st) <= 0 -> measure_correlation st = []) /\
  (operators (corparam st) = [] -> measure_correlation st = []) /\
  (forall lo, (lo < num_onesite_operators st)%nat ->
     r_ops_of (num_onesite_operators st) (operators (corparam st)) !!! lo
     = snd <$> filter (fun p => p.1 = lo) (operators (corparam st))).
Proof.
  split; [|split; [|split]].
  - unfold measure_correlation.
    apply (foldl_keeps_in _ (fun cs : list Correlation =>
                               forall c, c ∈ cs -> asked_for st c)).
    + intros cs li Hli Hcs. apply elem_of_seq in Hli. unfold correlation_left_site.
      apply (foldl_keeps _ (fun a : corr_acc => forall c, c ∈ a.2 -> asked_for st c)).
      * intros a lo. apply correlation_left_op_asked. lia.
      * exact Hcs.
    + intros c Hc. by apply elem_of_nil in Hc.
  - intros Hr. destruct (measure_correlation st) as [|c cs] eqn:E; [reflexivity|].
    exfalso.
    assert (Hc : c ∈ measure_correlation st) by (rewrite E; apply elem_of_cons; by left).
    revert Hc. unfold measure_correlation.
    apply (foldl_keeps _ (fun cs : list Correlation => c ∉ cs)).
    + intros cs' li Hcs'. unfold correlation_left_site.
      apply (foldl_keeps _ (fun a : corr_acc => c ∉ a.2)); [|exact Hcs'].
      intros a lo Ha. unfold correlation_left_op.
      destruct (_ !!! lo); [exact Ha|]. destruct (_ <? 0); [exact Ha|].
      unfold upto. replace (Z.to_nat (r_max (corparam st))) with 0%nat by lia.
      exact Ha.
    + apply not_elem_of_nil.
  - intros Hops. destruct (measure_correlation st) as [|c cs] eqn:E; [reflexivity|].
    exfalso.
    assert (Hc : c ∈ measure_correlation st) by (rewrite E; apply elem_of_cons; by left).
    revert Hc. unfold measure_correlation.
    apply (foldl_keeps _ (fun cs : list Correlation => c ∉ cs)).
    + intros cs' li Hcs'. unfold correlation_left_site.
      apply (foldl_keeps _ (fun a : corr_acc => c ∉ a.2)); [|exact Hcs'].
      intros a lo Ha. unfold correlation_left_op.
      rewrite r_ops_of_requests, Hops. destruct (decide _); exact Ha.
    + apply not_elem_of_nil.
  - intros lo Hlo. rewrite r_ops_of_requests. by rewrite decide_True by exact Hlo.
Qed.

(** ** The tensors of a checkpoint *)

Lemma string_app_assoc (s t u : string) : (s +:+ t) +:+ u = s +:+ (t +:+ u).
Proof.
  induction s as [|a s IH]; [reflexivity|].
  rewrite !string_app_cons. by rewrite IH.
Qed.

Lemma site_file_inj dir (k k' : tensor_kind) (i i' : nat) :
  site_file dir (kind_name k) i = site_file dir (kind_name k') i' -> k = k' /\ i = i'.
Proof.
  unfold site_file. rewrite !string_app_assoc. intros H.
  apply string_app_inj_l in H.
  destruct k, k'; cbn [kind_name] in H; rewrite ?string_app_cons, ?string_app_nil in H;
    try discriminate H;
    (split; [reflexivity|]);
    repeat (injection H as H);
    apply string_app_inj_r in H; by apply (inj pretty) in H.
Qed.

Lemma site_file_not_lambda dir (k : tensor_kind) (i i' : nat) :
  site_file dir (kind_name k) i <> lambda_file dir i'.
Proof.
  unfold site_file, lambda_file. rewrite !string_app_assoc. intros H.
  apply string_app_inj_l in H.
  destruct k; cbn [kind_name] in H; rewrite ?string_app_cons, ?string_app_nil in H;
    discriminate H.
Qed.

Lemma write_all_lookup (ws : list (string * file)) (p : string) (c : file) :
  (forall c', (p, c') ∈ ws -> c' = c) ->
  forall fs, (p, c) ∈ ws \/ fs_files fs !! p = Some c ->
             fs_files (write_all fs ws) !! p = Some c.
Proof.
  unfold write_all. induction ws as [|[q d] ws IH]; intros Hfun fs Hcase; simpl.
  - destruct Hcase as [H|H]; [by apply elem_of_nil in H | exact H].
  - apply IH.
    + intros c' Hc'. apply Hfun. apply elem_of_cons. by right.
    + destruct (decide (q = p)) as [->|Hne].
      * right. cbn [write_file fs_files].
        rewrite (Hfun d) by (apply elem_of_cons; by left). apply lookup_insert_eq.
      * destruct Hcase as [H|H].
        -- left. apply elem_of_cons in H as [H|H]; [congruence | exact H].
        -- right. cbn [write_file fs_files]. by rewrite lookup_insert_ne.
Qed.

Lemma write_all_untouched (ws : list (string * file)) (p : string) :
  p ∉ ws.*1 -> forall fs, fs_files (write_all fs ws) !! p = fs_files fs !! p.
Proof.
  unfold write_all. induction ws as [|[q d] ws IH]; intros Hp fs; simpl; [done|].
  rewrite fmap_cons in Hp. apply not_elem_of_cons in Hp as [Hne Hp].
  rewrite IH by exact Hp. cbn [write_file fs_files]. by rewrite lookup_insert_ne.
Qed.

Lemma write_all_app fs (ws1 ws2 : list (string * file)) :
  write_all fs (ws1 ++ ws2) = write_all (write_all fs ws1) ws2.
Proof. unfold write_all. apply foldl_app. Qed.

Lemma foldl_write_other (name : nat -> string) (content : nat -> file)
    (l : list nat) (p : string) :
  (forall i, name i <> p) ->
  forall fs,
    fs_files (foldl (fun (fs : filesystem) (a : nat) => write_file fs (name a) (content a))
                    fs l) !! p
    = fs_files fs !! p.
Proof.
  intros Hne. induction l as [|a l IH]; intros fs; simpl; [done|].
  rewrite IH. cbn [write_file fs_files]. by rewrite lookup_insert_ne.
Qed.

Lemma save_site_writes dir st fs (i : nat) :
  save_site dir st fs i = write_all fs (site_writes dir st i).
Proof. reflexivity. Qed.

Lemma save_sites_writes dir st (l : list nat) :
  forall fs, foldl (save_site dir st) fs l
             = write_all fs (concat (site_writes dir st <$> l)).
Proof.
  induction l as [|i l IH]; intros fs; [reflexivity|].
  cbn [foldl fmap list_fmap concat]. by rewrite write_all_app, IH, save_site_writes.
Qed.

Lemma elem_of_concat {A : Type} (x : A) (ls : list (list A)) :
  x ∈ concat ls <-> exists l, x ∈ l /\ l ∈ ls.
Proof.
  induction ls as [|l ls IH]; simpl.
  - split; [intros H; by apply elem_of_nil in H|].
    intros (l & _ & H). by apply elem_of_nil in H.
  - rewrite elem_of_app, IH. split.
    + intros [H|(l' & H1 & H2)].
      * exists l. split; [exact H | apply elem_of_cons; by left].
      * exists l'. split; [exact H1 | apply elem_of_cons; by right].
    + intros (l' & H1 & H2). apply elem_of_cons in H2 as [->|H2]; [by left|].
      right. eauto.
Qed.

Lemma site_writes_elem dir st (l : list nat) (p : string) (c : file) :
  (p, c) ∈ concat (site_writes dir st <$> l) <->
  exists i k, i ∈ l /\ p = site_file dir (kind_name k) i /\
              c = FDump (tensor_save (tensors_of st k !!! i)).
Proof.
  rewrite elem_of_concat. split.
  - intros (ws & Hin & Hws). apply list_elem_of_fmap in Hws as (i & -> & Hi).
    unfold site_writes in Hin. apply list_elem_of_fmap in Hin as (k & Heq & _).
    injection Heq as -> ->. eauto.
  - intros (i & k & Hi & -> & ->). exists (site_writes dir st i). split.
    + unfold site_writes. apply list_elem_of_fmap. exists k. split; [done|].
      destruct k; unfold all_kinds; set_solver.
    + apply list_elem_of_fmap. eauto.
Qed.

(** What [save_tensors] leaves in the file of every tensor. *)
Lemma save_tensors_dumps st fs (k : tensor_kind) (i : nat) :
  let dir := tensor_save_dir (peps_parameters st) in
  dir <> "" -> (i < N_UNIT st)%nat ->
  find_dump (save_tensors st fs).2 (site_file dir (kind_name k) i)
  = Some (tensor_save (tensors_of st k !!! i)).
Proof.
  intros dir Hdir Hi. unfold save_tensors. fold dir.
  rewrite decide_False by assumption.
  set (fs1 := if decide (mpirank st = 0%nat) then _ else fs).
  rewrite save_sites_writes.
  assert (Hsite : fs_files (write_all fs1 (concat (site_writes dir st <$> seq 0 (N_UNIT st))))
                    !! site_file dir (kind_name k) i
                  = Some (FDump (tensor_save (tensors_of st k !!! i)))).
  { apply write_all_lookup.
    - intros c' Hc'. apply site_writes_elem in Hc' as (i' & k' & _ & Heq & ->).
      apply site_file_inj in Heq as [-> ->]. reflexivity.
    - left. apply site_writes_elem. exists i, k. split; [|done].
      apply elem_of_seq. lia. }
  unfold find_dump. cbn [mpirank emit].
  destruct (decide (mpirank st = 0%nat)); cbn [snd]; [|by rewrite Hsite].
  rewrite (foldl_write_other (lambda_file dir) (fun i => FNumbers (lambda_lines _ i))).
  - by rewrite Hsite.
  - intros i' E. by apply (site_file_not_lambda dir k i i').
Qed.

Lemma load_site_tensors fs dir st (i : nat) (k : tensor_kind) :
  tensors_of (load_site fs dir st i) k
  = load_at fs dir (kind_name k) i (tensors_of st k).
Proof. by destruct k. Qed.

Lemma load_sites_tensors fs dir (k : tensor_kind) (l : list nat) :
  forall st,
    tensors_of (foldl (load_site fs dir) st l) k
    = foldl (fun v i => load_at fs dir (kind_name k) i v) (tensors_of st k) l.
Proof.
  induction l as [|i l IH]; intros st; [reflexivity|].
  cbn [foldl]. by rewrite IH, load_site_tensors.
Qed.

Lemma load_at_fold fs dir (kind : string) (l : list nat) (i : nat) :
  NoDup l ->
  forall v : list ptensor,
    foldl (fun v i => load_at fs dir kind i v) v l !!! i
    = if decide (i ∈ l ∧ (i < length v)%nat)
      then tensor_load (v !!! i) (find_dump fs (site_file dir kind i))
      else v !!! i.
Proof.
  induction 1 as [|a l Ha Hl IH]; intros v.
  - cbn [foldl]. rewrite decide_False; [done|]. intros [H _]. by apply elem_of_nil in H.
  - cbn [foldl]. rewrite IH.
    assert (Hlen : length (load_at fs dir kind a v) = length v)
      by (unfold load_at; apply length_alter).
    assert (Hlook : load_at fs dir kind a v !!! i
                    = if decide (a = i ∧ (a < length v)%nat)
                      then tensor_load (v !!! a) (find_dump fs (site_file dir kind a))
                      else v !!! i)
      by (unfold load_at; rewrite list_lookup_total_alter; reflexivity).
    rewrite Hlen, Hlook. clear Hlen Hlook.
    destruct (decide (a = i)) as [->|Hne].
    + rewrite (decide_False (P := i ∈ l ∧ _)) by (intros [? _]; done).
      destruct (decide (i < length v)%nat) as [Hlt|Hge].
      * rewrite !decide_True; [done | | done]. split; [apply elem_of_cons; by left | done].
      * rewrite !decide_False; [done | | ]; intros [? ?]; done.
    + rewrite (decide_False (P := a = i ∧ _)) by (intros [? _]; done).
      destruct (decide (i ∈ l ∧ (i < length v)%nat)) as [[Hin Hlt]|Hno].
      * rewrite decide_True; [done|]. split; [apply elem_of_cons; by right | done].
      * rewrite decide_False; [done|]. intros [Hin Hlt]. apply Hno.
        apply elem_of_cons in Hin as [->|Hin]; done.
Qed.

Lemma initialize_tensors_loaded st fs :
  let dir := tensor_load_dir (peps_parameters st) in
  dir <> "" -> stat fs dir = true ->
  exists st',
    initialize_tensors st fs = Done st' fs /\
    forall k, tensors_of st' k
              = tensors_of (foldl (load_site fs dir) (allocate st)
                                  (seq 0 (N_UNIT st))) k.
Proof.
  intros dir Hdir Hstat. unfold initialize_tensors.
  destruct (allocate_frame st) as (HP & HL & HN & Hr & Ht).
  generalize dependent (allocate st). intros a HP HL HN Hr Ht. cbv zeta.
  rewrite HP. fold dir.
  rewrite decide_False by assumption. rewrite Hstat. cbn [negb]. rewrite HN.
  eexists. split; [reflexivity|]. intros k.
  destruct (decide _); by destruct k.
Qed.

(** X15: the tensors of a checkpoint.  When the save directory exists
    after [save_tensors], a second object loading from it completes, and
    for every site each of its nine tensors (the site tensor, the four
    edges, the four corners) is the freshly allocated tensor of that kind,
    loaded from the dump of the same kind and site of the saved object:
    no file is overwritten by another tensor or by a spectrum file. *)
Theorem checkpoint_tensors_reload st st2 fs :
  let dir := tensor_save_dir (peps_parameters st) in
  let fs' := (save_tensors st fs).2 in
  dir <> "" -> stat fs' dir = true ->
  tensor_load_dir (peps_parameters st2) = dir ->
  N_UNIT st2 = N_UNIT st ->
  exists st',
    initialize_tensors st2 fs' = Done st' fs' /\
    forall k i, (i < N_UNIT st)%nat ->
      tensors_of st' k !!! i
      = tensor_load (tensors_of (allocate st2) k !!! i)
                    (Some (tensor_save (tensors_of st k !!! i))).
Proof.
  intros dir fs' Hdir Hstat Hload HN.
  destruct (initialize_tensors_loaded st2 fs') as (st' & Hinit & Hk);
    rewrite ?Hload; try assumption.
  exists st'. split; [exact Hinit|]. intros k i Hi.
  rewrite Hk, Hload, load_sites_tensors, load_at_fold by apply NoDup_seq.
  rewrite decide_True.
  - unfold fs'. by rewrite save_tensors_dumps.
  - split; [apply elem_of_seq; lia|].
    destruct k; cbn [tensors_of allocate set_op_identity set_lambda_tensor set_env
                     set_Tn Tn env eTt eTr eTb eTl C1 C2 C3 C4];
      rewrite length_fmap, length_seq; lia.
Qed.

End Coverage.


(** * Evaluations on the sample instance *)

Section Evaluations.

#[local] Existing Instance Sample.lib.
#[local] Existing Instance Sample.routines.

Import Sample.

Lemma simple_update_zero_steps_witness :
  num_simple_step (peps_parameters idle) = 0 /\
  simple_updates idle = [gate 0 2] /\
  simple_update idle = idle.
Proof.
  split; [reflexivity|]. split; [reflexivity|].
  apply (simple_update_zero_steps idle). reflexivity.
Defined.

Lemma full_update_environment_first_witness :
  0 < num_full_step (peps_parameters full_fast) /\
  full_updates full_fast = [gate 0 2] /\
  env (update_CTM full_fast) = refreshed (env full_fast) /\
  full_update full_fast
  = (full_update_step (update_CTM full_fast, (ptensor_empty, ptensor_empty))
                      (gate 0 2)).1.
Proof.
  assert (Hpos : 0 < num_full_step (peps_parameters full_fast)) by (vm_compute; reflexivity).
  split; [exact Hpos|]. split; [reflexivity|].
  destruct (full_update_environment_first full_fast Hpos)
    as (Henv & _ & _ & _ & Hfirst & _).
  split; [exact Henv|].
  destruct (Hfirst (gate 0 2) [] eq_refl) as [_ Hrun]. exact Hrun.
Defined.

Lemma lambda_copies_agree_witness :
  lattice_ok chain = true /\
  lambda_consistent (neighbor chain) (lat_N_UNIT chain)
                    (lambda_tensor (simple_update first_run.1)).
Proof.
  assert (Hok : lattice_ok chain = true) by reflexivity.
  split; [exact Hok|].
  destruct (lambda_copies_agree chain Hok) as (_ & _ & Hloop).
  apply Hloop.
  - reflexivity.
  - reflexivity.
  - intros s l Hs Hl. unfold nleg in Hl. simpl in Hs.
    destruct s as [|[|s]]; [| |lia];
      (destruct l as [|[|[|[|l]]]]; [| | | |lia]);
      eexists; split; reflexivity.
Defined.

(** The request on a block of five columns is skipped with a warning. *)
Example measure_twosite_skips_five_columns :
  measure_twosite_loop long_request [twosite 0 0 1 0]
  = Passed ([{[ (0%nat, 1, 0) := one ]}], {[ (0%nat, 1, 2) := one ]}, []) /\
  too_long (twosite 0 0 4 0) /\ representable (twosite 0 0 4 0) /\
  (left_by (measure_twosite long_request)).2 !! 0%nat
  = Some {[ (0%nat, 1, 0) := one; (1%nat, 1, 0) := one ]} /\
  trace (left_by (measure_twosite long_request)).1 = [EvWarnTooLong 0 4 0] /\
  raised (measure_twosite long_request) = None.
Proof.
  assert (Hpre : measure_twosite_loop long_request [twosite 0 0 1 0]
                 = Passed ([{[ (0%nat, 1, 0) := one ]}], {[ (0%nat, 1, 2) := one ]}, []))
    by (vm_compute; reflexivity).
  assert (Hlong : too_long (twosite 0 0 4 0)) by (left; reflexivity).
  assert (Hrep : representable (twosite 0 0 4 0)) by (split; reflexivity).
  split; [exact Hpre|]. split; [exact Hlong|]. split; [exact Hrep|].
  destruct (measure_twosite_skips_too_long long_request _ [twosite 0 1 1 0] _ _
              Hlong Hrep Hpre) as (_ & w2 & _ & _ & _ & _ & _).
  split; [vm_compute; reflexivity|]. split; [vm_compute; reflexivity|].
  vm_compute. reflexivity.
Qed.

Lemma measure_correlation_entries_witness :
  0 < LX corr_run /\ 0 < LY corr_run /\
  requested corr_run 1 0 /\ assigned corr_run 0 1 /\ assigned corr_run 1 0 /\
  exists c, c ∈ measure_correlation corr_run /\ horizontal_entry corr_run 0 1 0 0 c.
Proof.
  assert (HLX : 0 < LX corr_run) by reflexivity.
  assert (HLY : 0 < LY corr_run) by reflexivity.
  assert (Hreq : requested corr_run 1 0).
  { split; [apply list_elem_of_singleton; reflexivity | vm_compute; lia]. }
  assert (Hleft : assigned corr_run 0 1) by (vm_compute; discriminate).
  assert (Hright : assigned corr_run 1 0) by (vm_compute; discriminate).
  repeat (split; [assumption|]).
  destruct (measure_correlation_entries corr_run 0 1 0 0 HLX HLY) as (Hh & _ & _);
    try assumption; try (vm_compute; discriminate); try (vm_compute; lia).
  - split; [discriminate | reflexivity].
  - apply Hh. exact Hright.
Defined.

Lemma checkpoint_loading_witness :
  tensor_load_dir peer_params <> "" /\
  (exists st' fs',
     tenes 2 1 peer_params chain [gate 0 2] [gate 0 2] [] [] no_correlation no_files
     = Thrown "ckpt does not exists." st' fs' /\ trace st' = []) /\
  mpirank peer.1 = 1%nat /\
  spectra_stored chain 2 saved.2 "ckpt" ckpt_tokens /\
  (exists st',
     initialize_tensors peer.1 saved.2 = Done st' saved.2 /\
     lambda_tensor st' = stored_spectra 2 ckpt_tokens /\
     lambda_at (stored_spectra 2 ckpt_tokens) 0 2 = Some [half; third_read] /\
     local_ls chain 2 saved.2 "ckpt" 1 = [] /\
     trace st' = trace peer.1 ++ load_events "ckpt" [0; 1]%nat).
Proof.
  assert (Hdir : tensor_load_dir peer_params <> "") by discriminate.
  assert (Hst : spectra_stored chain 2 saved.2 "ckpt" ckpt_tokens).
  { intros i Hi. destruct i as [|[|i]]; [| |lia].
    - split; [exists []; vm_compute; reflexivity|].
      intros j Hj. unfold nleg in Hj.
      destruct j as [|[|[|[|j]]]]; [| | | |lia];
        (split; [reflexivity | repeat constructor; eexists; vm_compute; reflexivity]).
    - split; [exists []; vm_compute; reflexivity|].
      intros j Hj. unfold nleg in Hj.
      destruct j as [|[|[|[|j]]]]; [| | | |lia];
        (split; [reflexivity | repeat constructor; eexists; vm_compute; reflexivity]). }
  split; [exact Hdir|].
  destruct (checkpoint_loading peer_params Hdir) as (_ & Habort & Hload & _ & _).
  split; [apply Habort; vm_compute; reflexivity|].
  split; [reflexivity|]. split; [exact Hst|].
  destruct (Hload peer.1 saved.2 ckpt_tokens) as (st' & Hinit & Hlam & Hown & _ & Htrace).
  - reflexivity.
  - vm_compute. reflexivity.
  - exact Hst.
  - exists st'. split; [exact Hinit|]. split; [exact Hlam|].
    split; [vm_compute; reflexivity|]. split; [exact Hown|].
    rewrite Htrace. by rewrite app_nil_r.
Defined.

(** C9 (as stated) fails: with the fast-update flag, the step on the
    bond between sites 0 and 1 of the two-site row is followed by a left
    move on column 0 and a right move on column 1, two different lines. *)
Lemma fast_refresh_two_columns :
  Full_Use_FastFullUpdate (peps_parameters full_fast) = true /\
  trace (full_update_step (full_fast, (ptensor_empty, ptensor_empty)) (gate 0 2)).1
  = trace full_fast ++ [EvFullBond 0 2; EvLeftMove 0; EvRightMove 1] /\
  ~ single_line [EvLeftMove 0; EvRightMove 1].
Proof.
  split; [reflexivity|]. split; [reflexivity|].
  intros [c Hc].
  pose proof (Hc (EvLeftMove 0) ltac:(apply elem_of_cons; by left)) as H0.
  pose proof (Hc (EvRightMove 1)
                 ltac:(apply elem_of_cons; right; apply elem_of_cons; by left)) as H1.
  simpl in H0, H1. congruence.
Qed.

(** C8 (as stated) fails: operator group 1 is requested as left operator
    but is not assigned at site 1, and [measure_correlation] returns no
    record with left site 1 in either direction. *)
Lemma correlation_left_operator_unassigned :
  (1 < N_UNIT corr_run)%nat /\ requested corr_run 1 0 /\
  0 <= 0 < r_max (corparam corr_run) /\
  ~ (exists c, c ∈ measure_correlation corr_run /\ horizontal_entry corr_run 1 1 0 0 c) /\
  ~ (exists c, c ∈ measure_correlation corr_run /\ vertical_entry corr_run 1 1 0 0 c).
Proof.
  assert (Hlist : forall c, c ∈ measure_correlation corr_run -> left_index c = 0%nat).
  { intros c Hc. vm_compute in Hc.
    apply elem_of_cons in Hc as [->|Hc]; [reflexivity|].
    apply elem_of_cons in Hc as [->|Hc]; [reflexivity|].
    by apply elem_of_nil in Hc. }
  split; [vm_compute; lia|]. split.
  { split; [apply list_elem_of_singleton; reflexivity | vm_compute; lia]. }
  split; [vm_compute; split; [discriminate | reflexivity]|].
  split; intros (c & Hc & Hentry); apply Hlist in Hc;
    destruct Hentry as (Hli & _); congruence.
Qed.

(** C4 (failing run): the second of three requests has [dx = INT_MAX],
    a block of [2^31] columns, more than the four supported.  The size
    [std::abs(dx)+1] wraps around to [INT_MIN], the test [ncol > nmax] does
    not hold, and the vector constructor throws for the negative size: no
    warning is written, the third request is never measured, and [measure]
    and [tenes] end with the exception.  A request on five columns in the
    same place is skipped with a warning. *)
Theorem measure_twosite_block_size_overflow :
  twosite_operators overflow_request.1
  = [twosite 0 0 1 0; twosite 0 0 2147483647 0; twosite 0 1 1 0] /\
  Int32.in_range 2147483647 /\ too_long (twosite 0 0 2147483647 0) /\
  Int32.add (Int32.abs 2147483647) 1 = Int32.INT_MIN /\
  raised (measure_twosite overflow_request.1) = Some length_error_what /\
  trace (left_by (measure_twosite overflow_request.1)).1 = [] /\
  (left_by (measure_twosite overflow_request.1)).2
  = [{[ (0%nat, 1, 0) := one ]}] /\
  completed (measure overflow_request.1 overflow_request.2) = false /\
  completed (tenes 1 0 (params "" "" 0 0 false) chain [] [] []
                   [twosite 0 0 1 0; twosite 0 0 2147483647 0; twosite 0 1 1 0]
                   no_correlation no_files) = false /\
  raised (measure_twosite long_request) = None /\
  trace (left_by (measure_twosite long_request)).1 = [EvWarnTooLong 0 4 0].
Proof.
  split; [reflexivity|].
  split; [vm_compute; split; discriminate|].
  split; [left; reflexivity|].
  split; [reflexivity|].
  split; [vm_compute; reflexivity|]. split; [vm_compute; reflexivity|].
  split; [vm_compute; reflexivity|]. split; [vm_compute; reflexivity|].
  split; [vm_compute; reflexivity|]. split; [vm_compute; reflexivity|].
  vm_compute. reflexivity.
Qed.

(** C2 (failing run): the first run rewrites both site tensors and the
    environment, and its bond step on leg 2 of site 0 leaves the spectrum
    (1/2, 1/3) there.  [save_tensors] writes that spectrum as the numerals
    0.5 and 0.333333.  The second run, which loads the checkpoint, holds the
    same site, corner and edge tensors, but the double nearest to 0.333333
    in place of 1/3. *)
Theorem checkpoint_round_trip_loses_digits :
  Tn updated = [[7; 2; 2; 2; 2; 2]; [8; 2; 2; 2; 2; 2]]%nat /\
  C1 (env updated) = [[9; 9; 1; 1]; [9; 9; 1; 1]]%nat /\
  lambda_at (lambda_tensor updated) 0 2 = Some [half; third] /\
  find_numbers saved.2 (lambda_file "ckpt" 0)
  = Some [NumDec false 100000 (-5); NumDec false 100000 (-5);
          NumDec false 100000 (-5); NumDec false 100000 (-5);
          NumDec false 500000 (-6); NumDec false 333333 (-6);
          NumDec false 100000 (-5); NumDec false 100000 (-5)] /\
  completed (save_then_load updated first_run.2) = true /\
  Tn second_run.1 = Tn updated /\ env second_run.1 = env updated /\
  lambda_at (lambda_tensor second_run.1) 0 2 = Some [half; third_read] /\
  third_read <> third /\
  lambda_tensor second_run.1 <> lambda_tensor updated.
Proof.
  split; [vm_compute; reflexivity|]. split; [vm_compute; reflexivity|].
  split; [vm_compute; reflexivity|]. split; [vm_compute; reflexivity|].
  split; [vm_compute; reflexivity|].
  split; [vm_compute; reflexivity|]. split; [vm_compute; reflexivity|].
  split; [vm_compute; reflexivity|].
  split; [vm_compute; discriminate|].
  vm_compute. discriminate.
Qed.

(** C3 (failing run): group 0 has an operator at site 0 only.
    [measure_onesite] reports not-a-number at site 1 and [save_onesite]
    leaves that entry out of its sum and of the file, but the density
    written to [energy.dat] is the sum over both sites, not-a-number. *)
Theorem onesite_density_includes_undefined :
  measure_onesite (update_CTM partial_obs.1) = [[one; quiet_NaN]] /\
  save_onesite_group 2 0 [one; quiet_NaN] = (1%nat, one, [LOnesite 0 0 one zero]) /\
  loc_obs 2 [[one; quiet_NaN]] 0 = quiet_NaN /\
  energy_file partial_obs.1 partial_obs.2
  = Some (FText [LEnergy half; LDensity 0 quiet_NaN]).
Proof.
  split; [vm_compute; reflexivity|]. split; [vm_compute; reflexivity|].
  split; [vm_compute; reflexivity|]. vm_compute. reflexivity.
Qed.

End Evaluations.


(** * Evaluations of the further properties *)

Section CoverageEvaluations.

#[local] Existing Instance Sample.lib.
#[local] Existing Instance Sample.routines.

Import Sample.

Lemma constructor_site_table_witness :
  siteoperator_index partial_obs.1 1 0 = -1 /\
  siteoperator_index partial_obs.1 0 0 = 0 /\
  onesite_op partial_obs.1 (siteoperator_index partial_obs.1 0 0) = op (onesite 0 0).
Proof.
  assert (Hnew : TeNeS_new 1 0 (params "" "" 0 0 false) chain [] []
                           [onesite 0 0] [twosite 0 0 1 0] no_correlation no_files
                 = Done partial_obs.1 partial_obs.2) by (vm_compute; reflexivity).
  destruct (constructor_site_table _ _ _ _ _ _ _ _ _ _ _ _ Hnew) as [Hun Hlast].
  split.
  - apply Hun.
    + vm_compute. lia.
    + vm_compute. lia.
    + intros o Ho [Hs _]. apply list_elem_of_singleton in Ho. subst o. discriminate Hs.
  - apply (Hlast [] (onesite 0 0) []).
    + reflexivity.
    + vm_compute. lia.
    + intros o Ho. by apply elem_of_nil in Ho.
Defined.

Lemma measure_onesite_entries_witness :
  (0 < num_onesite_operators partial_obs.1)%nat /\ (1 < N_UNIT partial_obs.1)%nat /\
  (measure_onesite partial_obs.1 !!! 0%nat) !!! 1%nat = quiet_NaN.
Proof.
  assert (Hg : (0 < num_onesite_operators partial_obs.1)%nat) by (vm_compute; lia).
  assert (Hi : (1 < N_UNIT partial_obs.1)%nat) by (vm_compute; lia).
  split; [exact Hg|]. split; [exact Hi|].
  destruct (measure_onesite_entries partial_obs.1 0 1 Hg Hi) as [Hnan _].
  apply Hnan. intros o Ho [Hs _].
  change (onesite_operators partial_obs.1) with [onesite 0 0] in Ho.
  apply list_elem_of_singleton in Ho. subst o. discriminate Hs.
Defined.





Lemma checkpoint_tensors_reload_witness :
  exists st',
    initialize_tensors peer.1 saved.2 = Done st' saved.2 /\
    tensors_of st' T_site !!! 0%nat = Tn updated !!! 0%nat /\
    tensors_of st' C_1 !!! 1%nat = C1 (env updated) !!! 1%nat.
Proof.
  assert (Hdir : tensor_save_dir (peps_parameters updated) = "ckpt")
    by (vm_compute; reflexivity).
  destruct (checkpoint_tensors_reload updated peer.1 first_run.2)
    as (st' & Hinit & Hload).
  - rewrite Hdir. discriminate.
  - vm_compute. reflexivity.
  - vm_compute. reflexivity.
  - vm_compute. reflexivity.
  - exists st'. split; [exact Hinit|]. split.
    + rewrite (Hload T_site 0%nat) by (vm_compute; lia). reflexivity.
    + rewrite (Hload C_1 1%nat) by (vm_compute; lia). reflexivity.
Defined.

End CoverageEvaluations.
